(** * Lang: a nondeterministic string-rewriting engine and its analysis stack

    A shallow embedding of the Python sources
    - [src/rewriting/engine.py]        (Symbol, String, Rule, RewritingEngine)
    - [src/core/types.py]              (the second String class, get_blocks)
    - [src/graph/builder.py], [src/graph/scc.py]   (Graph, TarjanSCC)
    - [src/overlap/ac_automaton.py]    (OverlapDetector)
    - [src/semantic_lift/macro_system.py] (Macro, MacroDictionary, the checkers)
    followed by the properties of the specification that are settled on it.

    Conventions.  A Python [str] is a [string]; a [Set] is a [gset], a [Dict]
    a [gmap]; Python [int]s that can be negative (depth, width, m) are [Z],
    indices produced by [range] are [nat].  A raised exception is [None]. *)

From Stdlib Require Import ZArith Lia Ascii.
From stdpp Require Import gmap strings list fin_maps sets sorting.

#[local] Set Warnings "-clear-no-such-hyp".

Local Open Scope Z_scope.
Local Open Scope nat_scope.

(** ** rewriting/engine.py : symbols, strings, rules *)

(** [@dataclass(frozen=True) class Symbol]: equality is equality of [value]. *)
Record Symbol := mkSymbol { value : string }.

#[global] Instance Symbol_eq_dec : EqDecision Symbol.
Proof. solve_decision. Defined.

#[global] Instance Symbol_countable : Countable Symbol :=
  inj_countable' value mkSymbol (fun s => match s with mkSymbol _ => eq_refl end).

(** [@dataclass(frozen=True) class String]: a tuple of symbols, compared
    structurally ([__eq__] compares [symbols]). *)
Record String := mkString { symbols : list Symbol }.

#[global] Instance String_eq_dec : EqDecision String.
Proof. solve_decision. Defined.

#[global] Instance String_countable : Countable String :=
  inj_countable' symbols mkString (fun s => match s with mkString _ => eq_refl end).

(** [len(string)] *)
Definition len (s : String) : nat := length (symbols s).

(** [String.from_str]: one symbol per character of the Python string. *)
Definition from_str (s : string) : String :=
  mkString (map (fun c => mkSymbol (String.String c EmptyString))
                (String.list_ascii_of_string s)).

(** [String.__str__]: [''.join(str(s) for s in self.symbols)]. *)
Definition to_str (s : String) : string :=
  String.concat "" (map value (symbols s)).

(** The loop of [String.get_blocks] in engine.py: [blocks] and [count] are
    the two local variables; an unexpected symbol raises [ValueError]. *)
Fixpoint get_blocks_loop (syms : list Symbol) (blocks : list nat) (count : nat)
  : option (list nat) :=
  match syms with
  | [] => Some (if decide (0 < count) then blocks ++ [count] else blocks)
  | sym :: rest =>
      if decide (value sym = "0") then get_blocks_loop rest blocks (S count)
      else if decide (value sym = "|") then
        if decide (0 < count) then get_blocks_loop rest (blocks ++ [count]) 0
        else get_blocks_loop rest blocks count
      else None
  end.

Definition get_blocks (s : String) : option (list nat) :=
  get_blocks_loop (symbols s) [] 0.

(** [@dataclass(frozen=True) class Rule]; the [metadata] field is read by no
    operation modelled here and is left out. *)
Record Rule := mkRule { left : String; right : String }.

(** ** rewriting/engine.py : RewritingEngine *)

(** The slice [t[i:i+m]] of a tuple, for [0 <= i]. *)
Definition slice {A} (t : list A) (i m : nat) : list A := take m (drop i t).

(** [find_positions]: [for i in range(n - m + 1)], keeping the [i] with
    [string.symbols[i:i+m] == pattern.symbols].  [range] of a non-positive
    number is empty, which is what the truncated subtraction gives. *)
Definition find_positions (string pattern : String) : list nat :=
  let n := len string in
  let m := len pattern in
  filter (fun i => slice (symbols string) i m = symbols pattern)
         (seq 0 (n + 1 - m)).

(** [apply_rule]: splice [rule.right] in place of the matched left side. *)
Definition apply_rule (string : String) (rule : Rule) (position : nat) : String :=
  let left_len := len (left rule) in
  mkString (take position (symbols string)
            ++ symbols (right rule)
            ++ drop (position + left_len) (symbols string)).

(** [all_applications]: rule order first, position order second. *)
Definition all_applications (rules : list Rule) (string : String)
  : list (String * Rule * nat) :=
  flat_map (fun rule =>
              map (fun pos => (apply_rule string rule pos, rule, pos))
                  (find_positions string (left rule)))
           rules.

(** [applications[:width]] for a Python integer [width]: a negative bound
    counts from the end. *)
Definition slice_to {A} (l : list A) (w : Z) : list A :=
  if decide (0 <= w)%Z then take (Z.to_nat w) l
  else take (length l - Z.to_nat (- w)) l.

(** The width cut shared by [bounded_reach] and [reachable]:
    [if width is not None and len(applications) > width]. *)
Definition cut_width {A} (width : option Z) (applications : list A) : list A :=
  match width with
  | Some w => if decide (w < Z.of_nat (length applications))%Z
              then slice_to applications w else applications
  | None => applications
  end.

(** The local variables of [bounded_reach]. *)
Record reach_state := mkReach {
  levels : gmap Z (gset String);
  visited : gset String;
  queue : list (String * Z)
}.

(** The [for new_string, rule, pos in applications] loop of [bounded_reach],
    run for one dequeued [(current, level)]. *)
Definition reach_visit (level : Z) (st : reach_state) (new_string : String)
  : reach_state :=
  if decide (new_string ∈ visited st) then st
  else
    let next_level := (level + 1)%Z in
    let lv := match levels st !! next_level with
              | Some _ => levels st
              | None => <[next_level := ∅]> (levels st)
              end in
    let lv := match lv !! next_level with
              | Some members => <[next_level := members ∪ {[new_string]}]> lv
              | None => lv
              end in
    mkReach lv (visited st ∪ {[new_string]}) (queue st ++ [(new_string, next_level)]).

(** One iteration of [while queue:], after [queue.popleft()] returned
    [(current, level)] and left [st]. *)
Definition reach_body (rules : list Rule) (depth : Z) (width : option Z)
  (current : String) (level : Z) (st : reach_state) : reach_state :=
  if decide (depth <= level)%Z then st
  else
    let applications := cut_width width (all_applications rules current) in
    foldl (reach_visit level) st (map (fun a => a.1.1) applications).

(** [while queue:] with a bound on the number of iterations. *)
Fixpoint reach_loop (fuel : nat) (rules : list Rule) (depth : Z)
  (width : option Z) (st : reach_state) : reach_state :=
  match fuel with
  | 0 => st
  | S fuel' =>
      match queue st with
      | [] => st
      | (current, level) :: rest =>
          reach_loop fuel' rules depth width
            (reach_body rules depth width current level
               (mkReach (levels st) (visited st) rest))
      end
  end.

(** The size of the exploration tree below [s] with [k] levels left: every
    string ever enqueued is a node of that tree, so the tree size bounds
    the number of iterations of the loop. *)
Fixpoint tree_size (rules : list Rule) (width : option Z) (k : nat) (s : String)
  : nat :=
  match k with
  | 0 => 1
  | S k' =>
      S (sum_list_with (fun a => tree_size rules width k' a.1.1)
                       (cut_width width (all_applications rules s)))
  end.

Definition reach_init (start : String) : reach_state :=
  mkReach {[ 0%Z := {[ start ]} ]} {[ start ]} [(start, 0%Z)].

(** [RewritingEngine.bounded_reach]: the loop is run until the queue is
    empty ([bounded_reach_terminates] below). *)
Definition bounded_reach_state (rules : list Rule) (start : String) (depth : Z)
  (width : option Z) : reach_state :=
  reach_loop (tree_size rules width (Z.to_nat depth) start) rules depth width
    (reach_init start).

Definition bounded_reach (rules : list Rule) (start : String) (depth : Z)
  (width : option Z) : gmap Z (gset String) :=
  levels (bounded_reach_state rules start depth width).

(** The local variables of [reachable]; queue entries carry their path. *)
Record search_state := mkSearch {
  s_visited : gset String;
  s_queue : list (String * list String * Z)
}.

(** What a call of [reachable] produced: the returned value (a path or
    Python's [None]) and how many times [all_applications] was called. *)
Record reach_result := mkResult {
  returned : option (list String);
  expansions : nat
}.

(** The [for new_string, rule, pos in applications] loop of [reachable]:
    [inl] is the early [return path + [new_string]]. *)
Fixpoint reachable_scan (target : String) (path : list String) (level : Z)
  (news : list String) (st : search_state) : list String + search_state :=
  match news with
  | [] => inr st
  | new_string :: rest =>
      if decide (new_string = target) then inl (path ++ [new_string])
      else if decide (new_string ∈ s_visited st) then
        reachable_scan target path level rest st
      else
        reachable_scan target path level rest
          (mkSearch (s_visited st ∪ {[new_string]})
                    (s_queue st ++ [(new_string, path ++ [new_string], (level + 1)%Z)]))
  end.

(** [while queue:] of [reachable]; [None] when the iteration bound is hit. *)
Fixpoint reachable_loop (fuel : nat) (rules : list Rule) (target : String)
  (depth : Z) (width : option Z) (calls : nat) (st : search_state)
  : option reach_result :=
  match fuel with
  | 0 => None
  | S fuel' =>
      match s_queue st with
      | [] => Some (mkResult None calls)
      | (current, path, level) :: rest =>
          let st' := mkSearch (s_visited st) rest in
          if decide (depth <= level)%Z then
            reachable_loop fuel' rules target depth width calls st'
          else
            let applications := cut_width width (all_applications rules current) in
            match reachable_scan target path level
                    (map (fun a => a.1.1) applications) st' with
            | inl found => Some (mkResult (Some found) (S calls))
            | inr st'' =>
                reachable_loop fuel' rules target depth width (S calls) st''
            end
      end
  end.

(** [RewritingEngine.reachable] *)
Definition reachable (fuel : nat) (rules : list Rule) (start target : String)
  (depth : Z) (width : option Z) : option reach_result :=
  if decide (start = target) then Some (mkResult (Some [start]) 0)
  else
    reachable_loop fuel rules target depth width 0
      (mkSearch {[ start ]} [(start, [start], 0%Z)]).

(** ** core/types.py : the String class over a Python [str] *)

Module CoreTypes.

(** [content] and the private [_blocks_cache]. *)
Record String := mkString {
  content : string;
  blocks_cache : option (list nat)
}.

(** [String(content)]: the cache starts as [None]. *)
Definition new (content : string) : String := mkString content None.

(** The [for char in self.content] loop: characters other than ['0'] and
    ['|'] are skipped. *)
Fixpoint blocks_loop (chars : list ascii) (blocks : list nat)
  (current_block_len : nat) : list nat * nat :=
  match chars with
  | [] => (blocks, current_block_len)
  | char :: rest =>
      if decide (char = "0"%char) then
        blocks_loop rest blocks (S current_block_len)
      else if decide (char = "|"%char) then
        blocks_loop rest (blocks ++ [current_block_len]) 0
      else blocks_loop rest blocks current_block_len
  end.

(** The part of [get_blocks] run on a cache miss. *)
Definition compute_blocks (content : string) : list nat :=
  let chars := String.list_ascii_of_string content in
  let '(blocks, current_block_len) := blocks_loop chars [] 0 in
  if decide (0 < current_block_len
             ∨ (chars ≠ [] ∧ last chars ≠ Some "|"%char))
  then blocks ++ [current_block_len] else blocks.

(** [String.get_blocks]: the result and the object with its cache filled. *)
Definition get_blocks (s : String) : list nat * String :=
  match blocks_cache s with
  | Some blocks => (blocks, s)
  | None =>
      let blocks := compute_blocks (content s) in
      (blocks, mkString (content s) (Some blocks))
  end.

End CoreTypes.

(** ** graph/builder.py : Graph *)

Record Graph := mkGraph {
  vertices : gset String;
  edges : gmap String (list String)
}.

Definition empty_graph : Graph := mkGraph ∅ ∅.

Definition add_vertex (v : String) (g : Graph) : Graph :=
  mkGraph (vertices g ∪ {[v]})
          (match edges g !! v with
           | Some _ => edges g
           | None => <[v := []]> (edges g)
           end).

(** [self.edges[u]] after the two [add_vertex] calls is always present. *)
Definition add_edge (u v : String) (g : Graph) : Graph :=
  let g := add_vertex v (add_vertex u g) in
  match edges g !! u with
  | Some nbrs => if decide (v ∈ nbrs) then g
                 else mkGraph (vertices g) (<[u := nbrs ++ [v]]> (edges g))
  | None => g
  end.

(** [self.edges.get(v, [])] *)
Definition get_neighbors (g : Graph) (v : String) : list String :=
  default [] (edges g !! v).

(** ** graph/scc.py : TarjanSCC *)

Record SCC := mkSCC { nodes : gset String; is_attractor : bool }.

(** The fields of a [TarjanSCC] object (the graph is passed separately).
    [stack] is kept with the top of the stack at the head of the list. *)
Record tarjan_state := mkTarjan {
  index_counter : nat;
  stack : list String;
  on_stack : gset String;
  index : gmap String nat;
  lowlink : gmap String nat;
  components : list SCC
}.

Definition tarjan_init : tarjan_state := mkTarjan 0 [] ∅ ∅ ∅ [].

Definition set_lowlink (v : String) (x : nat) (st : tarjan_state) : tarjan_state :=
  mkTarjan (index_counter st) (stack st) (on_stack st) (index st)
           (<[v := x]> (lowlink st)) (components st).

(** A [for] loop whose body may raise. *)
Fixpoint for_each {A St : Type} (body : St → A → option St) (l : list A) (st : St)
  : option St :=
  match l with
  | [] => Some st
  | x :: rest => match body st x with
                 | Some st' => for_each body rest st'
                 | None => None
                 end
  end.

(** The first lines of [_strongconnect]: number [v] and push it. *)
Definition enter (v : String) (st : tarjan_state) : tarjan_state :=
  mkTarjan (S (index_counter st)) (v :: stack st) (on_stack st ∪ {[v]})
           (<[v := index_counter st]> (index st))
           (<[v := index_counter st]> (lowlink st))
           (components st).

(** The body of [for w in self.graph.get_neighbors(v)]; [rec] is the
    recursive call.  A dictionary read of a missing key raises. *)
Definition visit_neighbor (rec : String → tarjan_state → option tarjan_state)
  (v : String) (st : tarjan_state) (w : String) : option tarjan_state :=
  match index st !! w with
  | None =>
      st' ← rec w st;
      lv ← lowlink st' !! v;
      lw ← lowlink st' !! w;
      Some (set_lowlink v (lv `min` lw) st')
  | Some iw =>
      if decide (w ∈ on_stack st) then
        lv ← lowlink st !! v;
        Some (set_lowlink v (lv `min` iw) st)
      else Some st
  end.

(** The [while True] loop that pops the component of [v]: [stack.pop()]
    raises on an empty stack and [on_stack.remove(w)] on a missing [w]. *)
Fixpoint pop_component (v : String) (stk : list String) (on : gset String)
  (component_nodes : gset String) : option (list String * gset String * gset String) :=
  match stk with
  | [] => None
  | w :: stk' =>
      if decide (w ∈ on) then
        let on' := on ∖ {[w]} in
        let component_nodes' := component_nodes ∪ {[w]} in
        if decide (w = v) then Some (stk', on', component_nodes')
        else pop_component v stk' on' component_nodes'
      else None
  end.

(** The end of [_strongconnect]: [if self.lowlink[v] == self.index[v]]. *)
Definition close_component (v : String) (st : tarjan_state) : option tarjan_state :=
  lv ← lowlink st !! v;
  iv ← index st !! v;
  if decide (lv = iv) then
    '(stk, on, component_nodes) ← pop_component v (stack st) (on_stack st) ∅;
    Some (mkTarjan (index_counter st) stk on (index st) (lowlink st)
                   (components st ++ [mkSCC component_nodes false]))
  else Some st.

(** [_strongconnect]; [fuel] bounds the depth of the recursion. *)
Fixpoint strongconnect (fuel : nat) (g : Graph) (v : String) (st : tarjan_state)
  : option tarjan_state :=
  match fuel with
  | 0 => None
  | S fuel' =>
      st' ← for_each (visit_neighbor (strongconnect fuel' g) v)
                     (get_neighbors g v) (enter v st);
      close_component v st'
  end.

(** [_identify_attractors], for one component: no edge leaves it. *)
Definition attractor_test (g : Graph) (component : gset String) : bool :=
  forallb (fun node =>
             forallb (fun neighbor => bool_decide (neighbor ∈ component))
                     (get_neighbors g node))
          (elements component).

Definition identify_attractors (g : Graph) (comps : list SCC) : list SCC :=
  map (fun c => mkSCC (nodes c) (attractor_test g (nodes c))) comps.

(** [find_sccs], with the iteration order of [self.graph.vertices] given
    as a list. *)
Definition find_sccs_from (fuel : nat) (g : Graph) (order : list String)
  : option (list SCC) :=
  st ← for_each (fun st vertex =>
                   match index st !! vertex with
                   | None => strongconnect fuel g vertex st
                   | Some _ => Some st
                   end) order tarjan_init;
  Some (identify_attractors g (components st)).

(** [TarjanSCC(graph).find_sccs()]: a recursion never goes deeper than the
    number of vertices. *)
Definition find_sccs (g : Graph) : option (list SCC) :=
  find_sccs_from (S (size (vertices g))) g (elements (vertices g)).

(** ** overlap/ac_automaton.py : OverlapDetector *)

Record Overlap := mkOverlap {
  pattern1 : string;
  pattern2 : string;
  overlap_length : nat;
  overlap_string : string
}.

(** [s[-length:]] and [s[:length]] for [1 <= length <= len(s)]. *)
Definition str_suffix (length : nat) (s : string) : string :=
  String.substring (String.length s - length) length s.
Definition str_prefix (length : nat) (s : string) : string :=
  String.substring 0 length s.

(** [for length in range(max_overlap, 0, -1)] *)
Fixpoint overlap_scan (s1 s2 : string) (length : nat) : option Overlap :=
  match length with
  | 0 => None
  | S length' =>
      if decide (str_suffix length s1 = str_prefix length s2)
      then Some (mkOverlap s1 s2 length (str_suffix length s1))
      else overlap_scan s1 s2 length'
  end.

Definition find_suffix_prefix_overlap (s1 s2 : string) : option Overlap :=
  overlap_scan s1 s2 (String.length s1 `min` String.length s2).

(** [find_all_overlaps]: the two [enumerate] loops; an [Overlap] object is
    always truthy. *)
Definition find_all_overlaps (patterns : list string) (min_length : Z)
  : list Overlap :=
  flat_map (fun '(i, p1) =>
    flat_map (fun '(j, p2) =>
      if decide (i ≠ j) then
        match find_suffix_prefix_overlap p1 p2 with
        | Some overlap =>
            if decide (min_length <= Z.of_nat (overlap_length overlap))%Z
            then [overlap] else []
        | None => []
        end
      else [])
      (imap pair patterns))
    (imap pair patterns).

(** The [for overlap in overlaps] loop of [check_m_locality]. *)
Fixpoint locality_loop (overlaps : list Overlap) (m : Z) : bool :=
  match overlaps with
  | [] => true
  | overlap :: rest =>
      if decide (m < Z.of_nat (overlap_length overlap))%Z then false
      else locality_loop rest m
  end.

Definition check_m_locality (rules : list Rule) (m : Z) : bool :=
  let left_parts := map (fun rule => to_str (left rule)) rules in
  let overlaps := find_all_overlaps left_parts 1 in
  locality_loop overlaps m.

(** ** semantic_lift/macro_system.py *)

(** [@dataclass class Macro]; [metadata] is read by no modelled operation. *)
Record Macro := mkMacro {
  symbol : Symbol;
  definition : String;
  rules_add : list Rule;
  verified : bool
}.

(** [Macro.__str__] *)
Definition macro_str (m : Macro) : string :=
  value (symbol m) +:+ " := " +:+ to_str (definition m) +:+ " "
  +:+ (if verified m then "✓" else "?").

(** One entry of [MacroDictionary.history]. *)
Record history_entry := mkEntry {
  h_version : nat;
  h_action : string;
  h_macro : string;
  h_symbol : string
}.

Record MacroDictionary := mkDict {
  macros : list Macro;
  version : nat;
  history : list history_entry
}.

(** [MacroDictionary()] *)
Definition empty_dictionary : MacroDictionary := mkDict [] 1 [].

Definition add_macro (macro : Macro) (d : MacroDictionary) : MacroDictionary :=
  let version' := version d + 1 in
  mkDict (macros d ++ [macro]) version'
         (history d ++ [mkEntry version' "add" (macro_str macro) (value (symbol macro))]).

Definition get_macro (d : MacroDictionary) (sym : Symbol) : option Macro :=
  head (filter (fun macro => symbol macro = sym) (macros d)).

(** The [for sym in current.symbols] loop of [expand] for one macro: the
    rewritten symbols and whether a substitution was made. *)
Fixpoint substitute (macro : Macro) (syms : list Symbol) : list Symbol * bool :=
  match syms with
  | [] => ([], false)
  | sym :: rest =>
      let '(new_symbols, changed) := substitute macro rest in
      if decide (sym = symbol macro)
      then (symbols (definition macro) ++ new_symbols, true)
      else (sym :: new_symbols, changed)
  end.

(** The [for macro in self.macros] loop: one pass over the dictionary. *)
Fixpoint expand_pass (ms : list Macro) (current : String) (changed : bool)
  : String * bool :=
  match ms with
  | [] => (current, changed)
  | macro :: rest =>
      let '(new_symbols, hit) := substitute macro (symbols current) in
      expand_pass rest (mkString new_symbols) (changed || hit)
  end.

(** [while changed and iteration < max_iterations], with [remaining] the
    number [max_iterations - iteration] of passes still allowed. *)
Fixpoint expand_loop (remaining : nat) (ms : list Macro) (current : String)
  (changed : bool) : String :=
  match remaining with
  | 0 => current
  | S remaining' =>
      if changed then
        let '(current', changed') := expand_pass ms current false in
        expand_loop remaining' ms current' changed'
      else current
  end.

Definition max_iterations : nat := 100.

Definition expand (d : MacroDictionary) (string : String) : String :=
  expand_loop max_iterations (macros d) string true.

(** The union of all levels of a [bounded_reach] result. *)
Definition all_reach (reach : gmap Z (gset String)) : gset String :=
  map_fold (fun _ level_strings acc => acc ∪ level_strings) ∅ reach.

Module LocalConfluenceChecker.

Definition _generate_critical_pairs (rules : list Rule) : list String :=
  flat_map (fun rule1 =>
              map (fun rule2 =>
                     mkString (symbols (left rule1) ++ symbols (left rule2)))
                  rules)
           rules
  ++ map left rules.

(** The body of the [for test_string in test_strings[:20]] loop:
    [false] is the [return False]. *)
Definition joinable (all_rules : list Rule) (search_depth : Z)
  (test_string : String) : bool :=
  match all_applications all_rules test_string with
  | (result1, _, _) :: (result2, _, _) :: _ =>
      if decide (result1 = result2) then true
      else
        let reach1 := bounded_reach all_rules result1 search_depth (Some 50%Z) in
        let reach2 := bounded_reach all_rules result2 search_depth (Some 50%Z) in
        let common := all_reach reach1 ∩ all_reach reach2 in
        if decide (common = ∅) then false else true
  | _ => true
  end.

Fixpoint check_loop (all_rules : list Rule) (search_depth : Z)
  (test_strings : list String) : bool :=
  match test_strings with
  | [] => true
  | test_string :: rest =>
      if joinable all_rules search_depth test_string
      then check_loop all_rules search_depth rest
      else false
  end.

Definition check (original_rules : list Rule) (new_macro : Macro)
  (search_depth : Z) : bool :=
  let all_rules := original_rules ++ rules_add new_macro in
  let test_strings := _generate_critical_pairs all_rules in
  check_loop all_rules search_depth (take 20 test_strings).

End LocalConfluenceChecker.

(** ["0" * n] and friends. *)
Fixpoint str_repeat (s : string) (n : nat) : string :=
  match n with
  | 0 => ""
  | S n' => s +:+ str_repeat s n'
  end.

Module BoundedBisimulation.

(** [for length in range(1, min(max_length + 1, 6))] *)
Definition _generate_test_strings (max_length : Z) : list String :=
  flat_map (fun length =>
              from_str (str_repeat "0" length)
              :: (if decide (2 <= length)
                  then [from_str (str_prefix length (str_repeat "0|" (length / 2)))]
                  else []))
           (seq 1 (Z.to_nat (Z.min (max_length + 1) 6) - 1)).

(** [final_old.symmetric_difference(final_new)] *)
Definition symmetric_difference (a b : gset String) : gset String :=
  (a ∖ b) ∪ (b ∖ a).

(** The test of the loop body; [x > n * 0.5] on integers is [2 x > n]. *)
Definition diverges (original_rules new_rules : list Rule) (max_depth : Z)
  (test_string : String) : bool :=
  let reach_old := bounded_reach original_rules test_string max_depth (Some 30%Z) in
  let reach_new := bounded_reach new_rules test_string max_depth (Some 30%Z) in
  let final_old := default ∅ (reach_old !! max_depth) in
  let final_new := default ∅ (reach_new !! max_depth) in
  bool_decide (size final_old < 2 * size (symmetric_difference final_old final_new)).

Fixpoint check_loop (original_rules new_rules : list Rule) (max_depth : Z)
  (test_strings : list String) : bool :=
  match test_strings with
  | [] => true
  | test_string :: rest =>
      if diverges original_rules new_rules max_depth test_string then false
      else check_loop original_rules new_rules max_depth rest
  end.

Definition check (original_rules : list Rule) (new_macro : Macro)
  (max_length max_depth : Z) : bool :=
  let new_rules := original_rules ++ rules_add new_macro in
  let test_strings := _generate_test_strings max_length in
  check_loop original_rules new_rules max_depth (take 10 test_strings).

End BoundedBisimulation.

(** The admission step of the pipeline ([demo] of macro_system.py, step 5 of
    examples/full_pipeline_demo.py): both checks, then
    [macro.verified = True; dictionary.add_macro(macro)]. *)
Definition verify_and_admit (rules : list Rule) (macro : Macro)
  (search_depth max_length max_depth : Z) (dictionary : MacroDictionary)
  : MacroDictionary :=
  let is_confluent := LocalConfluenceChecker.check rules macro search_depth in
  let is_bisimilar := BoundedBisimulation.check rules macro max_length max_depth in
  if is_confluent && is_bisimilar then
    add_macro (mkMacro (symbol macro) (definition macro) (rules_add macro) true)
              dictionary
  else dictionary.


(** ** Counting helpers used to state the properties *)

(** The number of symbols of [s] whose value is [v]. *)
Definition count_sym (v : string) (s : String) : nat :=
  length (filter (fun sym => value sym = v) (symbols s)).

(** [s] is a string over the base alphabet. *)
Definition over_base (s : String) : Prop :=
  Forall (fun sym => value sym = "0" ∨ value sym = "|") (symbols s).

Definition count_char (c : ascii) (chars : list ascii) : nat :=
  length (filter (fun x => x = c) chars).

Definition chars_over_base (chars : list ascii) : Prop :=
  Forall (fun c => c = "0"%char ∨ c = "|"%char) chars.

(** No symbol of [s] is the symbol of a macro of [d]. *)
Definition macro_free (d : MacroDictionary) (s : String) : Prop :=
  Forall (fun sym => Forall (fun m => sym ≠ symbol m) (macros d)) (symbols s).

(** Dictionary states reached from [MacroDictionary()] by [add_macro]. *)
Inductive dict_reachable : MacroDictionary → Prop :=
  | reach_empty : dict_reachable empty_dictionary
  | reach_add m d : dict_reachable d → dict_reachable (add_macro m d).

(** Dictionary states reached from [MacroDictionary()] by the admission step
    of the pipeline, each candidate checked against the rules [rules]. *)
Inductive pipeline_reachable (rules : list Rule) : MacroDictionary → Prop :=
  | pipe_empty : pipeline_reachable rules empty_dictionary
  | pipe_step m sd ml md d :
      pipeline_reachable rules d →
      pipeline_reachable rules (verify_and_admit rules m sd ml md d).

(** A macro that went through both checks against [rules]. *)
Definition passed_checks (rules : list Rule) (m : Macro) : Prop :=
  verified m = true ∧
  (∃ sd, LocalConfluenceChecker.check rules m sd = true) ∧
  (∃ ml md, BoundedBisimulation.check rules m ml md = true).


(** The invariant of the loop of [bounded_reach]: every level is a
    non-empty set of visited strings, and two levels never share one. *)
Definition reach_inv (st : reach_state) : Prop :=
  (∀ i members, levels st !! i = Some members →
     members ≠ ∅ ∧ members ⊆ visited st)
  ∧ (∀ i j Si Sj, i ≠ j →
       levels st !! i = Some Si → levels st !! j = Some Sj → Si ## Sj).

(** The work left in a queue: the exploration trees below its entries. *)
Definition queue_measure (rules : list Rule) (depth : Z) (width : option Z)
  (q : list (String * Z)) : nat :=
  sum_list_with (fun e => tree_size rules width (Z.to_nat (depth - e.2)) e.1) q.

(** [x] occurs at some level of [bounded_reach rules s depth width]. *)
Definition in_closure (rules : list Rule) (s : String) (depth : Z)
  (width : option Z) (x : String) : Prop :=
  ∃ i members,
    bounded_reach rules s depth width !! i = Some members ∧ x ∈ members.

(** The first two applications to [t] give distinct successors. *)
Definition first_two_diverge (rules : list Rule) (t r1 r2 : String) : Prop :=
  ∃ a1 a2 rest,
    all_applications rules t = a1 :: a2 :: rest
    ∧ r1 = a1.1.1 ∧ r2 = a2.1.1 ∧ r1 ≠ r2.

(** The level [max_depth] of a [bounded_reach] result, empty when absent. *)
Definition final_level (rules : list Rule) (t : String) (max_depth : Z)
  : gset String :=
  default ∅ (bounded_reach rules t max_depth (Some 30%Z) !! max_depth).

(** Every edge of the graph ends at one of its vertices. *)
Definition graph_closed (g : Graph) : Prop :=
  ∀ v w, w ∈ get_neighbors g v → w ∈ vertices g.

(** The graphs that the operations of [Graph] build from the empty one. *)
Inductive graph_built : Graph → Prop :=
  | built_empty : graph_built empty_graph
  | built_vertex v g : graph_built g → graph_built (add_vertex v g)
  | built_edge u v g : graph_built g → graph_built (add_edge u v g).

(** [a] was numbered after [b]. *)
Definition stack_order (st : tarjan_state) (a b : String) : Prop :=
  ∃ ia ib, index st !! a = Some ia ∧ index st !! b = Some ib ∧ ib < ia.

(** The invariant of Tarjan's algorithm that the partition needs. *)
Record tarjan_inv (g : Graph) (st : tarjan_state) : Prop := mkInv {
  inv_dom : ∀ v, is_Some (lowlink st !! v) ↔ is_Some (index st !! v);
  inv_bound : ∀ v i, index st !! v = Some i → i < index_counter st;
  inv_on : ∀ v, v ∈ on_stack st ↔ v ∈ stack st;
  inv_sorted : StronglySorted (stack_order st) (stack st);
  inv_low : ∀ w, w ∈ stack st →
    ∃ u l iw, u ∈ stack st ∧ lowlink st !! w = Some l
              ∧ index st !! u = Some l ∧ index st !! w = Some iw ∧ l ≤ iw;
  inv_cover : ∀ v, is_Some (index st !! v) ↔
    v ∈ stack st ∨ ∃ c, c ∈ components st ∧ v ∈ nodes c;
  inv_ne : ∀ c, c ∈ components st → nodes c ≠ ∅;
  inv_off : ∀ c v, c ∈ components st → v ∈ nodes c → v ∉ stack st;
  inv_disj : ∀ i j c1 c2, i ≠ j →
    components st !! i = Some c1 → components st !! j = Some c2 →
    nodes c1 ## nodes c2;
  inv_vert : ∀ v, is_Some (index st !! v) → v ∈ vertices g
}.

(** What a call [_strongconnect(v)] started in [st] leaves behind: [v] is
    numbered, and either its component was popped, which restores the
    stack, or [v] stays on the stack with a smaller low-link. *)
Definition strongconnect_post (g : Graph) (st : tarjan_state) (v : String)
  (st' : tarjan_state) : Prop :=
  tarjan_inv g st'
  ∧ index st ⊆ index st'
  ∧ index st' !! v = Some (index_counter st)
  ∧ ((stack st' = stack st ∧ lowlink st' !! v = Some (index_counter st))
     ∨ (∃ T l, stack st' = T ++ v :: stack st
               ∧ lowlink st' !! v = Some l ∧ l ≠ index_counter st)).

(** A recursive call that meets its contract as long as at most [n]
    vertices are still unnumbered. *)
Definition strongconnect_spec (g : Graph)
  (rec : String → tarjan_state → option tarjan_state) (n : nat) : Prop :=
  ∀ v st, tarjan_inv g st → index st !! v = None → v ∈ vertices g →
    size (vertices g ∖ dom (index st)) ≤ n →
    ∃ st', rec v st = Some st' ∧ strongconnect_post g st v st'.

(** The state of the neighbour loop of [_strongconnect(v)] started in
    [st0]: [v] is numbered and still on the stack, above the old stack. *)
Definition neighbor_loop_inv (g : Graph) (st0 : tarjan_state) (v : String)
  (n : nat) (st : tarjan_state) : Prop :=
  tarjan_inv g st
  ∧ index (enter v st0) ⊆ index st
  ∧ (∃ T, stack st = T ++ v :: stack st0)
  ∧ size (vertices g ∖ dom (index st)) ≤ n.

(** The components are a partition of the vertex set. *)
Definition partitions (g : Graph) (comps : list SCC) : Prop :=
  (∀ c, c ∈ comps → nodes c ≠ ∅)
  ∧ (∀ i j c1 c2, i ≠ j → comps !! i = Some c1 → comps !! j = Some c2 →
       nodes c1 ## nodes c2)
  ∧ (∀ v, v ∈ vertices g ↔ ∃ c, c ∈ comps ∧ v ∈ nodes c).

(** * Further functions of the modelled files *)

(** ** rewriting/engine.py : omega_limit *)

(** [visited.index(current)]: the first position of [x]; [None] is the
    [ValueError] of a missing element. *)
Fixpoint list_index (x : String) (l : list String) : option nat :=
  match l with
  | [] => None
  | y :: rest => if decide (y = x) then Some 0 else S <$> list_index x rest
  end.

(** [visited[-window:]]: the last [window] elements, and the whole list
    when [window] is 0. *)
Definition last_window {A} (l : list A) (window : nat) : list A :=
  if decide (window = 0) then l else drop (length l - window) l.

(** The [for step in range(max_steps)] loop of [omega_limit]; [None] is an
    exception raised by [visited.index]. *)
Fixpoint omega_loop (steps : nat) (rules : list Rule) (visited : list String)
  (current : String) : option (gset String) :=
  match steps with
  | 0 =>
      let window := 100 `min` length visited in
      Some (list_to_set (last_window visited window))
  | S steps' =>
      let visited := visited ++ [current] in
      match all_applications rules current with
      | [] => Some {[ current ]}
      | (next, _, _) :: _ =>
          if decide (next ∈ visited) then
            cycle_start ← list_index next visited;
            Some (list_to_set (drop cycle_start visited))
          else omega_loop steps' rules visited next
      end
  end.

Definition omega_limit (rules : list Rule) (start : String) (max_steps : Z)
  : option (gset String) :=
  omega_loop (Z.to_nat max_steps) rules [] start.

(** ** overlap/ac_automaton.py : OverlapDetector.get_max_overlap *)

(** [max(o.overlap_length for o in overlaps)] on a non-empty list. *)
Definition max_overlap_length (overlaps : list Overlap) : nat :=
  foldr (fun o acc => overlap_length o `max` acc) 0 overlaps.

Definition get_max_overlap (rules : list Rule) : nat :=
  let left_parts := map (fun rule => to_str (left rule)) rules in
  let overlaps := find_all_overlaps left_parts 1 in
  match overlaps with
  | [] => 0
  | _ => max_overlap_length overlaps
  end.

(** ** core/types.py : String.from_blocks *)

(** [separator.join(parts)] *)
Fixpoint str_join (separator : string) (parts : list string) : string :=
  match parts with
  | [] => ""
  | [part] => part
  | part :: rest => part +:+ separator +:+ str_join separator rest
  end.

Definition from_blocks (blocks : list nat) (separator : string) : CoreTypes.String :=
  let parts := map (fun b => str_repeat "0" b) blocks in
  CoreTypes.new (str_join separator parts).

(** ** graph/builder.py : GraphBuilder *)

(** [generate_rec(current, length)] with [remaining = max_length - length];
    the alphabet is given in its iteration order. *)
Fixpoint generate_rec (remaining : nat) (alphabet : list Symbol)
  (current : list Symbol) (strings : gset String) : gset String :=
  let strings := strings ∪ {[ mkString current ]} in
  match remaining with
  | 0 => strings
  | S remaining' =>
      foldl (fun acc symbol =>
               generate_rec remaining' alphabet (current ++ [symbol]) acc)
            strings alphabet
  end.

(** [generate_strings]: the empty string is added first; a negative bound
    makes [generate_rec([], 0)] return at once. *)
Definition generate_strings (alphabet : gset Symbol) (max_length : Z)
  : gset String :=
  let strings := {[ mkString [] ]} in
  if decide (0 <= max_length)%Z
  then generate_rec (Z.to_nat max_length) (elements alphabet) [] strings
  else strings.

(** The inner loop of [build_graph] for one vertex. *)
Definition add_successors (rules : list Rule) (max_length : Z)
  (graph : Graph) (vertex : String) : Graph :=
  foldl (fun graph a =>
           let new_string := a.1.1 in
           if decide (Z.of_nat (len new_string) <= max_length)%Z
           then add_edge vertex new_string graph else graph)
        graph (all_applications rules vertex).

(** [build_graph]: every generated string becomes a vertex, then every
    vertex gets its successors that fit the length bound. *)
Definition build_graph (rules : list Rule) (alphabet : gset Symbol)
  (max_length : Z) : Graph :=
  let vs := elements (generate_strings alphabet max_length) in
  let graph := foldl (fun graph v => add_vertex v graph) empty_graph vs in
  foldl (add_successors rules max_length) graph vs.

(** ** graph/scc.py : AttractorAnalyzer.find_basin *)

(** The construction of [reverse_edges]. *)
Definition add_reverse (vertex : String) (rev : gmap String (list String))
  (neighbor : String) : gmap String (list String) :=
  <[neighbor := default [] (rev !! neighbor) ++ [vertex]]> rev.

Definition reverse_edges (g : Graph) : gmap String (list String) :=
  foldl (fun rev vertex => foldl (add_reverse vertex) rev (get_neighbors g vertex))
        ∅ (elements (vertices g)).

(** The local variables of the backward search. *)
Record basin_state := mkBasin {
  basin : gset String;
  b_visited : gset String;
  b_queue : list String
}.

(** [for pred in predecessors] *)
Definition basin_visit (st : basin_state) (pred : String) : basin_state :=
  if decide (pred ∈ b_visited st) then st
  else mkBasin (basin st ∪ {[pred]}) (b_visited st ∪ {[pred]})
               (b_queue st ++ [pred]).

(** [while queue:] with a bound on the number of iterations. *)
Fixpoint basin_loop (fuel : nat) (rev : gmap String (list String))
  (st : basin_state) : basin_state :=
  match fuel with
  | 0 => st
  | S fuel' =>
      match b_queue st with
      | [] => st
      | current :: rest =>
          let predecessors := default [] (rev !! current) in
          basin_loop fuel' rev
            (foldl basin_visit (mkBasin (basin st) (b_visited st) rest)
                   predecessors)
      end
  end.

(** [find_basin]: every vertex enters the queue at most once, so the
    number of attractor nodes plus the number of vertices bounds the loop. *)
Definition find_basin_state (g : Graph) (attractor : SCC) : basin_state :=
  basin_loop (size (nodes attractor) + size (vertices g))
    (reverse_edges g)
    (mkBasin (nodes attractor) (nodes attractor) (elements (nodes attractor))).

Definition find_basin (g : Graph) (attractor : SCC) : gset String :=
  basin (find_basin_state g attractor).

(** ** semantic_lift/macro_system.py : FrequencyAnalyzer.extract_substrings *)

(** [for length in range(min_len, max_len + 1)], then every start index. *)
Definition extract_substrings (string : String) (min_len max_len : nat)
  : list String :=
  flat_map (fun length =>
              map (fun i => mkString (slice (symbols string) i length))
                  (seq 0 (len string + 1 - length)))
           (seq min_len (max_len + 1 - min_len)).

(** * Relations used to state the properties *)

(** One rewriting step: some rule applied at one of its match positions. *)
Definition rewrites (rules : list Rule) (s t : String) : Prop :=
  ∃ rule pos, rule ∈ rules ∧ pos ∈ find_positions s (left rule)
              ∧ t = apply_rule s rule pos.

(** [n] rewriting steps. *)
Inductive rewrites_in (rules : list Rule) : nat → String → String → Prop :=
  | rewrites_zero s : rewrites_in rules 0 s s
  | rewrites_more n s t u :
      rewrites_in rules n s t → rewrites rules t u → rewrites_in rules (S n) s u.

(** A list of strings each of which rewrites to the next. *)
Fixpoint is_chain (rules : list Rule) (path : list String) : Prop :=
  match path with
  | s :: (t :: _) as rest => rewrites rules s t ∧ is_chain rules rest
  | _ => True
  end.

(** The step that [omega_limit] takes: the first application. *)
Definition first_step (rules : list Rule) (s t : String) : Prop :=
  ∃ rule pos rest, all_applications rules s = (t, rule, pos) :: rest.

(** The successors of [s] that the searches look at. *)
Definition expanded_successors (rules : list Rule) (width : option Z)
  (s : String) : list String :=
  map (fun a => a.1.1) (cut_width width (all_applications rules s)).

(** An edge of the graph out of one of its vertices. *)
Definition edge (g : Graph) (u v : String) : Prop :=
  u ∈ vertices g ∧ v ∈ get_neighbors g u.

(** What the loop of [bounded_reach] keeps true of the levels: level 0 is
    the start, a string of level [i] is [i] steps away from the start, and
    the queue holds members of the levels. *)
Definition reach_sound (rules : list Rule) (start : String) (depth : Z)
  (st : reach_state) : Prop :=
  levels st !! 0%Z = Some {[ start ]}
  ∧ (∀ i M x, levels st !! i = Some M → x ∈ M →
       (0 <= i)%Z ∧ (i <= Z.max depth 0)%Z
       ∧ rewrites_in rules (Z.to_nat i) start x)
  ∧ (∀ s l, (s, l) ∈ queue st → ∃ M, levels st !! l = Some M ∧ s ∈ M).

(** The breadth-first order: the queue is sorted by level, no level is more
    than one ahead of a queued entry, every visited string is in a level,
    and a string that left the queue has its successors in the levels, at
    most one level further. *)
Definition reach_complete (rules : list Rule) (depth : Z) (width : option Z)
  (st : reach_state) : Prop :=
  StronglySorted (fun a b => (a.2 <= b.2)%Z) (queue st)
  ∧ (∀ k s l, is_Some (levels st !! k) → (s, l) ∈ queue st → (k <= l + 1)%Z)
  ∧ (∀ x, x ∈ visited st → ∃ j M, levels st !! j = Some M ∧ x ∈ M)
  ∧ (∀ s l M, levels st !! l = Some M → s ∈ M → (l < depth)%Z →
       (s, l) ∈ queue st
       ∨ ∀ t, t ∈ expanded_successors rules width s →
           ∃ j M', (j <= l + 1)%Z ∧ levels st !! j = Some M' ∧ t ∈ M').

(** ** graph/scc.py : AttractorAnalyzer.classify_vertices *)

(** [self.attractors = [scc for scc in sccs if scc.is_attractor]] *)
Definition attractors (sccs : list SCC) : list SCC :=
  filter (fun scc => is_attractor scc = true) sccs.

(** The inner loop: the first attractor whose basin holds the vertex. *)
Fixpoint first_basin (g : Graph) (attrs : list SCC) (vertex : String)
  : option SCC :=
  match attrs with
  | [] => None
  | attractor :: rest =>
      if decide (vertex ∈ find_basin g attractor) then Some attractor
      else first_basin g rest vertex
  end.

(** [classify_vertices]: one entry per vertex, [Some None] for a vertex
    that is assigned [None]. *)
Definition classify_vertices (g : Graph) (sccs : list SCC)
  : gmap String (option SCC) :=
  foldl (fun classification vertex =>
           <[vertex := first_basin g (attractors sccs) vertex]> classification)
        ∅ (elements (vertices g)).

(** ** core/types.py : Rule and RuleSet *)

Module CoreRules.

(** [class Rule] of core/types.py; [rule_id] is the value after
    [__post_init__].  The [metadata] dictionary is read by no operation
    modelled here and is left out. *)
Record Rule := mkRule {
  left : CoreTypes.String;
  right : CoreTypes.String;
  rule_id : string
}.

(** The three fields of a [RuleSet]; [rules_by_left] is a [defaultdict]. *)
Record RuleSet := mkRuleSet {
  rules : list Rule;
  rules_by_left : gmap string (list Rule);
  rules_by_id : gmap string Rule
}.

(** [RuleSet()] *)
Definition empty : RuleSet := mkRuleSet [] ∅ ∅.

(** [add_rule]; [if rule.rule_id:] tests for a non-empty string. *)
Definition add_rule (rule : Rule) (rs : RuleSet) : RuleSet :=
  let key := CoreTypes.content (left rule) in
  mkRuleSet (rules rs ++ [rule])
            (<[key := default [] (rules_by_left rs !! key) ++ [rule]]>
               (rules_by_left rs))
            (if decide (rule_id rule ≠ "")
             then <[rule_id rule := rule]> (rules_by_id rs)
             else rules_by_id rs).

(** [text.find(pattern, start)] for [0 <= start]: the lowest index from
    [start] on at which [pattern] occurs in [text]; [None] is the [-1]. *)
Definition str_find (text pattern : string) (start : nat) : option nat :=
  head (filter
          (fun i => String.substring i (String.length pattern) text = pattern)
          (seq start (String.length text + 1 - String.length pattern - start))).

(** The [while True] loop of [find_applicable_rules] for one rule; [None]
    means that the bound on the number of iterations was too small. *)
Fixpoint find_loop (fuel : nat) (text : string) (rule : Rule) (start : nat)
  (applicable : list (Rule * nat)) : option (list (Rule * nat)) :=
  match fuel with
  | 0 => None
  | S fuel' =>
      match str_find text (CoreTypes.content (left rule)) start with
      | None => Some applicable
      | Some pos => find_loop fuel' text rule (pos + 1) (applicable ++ [(rule, pos)])
      end
  end.

(** [find_applicable_rules]: the positions found grow at every iteration,
    so the loop for one rule runs at most [len(text) + 2] times. *)
Definition find_applicable_rules (rs : RuleSet) (string : CoreTypes.String)
  : option (list (Rule * nat)) :=
  let text := CoreTypes.content string in
  for_each (fun applicable rule =>
              find_loop (String.length text + 2) text rule 0 applicable)
           (rules rs) [].

(** The rule sets made by [add_rule]. *)
Inductive built : RuleSet → Prop :=
  | built_empty : built empty
  | built_add rule rs : built rs → built (add_rule rule rs).

End CoreRules.

(** What the loop of [reachable] keeps true of its queue: every entry
    carries a derivation from the start to its string, as long as its
    level. *)
Definition search_inv (rules : list Rule) (start : String)
  (st : search_state) : Prop :=
  ∀ cur path level, (cur, path, level) ∈ s_queue st →
    head path = Some start ∧ last path = Some cur ∧ is_chain rules path
    ∧ (0 <= level)%Z ∧ Z.of_nat (length path) = (level + 1)%Z.

(** The work left in the queue of [reachable]. *)
Definition search_measure (rules : list Rule) (depth : Z) (width : option Z)
  (q : list (String * list String * Z)) : nat :=
  sum_list_with
    (fun e => tree_size rules width (Z.to_nat (depth - e.2)) e.1.1) q.

(** The characters of [from_blocks(blocks)]. *)
Definition block_chars (blocks : list nat) : list ascii :=
  String.list_ascii_of_string
    (str_join "|" (map (fun b => str_repeat "0" b) blocks)).

(** What the loop of [find_basin] keeps true: the basin is the visited set
    and contains the attractor, the queue holds visited vertices, every
    visited vertex leads to the attractor, and a visited vertex that left
    the queue has all its predecessors visited. *)
Definition basin_inv (g : Graph) (attractor : SCC) (st : basin_state) : Prop :=
  basin st = b_visited st
  ∧ nodes attractor ⊆ b_visited st
  ∧ (∀ x, x ∈ b_queue st → x ∈ b_visited st)
  ∧ (∀ x, x ∈ b_visited st → ∃ y, y ∈ nodes attractor ∧ rtc (edge g) x y)
  ∧ (∀ y, y ∈ b_visited st →
       y ∈ b_queue st ∨ ∀ u, edge g u y → u ∈ b_visited st).

(** The iterations left: the queue and the vertices not yet visited. *)
Definition basin_measure (g : Graph) (st : basin_state) : nat :=
  length (b_queue st) + size (vertices g ∖ b_visited st).

(** * Properties *)

(** Membership of a concrete string in the base alphabet. *)
Ltac solve_over_base :=
  unfold over_base; simpl;
  repeat (apply Forall_cons; split; [first [by left | by right]|]);
  apply Forall_nil_2.

(** ** find_positions *)

Section find_positions.

Lemma slice_lookup {A} (t p : list A) (i : nat) :
  i + length p ≤ length t →
  slice t i (length p) = p ↔ ∀ j, j < length p → t !! (i + j) = p !! j.
Proof.
  intros Hlen. unfold slice. split.
  - intros Heq j Hj. transitivity (take (length p) (drop i t) !! j).
    + rewrite lookup_take_lt by done. by rewrite lookup_drop.
    + by rewrite Heq.
  - intros Hj. apply list_eq. intros j.
    destruct (decide (j < length p)) as [Hlt|Hge].
    + rewrite lookup_take_lt, lookup_drop by done. auto.
    + rewrite lookup_take_ge by lia.
      symmetry. apply lookup_ge_None. lia.
Qed.

Lemma filter_seq_sorted (P : nat → Prop) `{∀ x, Decision (P x)} (a n : nat) :
  StronglySorted lt (filter P (seq a n)).
Proof.
  revert a. induction n as [|n IH]; intros a; simpl.
  - constructor.
  - rewrite filter_cons. destruct (decide (P a)); [|apply IH].
    constructor; [apply IH|].
    apply Forall_forall. intros x [_ Hx%elem_of_seq]%list_elem_of_filter. lia.
Qed.

Lemma find_positions_elem (s p : String) (i : nat) :
  i ∈ find_positions s p ↔
  i + len p ≤ len s ∧
  ∀ j, j < len p → symbols s !! (i + j) = symbols p !! j.
Proof.
  unfold find_positions, len.
  rewrite list_elem_of_filter, elem_of_seq. split.
  - intros [Heq Hi]. assert (i + length (symbols p) ≤ length (symbols s)) by lia.
    split; [done|]. by apply slice_lookup.
  - intros [Hi Hj]. split; [|lia]. by apply slice_lookup.
Qed.

End find_positions.

(** C4.  [find_positions s p] lists, in strictly increasing order, exactly
    the indices [i] with [i + len p <= len s] at which the symbols of [s]
    from [i] on are those of [p] (overlapping occurrences included); on
    ["00|00"] and ["00"] it is [[0; 3]].  The statement needs no
    non-emptiness of [p]. *)
Theorem find_positions_exact (s p : String) :
  StronglySorted lt (find_positions s p)
  ∧ (∀ i, i ∈ find_positions s p ↔
          i + len p ≤ len s
          ∧ ∀ j, j < len p → symbols s !! (i + j) = symbols p !! j)
  ∧ find_positions (from_str "00|00") (from_str "00") = [0; 3].
Proof.
  split; [apply filter_seq_sorted|].
  split; [apply find_positions_elem|]. reflexivity.
Qed.

Lemma find_positions_exact_witness :
  3 ∈ find_positions (from_str "00|00") (from_str "00").
Proof.
  apply (proj1 (proj2 (find_positions_exact (from_str "00|00") (from_str "00")))).
  split; [unfold len; simpl; lia|].
  intros [|[|j]] Hj; [reflexivity|reflexivity|unfold len in Hj; simpl in Hj; lia].
Defined.

(** ** get_blocks *)

Section get_blocks.

Lemma count_sym_cons (v : string) (sym : Symbol) (rest : list Symbol) :
  count_sym v (mkString (sym :: rest))
  = (if decide (value sym = v) then 1 else 0) + count_sym v (mkString rest).
Proof.
  unfold count_sym; simpl. rewrite filter_cons.
  by destruct (decide (value sym = v)).
Qed.

(** The engine's loop never raises on the base alphabet, adds up to the
    number of zeros, and emits at most one block per separator. *)
Lemma get_blocks_loop_base (syms : list Symbol) (blocks : list nat) (count : nat) :
  over_base (mkString syms) →
  ∃ bs, get_blocks_loop syms blocks count = Some bs
        ∧ sum_list bs = sum_list blocks + count + count_sym "0" (mkString syms)
        ∧ length bs ≤ length blocks + count_sym "|" (mkString syms) + 1.
Proof.
  unfold over_base; simpl. revert blocks count.
  induction syms as [|sym rest IH]; intros blocks count Hb; simpl.
  - eexists; split; [done|]. unfold count_sym; simpl.
    destruct (decide (0 < count)).
    + rewrite sum_list_with_app, length_app; simpl. lia.
    + lia.
  - inversion Hb as [|? ? Hsym Hrest]; subst.
    rewrite !count_sym_cons.
    destruct (decide (value sym = "0")) as [E0|N0].
    + destruct (IH blocks (S count) Hrest) as (bs & -> & Hs & Hl).
      exists bs. rewrite E0. simpl. split; [done|]. lia.
    + destruct Hsym as [?|Eb]; [done|].
      rewrite !(decide_True (P := value sym = "|")) by done.
      destruct (decide (0 < count)).
      * destruct (IH (blocks ++ [count]) 0 Hrest) as (bs & -> & Hs & Hl).
        exists bs. split; [done|].
        rewrite sum_list_with_app, length_app in *; simpl in *. lia.
      * destruct (IH blocks count Hrest) as (bs & -> & Hs & Hl).
        exists bs. split; [done|]. lia.
Qed.

Lemma count_char_cons (c x : ascii) (rest : list ascii) :
  count_char c (x :: rest)
  = (if decide (x = c) then 1 else 0) + count_char c rest.
Proof.
  unfold count_char. rewrite filter_cons. by destruct (decide (x = c)).
Qed.

(** The loop of core/types.py: one block per separator, zeros conserved. *)
Lemma blocks_loop_base (chars : list ascii) (blocks : list nat) (cur : nat) :
  chars_over_base chars →
  ∀ bs c, CoreTypes.blocks_loop chars blocks cur = (bs, c) →
    sum_list bs + c = sum_list blocks + cur + count_char "0" chars
    ∧ length bs = length blocks + count_char "|" chars.
Proof.
  revert blocks cur. induction chars as [|x rest IH]; intros blocks cur Hb bs c; simpl.
  - intros [= <- <-]. unfold count_char; simpl. lia.
  - inversion Hb as [|? ? Hx Hrest]; subst. rewrite !count_char_cons.
    destruct (decide (x = "0"%char)) as [->|N0].
    + intros Heq. apply IH in Heq; [|done]. simpl. lia.
    + destruct Hx as [?| ->]; [done|].
      rewrite decide_True by done. intros Heq. apply IH in Heq; [|done].
      rewrite sum_list_with_app, length_app in Heq; simpl in *. lia.
Qed.

End get_blocks.

(** C2, as the code has it.  On a string over the base alphabet both
    implementations of [get_blocks] return blocks that add up to the number
    of zeros.  The one of core/types.py returns [count('|') + 1] blocks
    unless the string is empty or ends in a separator, and a second call
    answers the same from the cache.  The one of rewriting/engine.py drops
    empty blocks, so it returns at most [count('|') + 1] blocks. *)
Theorem get_blocks_sum_and_length :
  (∀ s : String, over_base s →
     ∃ bs, get_blocks s = Some bs
           ∧ sum_list bs = count_sym "0" s
           ∧ length bs ≤ count_sym "|" s + 1)
  ∧ (∀ content : string,
       let chars := String.list_ascii_of_string content in
       chars_over_base chars →
       let '(bs, s') := CoreTypes.get_blocks (CoreTypes.new content) in
       sum_list bs = count_char "0" chars
       ∧ (chars ≠ [] ∧ last chars ≠ Some "|"%char →
          length bs = count_char "|" chars + 1)
       ∧ CoreTypes.get_blocks s' = (bs, s')).
Proof.
  split.
  - intros [syms] Hb. destruct (get_blocks_loop_base syms [] 0 Hb) as (bs & E & Hs & Hl).
    exists bs. unfold get_blocks. simpl in *. split; [done|]. split; lia.
  - intros content chars Hb. unfold CoreTypes.get_blocks, CoreTypes.new; simpl.
    unfold CoreTypes.compute_blocks. fold chars.
    destruct (CoreTypes.blocks_loop chars [] 0) as [bs c] eqn:E.
    apply blocks_loop_base in E; [|done]. simpl in E. destruct E as [Es El].
    destruct (decide (0 < c ∨ chars ≠ [] ∧ last chars ≠ Some "|"%char)) as [Y|N].
    + rewrite sum_list_with_app, length_app; simpl. split; [lia|]. split; [lia|done].
    + split; [lia|]. split; [|done]. intros Hne. destruct N. by right.
Qed.

Lemma get_blocks_sum_and_length_witness :
  over_base (from_str "00|000|0")
  ∧ ∃ bs, get_blocks (from_str "00|000|0") = Some bs
          ∧ sum_list bs = count_sym "0" (from_str "00|000|0")
          ∧ length bs ≤ count_sym "|" (from_str "00|000|0") + 1.
Proof.
  assert (over_base (from_str "00|000|0")) as Hbase.
  { solve_over_base. }
  split; [exact Hbase|].
  exact (proj1 get_blocks_sum_and_length (from_str "00|000|0") Hbase).
Defined.

(** C2, as stated, fails for the engine's [get_blocks]: ["0||0"] is not
    empty and ends in a zero, yet it has two blocks and two separators. *)
Lemma get_blocks_length_counterexample :
  ¬ (∀ s : String, over_base s →
       symbols s ≠ [] → last (symbols s) ≠ Some (mkSymbol "|") →
       ∃ bs, get_blocks s = Some bs
             ∧ sum_list bs = count_sym "0" s
             ∧ length bs = count_sym "|" s + 1).
Proof.
  intros H. destruct (H (from_str "0||0")) as (bs & E & _ & Hl).
  - solve_over_base.
  - discriminate.
  - discriminate.
  - vm_compute in E. injection E as <-. vm_compute in Hl. discriminate.
Qed.

(** ** check_m_locality *)

Lemma locality_loop_mono (overlaps : list Overlap) (m m' : Z) :
  (m <= m')%Z → locality_loop overlaps m = true → locality_loop overlaps m' = true.
Proof.
  intros Hle. induction overlaps as [|o rest IH]; simpl; [done|].
  destruct (decide (m < Z.of_nat (overlap_length o))%Z); [done|].
  intros Hrest. rewrite decide_False by lia. auto.
Qed.

(** C8.  [check_m_locality] is monotone in its bound. *)
Theorem check_m_locality_monotone (rules : list Rule) (m m' : Z) :
  (m <= m')%Z →
  check_m_locality rules m = true → check_m_locality rules m' = true.
Proof. intros Hle. unfold check_m_locality. by apply locality_loop_mono. Qed.

Lemma check_m_locality_monotone_witness :
  let rules := [mkRule (from_str "00") (from_str "0|");
                mkRule (from_str "0|") (from_str "00")] in
  (1 <= 4)%Z ∧ check_m_locality rules 1 = true ∧ check_m_locality rules 4 = true.
Proof.
  intros rules. split; [lia|]. split; [reflexivity|].
  apply (check_m_locality_monotone rules 1 4); [lia|reflexivity].
Defined.

(** ** MacroDictionary.expand *)

Section expand.

Lemma substitute_absent (macro : Macro) (syms : list Symbol) :
  Forall (fun sym => sym ≠ symbol macro) syms →
  substitute macro syms = (syms, false).
Proof.
  induction 1 as [|sym rest Hsym _ IH]; simpl; [done|].
  rewrite IH. by rewrite decide_False.
Qed.

Lemma expand_pass_absent (ms : list Macro) (current : String) (changed : bool) :
  Forall (fun sym => Forall (fun m => sym ≠ symbol m) ms) (symbols current) →
  expand_pass ms current changed = (current, changed).
Proof.
  revert current changed. induction ms as [|macro rest IH]; intros [syms] changed H; simpl.
  - done.
  - rewrite substitute_absent.
    + rewrite orb_false_r. apply IH. simpl in *.
      eapply Forall_impl; [exact H|]. by intros sym [_ ?]%Forall_cons.
    + simpl in H. eapply Forall_impl; [exact H|]. by intros sym [? _]%Forall_cons.
Qed.

(** A string over the base alphabet has no macro symbol as soon as no
    macro is named after a base symbol. *)
Lemma over_base_macro_free (d : MacroDictionary) (s : String) :
  over_base s →
  Forall (fun m => value (symbol m) ≠ "0" ∧ value (symbol m) ≠ "|") (macros d) →
  macro_free d s.
Proof.
  intros Hs Hd. unfold macro_free. eapply Forall_impl; [exact Hs|].
  intros sym Hsym. eapply Forall_impl; [exact Hd|].
  intros m [H0 Hb] ->. tauto.
Qed.

End expand.

(** C9.  When no symbol of [s] is the symbol of a macro of [d],
    [d.expand(s)] is [s], and so is expanding the result again. *)
Theorem expand_macro_free (d : MacroDictionary) (s : String) :
  macro_free d s → expand d s = s ∧ expand d (expand d s) = expand d s.
Proof.
  intros Hfree.
  assert (expand d s = s) as E.
  { unfold expand, max_iterations. simpl.
    rewrite expand_pass_absent by exact Hfree. done. }
  by rewrite !E.
Qed.

Lemma expand_macro_free_witness :
  let macro := mkMacro (mkSymbol "A") (from_str "00")
                 [mkRule (mkString [mkSymbol "A"]) (from_str "00");
                  mkRule (from_str "00") (mkString [mkSymbol "A"])] true in
  let d := add_macro macro empty_dictionary in
  let s := from_str "00|0" in
  macro_free d s ∧ expand d s = s ∧ expand d (expand d s) = expand d s.
Proof.
  intros macro d s.
  assert (macro_free d s) as Hfree.
  { unfold macro_free; simpl. repeat constructor; discriminate. }
  split; [exact Hfree|]. exact (expand_macro_free d s Hfree).
Defined.

(** ** reachable *)

(** C10.  When [start] is the target, [reachable] returns the one-element
    path [[start]] without calling [all_applications], whatever the rules,
    the depth (zero or negative included), the width and the loop bound. *)
Theorem reachable_start_is_target (fuel : nat) (rules : list Rule)
  (start : String) (depth : Z) (width : option Z) :
  reachable fuel rules start start depth width
  = Some (mkResult (Some [start]) 0).
Proof. unfold reachable. by rewrite decide_True. Qed.

(** ** MacroDictionary.add_macro and the admission step *)

Section admission.

Lemma add_macro_fields (m : Macro) (d : MacroDictionary) :
  macros (add_macro m d) = macros d ++ [m]
  ∧ version (add_macro m d) = version d + 1
  ∧ ∃ e, history (add_macro m d) = history d ++ [e]
         ∧ h_version e = version d + 1
         ∧ h_symbol e = value (symbol m).
Proof. unfold add_macro; simpl. repeat split. eexists. by repeat split. Qed.

Lemma verify_and_admit_cases (rules : list Rule) (m : Macro)
  (sd ml md : Z) (d : MacroDictionary) :
  (verify_and_admit rules m sd ml md d = d)
  ∨ (LocalConfluenceChecker.check rules m sd = true
     ∧ BoundedBisimulation.check rules m ml md = true
     ∧ verify_and_admit rules m sd ml md d
       = add_macro (mkMacro (symbol m) (definition m) (rules_add m) true) d).
Proof.
  unfold verify_and_admit.
  destruct (LocalConfluenceChecker.check rules m sd) eqn:E1;
    destruct (BoundedBisimulation.check rules m ml md) eqn:E2; simpl; auto.
Qed.

Lemma pipeline_invariant (rules : list Rule) (d : MacroDictionary) :
  pipeline_reachable rules d →
  Forall (passed_checks rules) (macros d)
  ∧ version d = 1 + length (macros d)
  ∧ length (history d) = length (macros d).
Proof.
  induction 1 as [|m sd ml md d Hd (IHm & IHv & IHh)].
  - simpl. split; [constructor|done].
  - destruct (verify_and_admit_cases rules m sd ml md d) as [->|(C1 & C2 & ->)].
    + done.
    + simpl. rewrite !length_app, Forall_app. simpl.
      split; [|lia]. split; [done|]. apply Forall_singleton.
      split; [done|]. split; [by exists sd|by exists ml, md].
Qed.

End admission.

(** C1, as the code has it.  [add_macro] checks nothing: it appends the
    macro it is given, whatever its [verified] flag, adds one to the version
    and appends one history record carrying the new version.  The checks
    are made in the pipeline's admission step, which calls [add_macro] only when both
    checks returned [True] and after setting [verified]: in every dictionary
    reached from the empty one through that step, every macro is verified
    and passed both checks, and the version is one more than the number of
    macros, which is also the number of history records. *)
Theorem admission_only_through_pipeline (rules : list Rule) :
  (∀ m d, macros (add_macro m d) = macros d ++ [m]
          ∧ version (add_macro m d) = version d + 1
          ∧ ∃ e, history (add_macro m d) = history d ++ [e]
                 ∧ h_version e = version d + 1
                 ∧ h_symbol e = value (symbol m))
  ∧ (∀ d, pipeline_reachable rules d →
          Forall (passed_checks rules) (macros d)
          ∧ version d = 1 + length (macros d)
          ∧ length (history d) = length (macros d)).
Proof. split; [apply add_macro_fields|apply pipeline_invariant]. Qed.

Lemma admission_only_through_pipeline_witness :
  let rules := [mkRule (from_str "00") (from_str "0|");
                mkRule (from_str "0|") (from_str "00")] in
  let macro := mkMacro (mkSymbol "B") (from_str "||")
                 [mkRule (mkString [mkSymbol "B"]) (from_str "||");
                  mkRule (from_str "||") (mkString [mkSymbol "B"])] false in
  let d := verify_and_admit rules macro 1 6 1 empty_dictionary in
  length (macros d) = 1
  ∧ Forall (passed_checks rules) (macros d)
  ∧ version d = 1 + length (macros d)
  ∧ length (history d) = length (macros d).
Proof.
  intros rules macro d. split; [reflexivity|].
  apply (proj2 (admission_only_through_pipeline rules) d).
  apply pipe_step, pipe_empty.
Defined.

(** C1, as stated, fails: [add_macro] is an operation of the dictionary and
    takes an unverified macro, so a reachable dictionary can hold one. *)
Lemma unverified_macro_counterexample :
  ¬ (∀ d, dict_reachable d → Forall (fun m => verified m = true) (macros d)).
Proof.
  intros H.
  pose (macro := mkMacro (mkSymbol "A") (from_str "00") [] false).
  specialize (H (add_macro macro empty_dictionary) (reach_add _ _ reach_empty)).
  inversion H as [|? ? Hv _]. discriminate Hv.
Qed.

(** ** bounded_reach *)

Section bounded_reach.

Context (rules : list Rule) (depth : Z) (width : option Z).

(** The two dictionary updates of the loop body amount to one insertion. *)
Lemma reach_visit_eq (level : Z) (st : reach_state) (x : String) :
  reach_visit level st x =
  if decide (x ∈ visited st) then st
  else mkReach (<[(level + 1)%Z :=
                    default ∅ (levels st !! (level + 1)%Z) ∪ {[x]}]> (levels st))
               (visited st ∪ {[x]})
               (queue st ++ [(x, (level + 1)%Z)]).
Proof.
  unfold reach_visit. destruct (decide (x ∈ visited st)); [done|].
  destruct (levels st !! (level + 1)%Z) as [members|] eqn:E; simpl.
  - by rewrite E.
  - rewrite lookup_insert_eq, insert_insert_eq. do 2 f_equal.
Qed.

Lemma reach_visit_inv (level : Z) (st : reach_state) (x : String) :
  reach_inv st → reach_inv (reach_visit level st x).
Proof.
  intros [Hne Hdis]. rewrite reach_visit_eq.
  destruct (decide (x ∈ visited st)) as [|Hx]; [done|].
  assert (default ∅ (levels st !! (level + 1)%Z) ⊆ visited st) as Hold.
  { destruct (levels st !! (level + 1)%Z) as [members|] eqn:E; simpl.
    - by apply (Hne _ _ E).
    - apply empty_subseteq. }
  assert (∀ j Sj, j ≠ (level + 1)%Z → levels st !! j = Some Sj →
            default ∅ (levels st !! (level + 1)%Z) ## Sj) as Hfresh.
  { intros j Sj Hj Hl.
    destruct (levels st !! (level + 1)%Z) as [members|] eqn:E; simpl.
    - apply (Hdis _ _ _ _ (not_eq_sym Hj) E Hl).
    - apply disjoint_empty_l. }
  set (old := default ∅ (levels st !! (level + 1)%Z)) in *. clearbody old.
  split; simpl.
  - intros i members. rewrite lookup_insert.
    destruct (decide ((level + 1)%Z = i)) as [_|Hi].
    + intros [= <-]. split; [|set_solver].
      intros Hempty. assert (x ∈ old ∪ {[x]}) as Hin by set_solver.
      rewrite Hempty in Hin. set_solver.
    + intros Hl. destruct (Hne _ _ Hl) as [Hn Hs]. split; [done|set_solver].
  - intros i j Si Sj Hij. rewrite !lookup_insert.
    destruct (decide ((level + 1)%Z = i)) as [<-|Hi];
      destruct (decide ((level + 1)%Z = j)) as [<-|Hj]; try done.
    + intros [= <-] Hl. destruct (Hne _ _ Hl) as [_ Hsub].
      pose proof (Hfresh j Sj (not_eq_sym Hij) Hl). set_solver.
    + intros Hl [= <-]. destruct (Hne _ _ Hl) as [_ Hsub].
      pose proof (Hfresh i Si Hij Hl). set_solver.
    + by apply Hdis.
Qed.

Lemma reach_fold_inv (level : Z) (xs : list String) (st : reach_state) :
  reach_inv st → reach_inv (foldl (reach_visit level) st xs).
Proof.
  revert st. induction xs as [|x xs IH]; intros st H; simpl; [done|].
  by apply IH, reach_visit_inv.
Qed.

Lemma reach_body_inv (current : String) (level : Z) (st : reach_state) :
  reach_inv st → reach_inv (reach_body rules depth width current level st).
Proof.
  intros H. unfold reach_body. destruct (decide (depth <= level)%Z); [done|].
  by apply reach_fold_inv.
Qed.

Lemma reach_loop_inv (fuel : nat) (st : reach_state) :
  reach_inv st → reach_inv (reach_loop fuel rules depth width st).
Proof.
  revert st. induction fuel as [|fuel IH]; intros st H; simpl; [done|].
  destruct (queue st) as [|[current level] rest]; [done|].
  apply IH, reach_body_inv. exact H.
Qed.

Lemma reach_init_inv (start : String) : reach_inv (reach_init start).
Proof.
  split; simpl.
  - intros i members [<- <-]%lookup_singleton_Some. split; set_solver.
  - intros i j Si Sj Hij [<- <-]%lookup_singleton_Some
      [<- <-]%lookup_singleton_Some. done.
Qed.

(** Termination: the measure of the queue goes down at every iteration. *)

Local Abbreviation measure := (queue_measure rules depth width).

Lemma tree_size_pos (k : nat) (s : String) : 0 < tree_size rules width k s.
Proof. destruct k; simpl; lia. Qed.

Lemma measure_nil_inv (q : list (String * Z)) : measure q = 0 → q = [].
Proof.
  destruct q as [|[s l] q]; [done|]. unfold queue_measure; simpl.
  pose proof (tree_size_pos (Z.to_nat (depth - l)) s). lia.
Qed.

Lemma reach_visit_measure (level : Z) (st : reach_state) (x : String) :
  measure (queue (reach_visit level st x))
  ≤ measure (queue st)
    + tree_size rules width (Z.to_nat (depth - (level + 1))) x.
Proof.
  rewrite reach_visit_eq. destruct (decide (x ∈ visited st)); [lia|].
  unfold queue_measure; simpl. rewrite sum_list_with_app; simpl. lia.
Qed.

Lemma reach_fold_measure (level : Z) (apps : list (String * Rule * nat))
  (st : reach_state) :
  measure (queue (foldl (reach_visit level) st (map (fun a => a.1.1) apps)))
  ≤ measure (queue st)
    + sum_list_with
        (fun a => tree_size rules width (Z.to_nat (depth - (level + 1))) a.1.1)
        apps.
Proof.
  revert st. induction apps as [|a apps IH]; intros st; simpl; [lia|].
  etrans; [apply IH|].
  pose proof (reach_visit_measure level st a.1.1). lia.
Qed.

Lemma reach_body_measure (current : String) (level : Z) (st : reach_state) :
  measure (queue (reach_body rules depth width current level st))
  < measure (queue st)
    + tree_size rules width (Z.to_nat (depth - level)) current.
Proof.
  unfold reach_body. destruct (decide (depth <= level)%Z) as [|Hlt].
  - pose proof (tree_size_pos (Z.to_nat (depth - level)) current). lia.
  - replace (Z.to_nat (depth - level))
      with (S (Z.to_nat (depth - (level + 1)))) by lia.
    simpl.
    pose proof (reach_fold_measure level
                  (cut_width width (all_applications rules current)) st).
    lia.
Qed.

Lemma reach_loop_done (fuel : nat) (st : reach_state) :
  measure (queue st) ≤ fuel →
  queue (reach_loop fuel rules depth width st) = [].
Proof.
  revert st. induction fuel as [|fuel IH]; intros st Hm; simpl.
  - apply measure_nil_inv. lia.
  - destruct (queue st) as [|[current level] rest] eqn:Eq; [done|].
    apply IH.
    pose proof (reach_body_measure current level
                  (mkReach (levels st) (visited st) rest)) as Hb.
    unfold queue_measure in *; simpl in *. lia.
Qed.

(** More iterations than needed change nothing. *)
Lemma reach_loop_stable (fuel extra : nat) (st : reach_state) :
  queue (reach_loop fuel rules depth width st) = [] →
  reach_loop (fuel + extra) rules depth width st
  = reach_loop fuel rules depth width st.
Proof.
  revert st. induction fuel as [|fuel IH]; intros st Hq; simpl in *.
  - destruct extra; simpl; [done|]. by rewrite Hq.
  - destruct (queue st) as [|[current level] rest]; [done|]. by apply IH.
Qed.

End bounded_reach.

Lemma bounded_reach_terminates (rules : list Rule) (start : String) (depth : Z)
  (width : option Z) :
  queue (bounded_reach_state rules start depth width) = [].
Proof.
  unfold bounded_reach_state. apply reach_loop_done.
  unfold queue_measure, reach_init; simpl.
  replace (depth - 0)%Z with depth by lia. lia.
Qed.

Lemma bounded_reach_inv (rules : list Rule) (start : String) (depth : Z)
  (width : option Z) :
  reach_inv (bounded_reach_state rules start depth width).
Proof. apply reach_loop_inv, reach_init_inv. Qed.

(** C3.  With the rules [00 -> 0|] and [0| -> 00], [bounded_reach] from
    ["00"] with depth 2 and width 10 is [{0: {"00"}, 1: {"0|"}}].  In general
    the loop runs to an empty queue, two levels of the result never share a
    string, and no level of the result is empty. *)
Theorem bounded_reach_levels :
  bounded_reach [mkRule (from_str "00") (from_str "0|");
                 mkRule (from_str "0|") (from_str "00")]
                (from_str "00") 2 (Some 10%Z)
  = {[ 0%Z := {[ from_str "00" ]}; 1%Z := {[ from_str "0|" ]} ]}
  ∧ ∀ rules start depth width,
      queue (bounded_reach_state rules start depth width) = []
      ∧ (∀ i j Si Sj, (i < j)%Z →
           bounded_reach rules start depth width !! i = Some Si →
           bounded_reach rules start depth width !! j = Some Sj →
           Si ## Sj)
      ∧ (∀ i members,
           bounded_reach rules start depth width !! i = Some members →
           members ≠ ∅).
Proof.
  split; [by vm_compute|].
  intros rules start depth width.
  destruct (bounded_reach_inv rules start depth width) as [Hne Hdis].
  split; [apply bounded_reach_terminates|]. split.
  - intros i j Si Sj Hij. apply Hdis. lia.
  - intros i members Hl. by apply (Hne _ _ Hl).
Qed.

Lemma bounded_reach_levels_witness :
  let rules := [mkRule (from_str "00") (from_str "0|");
                mkRule (from_str "0|") (from_str "00")] in
  ({[ from_str "00" ]} : gset String) ## {[ from_str "0|" ]}.
Proof.
  intros rules.
  apply (proj1 (proj2 (proj2 bounded_reach_levels rules (from_str "00") 2%Z (Some 10%Z)))
           0%Z 1%Z); [lia|by vm_compute|by vm_compute].
Defined.

(** ** LocalConfluenceChecker.check *)

Section confluence.

Lemma all_reach_elem (reach : gmap Z (gset String)) (x : String) :
  x ∈ all_reach reach ↔ ∃ i members, reach !! i = Some members ∧ x ∈ members.
Proof.
  unfold all_reach.
  apply (map_fold_weak_ind
           (fun (acc : gset String) (m : gmap Z (gset String)) =>
              x ∈ acc ↔ ∃ i members, m !! i = Some members ∧ x ∈ members)).
  - split; [set_solver|]. intros (i & members & Hl & _).
    by rewrite lookup_empty in Hl.
  - intros i members m acc Hnone IH. rewrite elem_of_union, IH. split.
    + intros [(j & S' & Hl & Hx)|Hx].
      * exists j, S'. split; [|done].
        rewrite lookup_insert_ne; [done|]. intros ->. by rewrite Hnone in Hl.
      * exists i, members. by rewrite lookup_insert_eq.
    + intros (j & S' & Hl & Hx). rewrite lookup_insert in Hl.
      destruct (decide (i = j)) as [_|Hne].
      * injection Hl as <-. by right.
      * left. by exists j, S'.
Qed.

Lemma critical_pairs_elem (rules : list Rule) (t : String) :
  t ∈ LocalConfluenceChecker._generate_critical_pairs rules ↔
  (∃ rule1 rule2, rule1 ∈ rules ∧ rule2 ∈ rules
     ∧ t = mkString (symbols (left rule1) ++ symbols (left rule2)))
  ∨ (∃ rule, rule ∈ rules ∧ t = left rule).
Proof.
  unfold LocalConfluenceChecker._generate_critical_pairs.
  rewrite list_elem_of_In, in_app_iff, in_flat_map, in_map_iff. split.
  - intros [(rule1 & H1 & (rule2 & <- & H2)%in_map_iff)|(rule & <- & H)].
    + left. exists rule1, rule2. by rewrite !list_elem_of_In.
    + right. exists rule. by rewrite list_elem_of_In.
  - intros [(rule1 & rule2 & H1 & H2 & ->)|(rule & H & ->)].
    + left. exists rule1. rewrite <- list_elem_of_In. split; [done|].
      apply in_map_iff. exists rule2. by rewrite <- list_elem_of_In.
    + right. exists rule. by rewrite <- list_elem_of_In.
Qed.

Lemma joinable_false (all_rules : list Rule) (search_depth : Z) (t : String) :
  LocalConfluenceChecker.joinable all_rules search_depth t = false ↔
  ∃ r1 r2, first_two_diverge all_rules t r1 r2
    ∧ ∀ x, ¬ (in_closure all_rules r1 search_depth (Some 50%Z) x
              ∧ in_closure all_rules r2 search_depth (Some 50%Z) x).
Proof.
  unfold LocalConfluenceChecker.joinable, first_two_diverge, in_closure.
  destruct (all_applications all_rules t) as [|[[r1 ?] ?] [|[[r2 ?] ?] rest]].
  - split; [done|]. by intros (? & ? & (? & ? & ? & ? & _) & _).
  - split; [done|]. by intros (? & ? & (? & ? & ? & ? & _) & _).
  - destruct (decide (r1 = r2)) as [Heq|Hne].
    + split; [done|].
      intros (? & ? & (a1 & a2 & ? & [= <- <- _] & -> & -> & Hd) & _). done.
    + destruct (decide (_ ∩ _ = ∅)) as [Hempty|Hcommon]; split; try done.
      * intros _. exists r1, r2. split; [by eexists _, _, _|].
        intros x [Hx1%all_reach_elem Hx2%all_reach_elem].
        assert (x ∈ (∅ : gset String)) as Hin.
        { rewrite <- Hempty. by apply elem_of_intersection. }
        set_solver.
      * intros (? & ? & (a1 & a2 & ? & [= <- <- _] & -> & -> & _) & Hno).
        destruct Hcommon. apply set_eq. intros x. split; [|set_solver].
        intros [Hx1%all_reach_elem Hx2%all_reach_elem]%elem_of_intersection.
        destruct (Hno x). by split.
Qed.

Lemma confluence_loop_false (all_rules : list Rule) (search_depth : Z)
  (ts : list String) :
  LocalConfluenceChecker.check_loop all_rules search_depth ts = false ↔
  ∃ t, t ∈ ts ∧ LocalConfluenceChecker.joinable all_rules search_depth t = false.
Proof.
  induction ts as [|t ts IH]; simpl.
  - split; [done|]. intros (t & Ht & _). by apply elem_of_nil in Ht.
  - destruct (LocalConfluenceChecker.joinable all_rules search_depth t) eqn:E.
    + rewrite IH. split.
      * intros (t' & Ht' & E'). exists t'. split; [by right|done].
      * intros (t' & [->|Ht']%elem_of_cons & E'); [congruence|by exists t'].
    + split; [|done]. intros _. exists t. split; [by left|done].
Qed.

End confluence.

(** C5.  [LocalConfluenceChecker.check] returns [False] exactly when, for
    one of the first 20 critical strings of the combined rule set, the first
    two applications give distinct successors whose bounded-reach closures
    (depth [search_depth], width 50, all levels united) share no string; it
    returns [True] exactly when every tested divergent pair has a common
    descendant.  The critical strings are the pairwise concatenations of the
    left-hand sides followed by the left-hand sides. *)
Theorem confluence_check_exact (original_rules : list Rule) (new_macro : Macro)
  (search_depth : Z) :
  let all_rules := original_rules ++ rules_add new_macro in
  let tested := take 20 (LocalConfluenceChecker._generate_critical_pairs all_rules) in
  (LocalConfluenceChecker.check original_rules new_macro search_depth = false ↔
     ∃ t r1 r2, t ∈ tested ∧ first_two_diverge all_rules t r1 r2
       ∧ ∀ x, ¬ (in_closure all_rules r1 search_depth (Some 50%Z) x
                 ∧ in_closure all_rules r2 search_depth (Some 50%Z) x))
  ∧ (LocalConfluenceChecker.check original_rules new_macro search_depth = true ↔
       ∀ t r1 r2, t ∈ tested → first_two_diverge all_rules t r1 r2 →
         ∃ x, in_closure all_rules r1 search_depth (Some 50%Z) x
              ∧ in_closure all_rules r2 search_depth (Some 50%Z) x)
  ∧ (∀ t, t ∈ LocalConfluenceChecker._generate_critical_pairs all_rules ↔
       (∃ rule1 rule2, rule1 ∈ all_rules ∧ rule2 ∈ all_rules
          ∧ t = mkString (symbols (left rule1) ++ symbols (left rule2)))
       ∨ (∃ rule, rule ∈ all_rules ∧ t = left rule)).
Proof.
  intros all_rules tested.
  assert (LocalConfluenceChecker.check original_rules new_macro search_depth = false ↔
     ∃ t r1 r2, t ∈ tested ∧ first_two_diverge all_rules t r1 r2
       ∧ ∀ x, ¬ (in_closure all_rules r1 search_depth (Some 50%Z) x
                 ∧ in_closure all_rules r2 search_depth (Some 50%Z) x)) as Hfalse.
  { unfold LocalConfluenceChecker.check. fold all_rules. fold tested.
    rewrite confluence_loop_false. split.
    - intros (t & Ht & (r1 & r2 & Hd & Hno)%joinable_false). by exists t, r1, r2.
    - intros (t & r1 & r2 & Ht & Hd & Hno). exists t. split; [done|].
      apply joinable_false. by exists r1, r2. }
  split; [exact Hfalse|]. split; [|apply critical_pairs_elem].
  destruct (LocalConfluenceChecker.check original_rules new_macro search_depth).
  - split; [|done]. intros _ t r1 r2 Ht Hd.
    destruct (decide (all_reach (bounded_reach all_rules r1 search_depth (Some 50%Z))
                      ∩ all_reach (bounded_reach all_rules r2 search_depth (Some 50%Z))
                      = ∅)) as [Hempty|Hcommon].
    + assert (true = false) as Habs; [|discriminate Habs].
      apply Hfalse. exists t, r1, r2. split; [done|]. split; [done|].
      intros x [Hx1%all_reach_elem Hx2%all_reach_elem].
      assert (x ∈ (∅ : gset String)) as Hin.
      { rewrite <- Hempty. by apply elem_of_intersection. }
      set_solver.
    + apply set_choose_L in Hcommon as [x [Hx1 Hx2]%elem_of_intersection].
      exists x. split; by apply all_reach_elem.
  - split; [done|]. intros Hall.
    destruct (proj1 Hfalse eq_refl) as (t & r1 & r2 & Ht & Hd & Hno).
    destruct (Hall t r1 r2 Ht Hd) as [x Hx]. destruct (Hno x Hx).
Qed.

Lemma confluence_check_exact_witness :
  let rules := [mkRule (from_str "00") (from_str "0|");
                mkRule (from_str "00") (from_str "|0")] in
  let macro := mkMacro (mkSymbol "A") (from_str "||") [] false in
  LocalConfluenceChecker.check rules macro 0 = false.
Proof.
  intros rules macro.
  apply (proj1 (confluence_check_exact rules macro 0)).
  exists (from_str "00"), (from_str "0|"), (from_str "|0").
  split; [|split].
  - apply elem_of_take. exists 4. split; [reflexivity|lia].
  - eexists _, _, _. split; [reflexivity|]. split; [done|]. split; [done|].
    discriminate.
  - intros x [(i & S1 & H1 & Hx1) (j & S2 & H2 & Hx2)].
    assert (bounded_reach (rules ++ rules_add macro) (from_str "0|") 0 (Some 50%Z)
            = {[ 0%Z := {[ from_str "0|" ]} ]}) as E1 by (by vm_compute).
    assert (bounded_reach (rules ++ rules_add macro) (from_str "|0") 0 (Some 50%Z)
            = {[ 0%Z := {[ from_str "|0" ]} ]}) as E2 by (by vm_compute).
    rewrite E1 in H1. rewrite E2 in H2.
    apply lookup_singleton_Some in H1 as [_ <-].
    apply lookup_singleton_Some in H2 as [_ <-].
    apply elem_of_singleton in Hx1, Hx2. rewrite Hx1 in Hx2.
    vm_compute in Hx2. discriminate Hx2.
Defined.

(** ** BoundedBisimulation.check *)

Section bisimulation.

Lemma symmetric_difference_elem (a b : gset String) (x : String) :
  x ∈ BoundedBisimulation.symmetric_difference a b ↔
  (x ∈ a ∧ x ∉ b) ∨ (x ∈ b ∧ x ∉ a).
Proof. unfold BoundedBisimulation.symmetric_difference. set_solver. Qed.

Lemma bisimulation_loop_false (original_rules new_rules : list Rule)
  (max_depth : Z) (ts : list String) :
  BoundedBisimulation.check_loop original_rules new_rules max_depth ts = false ↔
  ∃ t, t ∈ ts
       ∧ BoundedBisimulation.diverges original_rules new_rules max_depth t = true.
Proof.
  induction ts as [|t ts IH]; simpl.
  - split; [done|]. intros (t & Ht & _). by apply elem_of_nil in Ht.
  - destruct (BoundedBisimulation.diverges original_rules new_rules max_depth t) eqn:E.
    + split; [|done]. intros _. exists t. split; [by left|done].
    + rewrite IH. split.
      * intros (t' & Ht' & E'). exists t'. split; [by right|done].
      * intros (t' & [->|Ht']%elem_of_cons & E'); [congruence|by exists t'].
Qed.

(** The generated test strings: over the base alphabet, no longer than
    [max_length] nor than 5, and at most nine of them. *)
Lemma test_strings_shape (max_length : Z) :
  length (BoundedBisimulation._generate_test_strings max_length) ≤ 9
  ∧ ∀ t, t ∈ BoundedBisimulation._generate_test_strings max_length →
      over_base t ∧ (Z.of_nat (len t) <= max_length)%Z ∧ len t ≤ 5.
Proof.
  unfold BoundedBisimulation._generate_test_strings.
  set (n := Z.to_nat (Z.min (max_length + 1) 6) - 1).
  assert (n ≤ 5) as Hn5 by lia.
  assert ((Z.of_nat n <= max_length)%Z ∨ n = 0) as Hn by lia.
  clearbody n.
  destruct n as [|[|[|[|[|[|n]]]]]]; [| | | | | |lia];
    (split; [simpl; lia|]); intros t Ht; cbv in Ht;
    repeat (apply elem_of_cons in Ht as [->|Ht]);
    try (by apply elem_of_nil in Ht);
    (split; [solve_over_base|]); unfold len; simpl; lia.
Qed.

End bisimulation.

(** C6.  [BoundedBisimulation.check] returns [False] exactly when, for one
    of the first 10 generated test strings, the symmetric difference of the
    level-[max_depth] sets of the old and the new system (width 30) has more
    than half as many elements as the old set; otherwise it returns [True].
    The test strings are over the base alphabet and no longer than
    [max_length]; there are at most nine, so all of them are tested. *)
Theorem bisimulation_check_exact (original_rules : list Rule) (new_macro : Macro)
  (max_length max_depth : Z) :
  let new_rules := original_rules ++ rules_add new_macro in
  let generated := BoundedBisimulation._generate_test_strings max_length in
  let exceeds t :=
    size (final_level original_rules t max_depth)
    < 2 * size (BoundedBisimulation.symmetric_difference
                  (final_level original_rules t max_depth)
                  (final_level new_rules t max_depth)) in
  (BoundedBisimulation.check original_rules new_macro max_length max_depth = false ↔
     ∃ t, t ∈ take 10 generated ∧ exceeds t)
  ∧ (BoundedBisimulation.check original_rules new_macro max_length max_depth = true ↔
       ∀ t, t ∈ take 10 generated → ¬ exceeds t)
  ∧ take 10 generated = generated
  ∧ (∀ t, t ∈ generated → over_base t ∧ (Z.of_nat (len t) <= max_length)%Z)
  ∧ (∀ a b x, x ∈ BoundedBisimulation.symmetric_difference a b ↔
              (x ∈ a ∧ x ∉ b) ∨ (x ∈ b ∧ x ∉ a)).
Proof.
  intros new_rules generated exceeds.
  assert (BoundedBisimulation.check original_rules new_macro max_length max_depth = false ↔
     ∃ t, t ∈ take 10 generated ∧ exceeds t) as Hfalse.
  { unfold BoundedBisimulation.check. fold new_rules. fold generated.
    rewrite bisimulation_loop_false. unfold BoundedBisimulation.diverges.
    split; intros (t & Ht & Hd); exists t; (split; [done|]).
    - by apply bool_decide_eq_true in Hd.
    - by apply bool_decide_eq_true. }
  destruct (test_strings_shape max_length) as [Hlen Hshape].
  split; [exact Hfalse|]. split; [|split; [|split]].
  - destruct (BoundedBisimulation.check original_rules new_macro max_length max_depth).
    + split; [|done]. intros _ t Ht Hex.
      assert (true = false) as Habs; [|discriminate Habs].
      apply Hfalse. by exists t.
    + split; [done|]. intros Hall.
      destruct (proj1 Hfalse eq_refl) as (t & Ht & Hex). destruct (Hall t Ht Hex).
  - apply take_ge. fold generated in Hlen. lia.
  - intros t Ht. destruct (Hshape t Ht) as (? & ? & _). done.
  - apply symmetric_difference_elem.
Qed.

Lemma bisimulation_check_exact_witness :
  let rules := [mkRule (from_str "00") (from_str "0|");
                mkRule (from_str "0|") (from_str "00")] in
  let macro := mkMacro (mkSymbol "A") (from_str "00")
                 [mkRule (mkString [mkSymbol "A"]) (from_str "00");
                  mkRule (from_str "00") (mkString [mkSymbol "A"])] false in
  BoundedBisimulation.check rules macro 6 1 = false.
Proof.
  intros rules macro.
  apply (proj1 (bisimulation_check_exact rules macro 6 1)).
  exists (from_str "00"). split.
  - apply elem_of_take. exists 1. split; [reflexivity|lia].
  - by vm_compute.
Defined.

(** ** TarjanSCC *)

Section tarjan.

Context (g : Graph).

Lemma strongly_sorted_nodup {A} (R : relation A) (l : list A) :
  (∀ a, ¬ R a a) → StronglySorted R l → NoDup l.
Proof.
  intros Hirr. induction 1 as [|a l Hs IH Hall]; constructor; [|done].
  intros Hin. rewrite Forall_forall in Hall. by apply (Hirr a), Hall.
Qed.

Lemma strongly_sorted_mono {A} (R R' : relation A) (l : list A) :
  (∀ a b, R a b → R' a b) → StronglySorted R l → StronglySorted R' l.
Proof.
  intros Himp. induction 1 as [|a l Hs IH Hall]; constructor; [done|].
  eapply Forall_impl; [exact Hall|]. auto.
Qed.

Lemma stack_order_irrefl (st : tarjan_state) (a : String) : ¬ stack_order st a a.
Proof. intros (ia & ib & Ha & Hb & Hlt). rewrite Ha in Hb. injection Hb as <-. lia. Qed.

Lemma stack_nodup (st : tarjan_state) : tarjan_inv g st → NoDup (stack st).
Proof.
  intros Hinv. eapply strongly_sorted_nodup; [|apply (inv_sorted _ _ Hinv)].
  apply stack_order_irrefl.
Qed.

Lemma stack_indexed (st : tarjan_state) (w : String) :
  tarjan_inv g st → w ∈ stack st → is_Some (index st !! w).
Proof. intros Hinv Hw. apply (inv_cover _ _ Hinv). by left. Qed.

Lemma tarjan_init_inv : tarjan_inv g tarjan_init.
Proof.
  split; simpl.
  - intros v. by rewrite !lookup_empty.
  - intros v i. by rewrite lookup_empty.
  - intros v. split; [set_solver|]. by intros ?%elem_of_nil.
  - constructor.
  - by intros w ?%elem_of_nil.
  - intros v. rewrite lookup_empty. split; [by intros [? ?]|].
    intros [?%elem_of_nil|(c & ?%elem_of_nil & _)]; done.
  - by intros c ?%elem_of_nil.
  - by intros c v ?%elem_of_nil.
  - intros i j c1 c2 _ Hl. by rewrite lookup_nil in Hl.
  - intros v. rewrite lookup_empty. by intros [? ?].
Qed.

(** Numbering and pushing an unnumbered vertex. *)
Lemma enter_inv (st : tarjan_state) (v : String) :
  tarjan_inv g st → index st !! v = None → v ∈ vertices g →
  tarjan_inv g (enter v st).
Proof.
  intros Hinv Hv Hvert.
  assert (∀ w, w ∈ stack st → w ≠ v) as Hstack.
  { intros w Hw ->. destruct (stack_indexed st v Hinv Hw) as [? Hs]. congruence. }
  split; simpl.
  - intros w. rewrite !lookup_insert. destruct (decide (v = w)); [done|].
    apply (inv_dom _ _ Hinv).
  - intros w i. rewrite lookup_insert. destruct (decide (v = w)).
    + intros [= <-]. lia.
    + intros Hi. pose proof (inv_bound _ _ Hinv w i Hi). lia.
  - intros w. rewrite elem_of_union, elem_of_singleton, elem_of_cons.
    rewrite (inv_on _ _ Hinv). naive_solver.
  - constructor.
    + eapply strongly_sorted_mono; [|apply (inv_sorted _ _ Hinv)].
      intros a b (ia & ib & Ha & Hb & Hlt). exists ia, ib. simpl.
      rewrite !lookup_insert_ne by congruence. done.
    + apply Forall_forall. intros w Hw.
      destruct (stack_indexed st w Hinv Hw) as [iw Hiw].
      exists (index_counter st), iw. simpl.
      rewrite lookup_insert_eq, lookup_insert_ne by (apply not_eq_sym, Hstack, Hw).
      split; [done|]. split; [done|]. apply (inv_bound _ _ Hinv w iw Hiw).
  - intros w [->|Hw]%elem_of_cons.
    + exists v, (index_counter st), (index_counter st).
      rewrite !lookup_insert_eq. split; [by left|done].
    + destruct (inv_low _ _ Hinv w Hw) as (u & l & iw & Hu & Hl & Hiu & Hiw & Hle).
      exists u, l, iw. split; [by right|].
      rewrite !lookup_insert_ne by (apply not_eq_sym, Hstack; done). done.
  - intros w. rewrite lookup_insert, elem_of_cons.
    destruct (decide (v = w)) as [->|Hne].
    + split; [by left; left|done].
    + rewrite (inv_cover _ _ Hinv). naive_solver.
  - apply (inv_ne _ _ Hinv).
  - intros c w Hc Hw [->|Hin]%elem_of_cons.
    + assert (is_Some (index st !! v)) as [? Hs]; [|congruence].
      apply (inv_cover _ _ Hinv). right. by exists c.
    + by apply (inv_off _ _ Hinv c w).
  - apply (inv_disj _ _ Hinv).
  - intros w. rewrite lookup_insert. destruct (decide (v = w)) as [<-|]; [done|].
    apply (inv_vert _ _ Hinv).
Qed.

(** Lowering the low-link of a stacked vertex to the number of a stacked
    vertex that is not larger than its own. *)
Lemma set_lowlink_inv (st : tarjan_state) (v u : String) (x : nat) :
  tarjan_inv g st → v ∈ stack st → u ∈ stack st →
  index st !! u = Some x →
  (∀ iv, index st !! v = Some iv → x ≤ iv) →
  tarjan_inv g (set_lowlink v x st).
Proof.
  intros Hinv Hv Hu Hx Hle.
  destruct (stack_indexed st v Hinv Hv) as [iv Hiv].
  split; simpl; try apply Hinv.
  - intros w. rewrite lookup_insert. destruct (decide (v = w)) as [<-|].
    + split; [by eauto|by eauto].
    + apply (inv_dom _ _ Hinv).
  - intros w Hw. destruct (decide (v = w)) as [<-|Hne].
    + exists u, x, iv. rewrite lookup_insert_eq. eauto 10.
    + destruct (inv_low _ _ Hinv w Hw) as (u' & l & iw & ? & ? & ? & ? & ?).
      exists u', l, iw. rewrite lookup_insert_ne by done. done.
Qed.

(** Popping the stack down to [v]. *)
Lemma pop_component_spec (v : String) (T S : list String)
  (on acc : gset String) :
  NoDup (T ++ [v]) → (∀ w, w ∈ T ++ [v] → w ∈ on) →
  pop_component v (T ++ v :: S) on acc
  = Some (S, on ∖ list_to_set (T ++ [v]), acc ∪ list_to_set (T ++ [v])).
Proof.
  revert on acc. induction T as [|w T IH]; intros on acc Hnd Hon; simpl.
  - rewrite decide_True by (apply Hon; set_solver).
    rewrite decide_True by done. f_equal. apply pair_equal_spec.
      split; [apply pair_equal_spec; split; [done|]|]; set_solver.
  - rewrite decide_True by (apply Hon; set_solver).
    apply NoDup_cons in Hnd as [Hw Hnd].
    rewrite decide_False by set_solver.
    rewrite IH; [|done|].
    + f_equal. apply pair_equal_spec.
      split; [apply pair_equal_spec; split; [done|]|]; set_solver.
    + intros w' Hw'. apply elem_of_difference. split; [apply Hon; set_solver|].
      set_solver.
Qed.

(** The end of [_strongconnect]. *)
Lemma close_component_spec (st : tarjan_state) (v : String)
  (T S : list String) (iv : nat) :
  tarjan_inv g st → stack st = T ++ v :: S → index st !! v = Some iv →
  ∃ st', close_component v st = Some st'
    ∧ tarjan_inv g st' ∧ index st' = index st
    ∧ ((stack st' = S ∧ lowlink st' !! v = Some iv)
       ∨ (stack st' = T ++ v :: S
          ∧ ∃ l, lowlink st' !! v = Some l ∧ l ≠ iv)).
Proof.
  intros Hinv Hstack Hiv.
  assert (is_Some (lowlink st !! v)) as [lv Hlv].
  { apply (inv_dom _ _ Hinv). eauto. }
  unfold close_component. rewrite Hlv, Hiv. simpl.
  destruct (decide (lv = iv)) as [->|Hne].
  2:{ exists st. split; [done|]. split; [done|]. split; [done|]. right. eauto. }
  pose proof (stack_nodup st Hinv) as Hnd.
  pose proof (inv_sorted _ _ Hinv) as Hsorted.
  rewrite Hstack in Hnd, Hsorted.
  replace (T ++ v :: S) with ((T ++ [v]) ++ S) in Hnd, Hsorted
    by (by rewrite <- app_assoc).
  apply NoDup_app in Hnd as (HndT & HTS & HndS).
  apply StronglySorted_app in Hsorted as (HordTS & _ & HsortedS).
  rewrite Hstack, (pop_component_spec v T S (on_stack st) ∅); [|done|].
  2:{ intros w Hw. apply (inv_on _ _ Hinv). rewrite Hstack.
      rewrite elem_of_app, elem_of_cons.
      apply elem_of_app in Hw as [?|?%list_elem_of_singleton]; auto. }
  simpl. eexists. split; [done|]. split; [|split; [done|left; done]].
  assert (∀ w, w ∈ stack st ↔ w ∈ T ++ [v] ∨ w ∈ S) as Hsplit.
  { intros w. rewrite Hstack, !elem_of_app, elem_of_cons, list_elem_of_singleton.
    tauto. }
  split; simpl; try apply Hinv.
  - intros w. rewrite elem_of_difference, elem_of_list_to_set.
    rewrite (inv_on _ _ Hinv), Hsplit. split; [tauto|].
    intros Hw. split; [tauto|]. intros Hw'. by apply (HTS w).
  - done.
  - intros w Hw.
    destruct (inv_low _ _ Hinv w) as (u & l & iw & Hu & Hl & Hiu & Hiw & Hle).
    { apply Hsplit. by right. }
    exists u, l, iw. split; [|done].
    apply Hsplit in Hu as [Hu|Hu]; [|done].
    destruct (HordTS u w Hu Hw) as (iu' & iw' & Hiu' & Hiw' & Hlt).
    rewrite Hiu in Hiu'. rewrite Hiw in Hiw'.
    injection Hiu' as <-. injection Hiw' as <-. lia.
  - intros w. rewrite (inv_cover _ _ Hinv), Hsplit. split.
    + intros [[Hw|Hw]|(c & Hc & Hw)].
      * right. eexists. split; [apply elem_of_app; right; by left|].
        simpl. set_solver.
      * by left.
      * right. exists c. split; [|done]. apply elem_of_app. by left.
    + intros [Hw|(c & [Hc|Hc%list_elem_of_singleton]%elem_of_app & Hw)].
      * left. by right.
      * right. by exists c.
      * left. left. subst c. simpl in Hw. set_solver.
  - intros c [Hc| ->%list_elem_of_singleton]%elem_of_app.
    + by apply (inv_ne _ _ Hinv).
    + simpl. intros Hempty.
      assert (v ∈ (∅ : gset String)) as Hin; [|set_solver].
      rewrite <- Hempty. set_solver.
  - intros c w [Hc| ->%list_elem_of_singleton]%elem_of_app Hw Hin.
    + apply (inv_off _ _ Hinv c w Hc Hw). apply Hsplit. by right.
    + simpl in Hw. apply (HTS w); [set_solver|done].
  - intros i j c1 c2 Hij.
    intros [[_ H1]|[Hi <-]]%lookup_snoc_Some [[_ H2]|[Hj <-]]%lookup_snoc_Some.
    + by apply (inv_disj _ _ Hinv i j).
    + simpl. apply elem_of_disjoint. intros w Hw1 Hw2.
      apply (inv_off _ _ Hinv c1 w); [by eapply list_elem_of_lookup_2|done|].
      apply Hsplit. left. set_solver.
    + simpl. apply elem_of_disjoint. intros w Hw1 Hw2.
      apply (inv_off _ _ Hinv c2 w); [by eapply list_elem_of_lookup_2|done|].
      apply Hsplit. left. set_solver.
    + lia.
Qed.

Lemma enter_index_subseteq (st : tarjan_state) (v : String) :
  index st !! v = None → index st ⊆ index (enter v st).
Proof. intros Hv. simpl. by apply insert_subseteq. Qed.

Lemma unvisited_shrinks (m m' : gmap String nat) :
  m ⊆ m' → size (vertices g ∖ dom m') ≤ size (vertices g ∖ dom m).
Proof.
  intros Hsub. apply subseteq_size. apply subseteq_dom in Hsub. set_solver.
Qed.

Lemma unvisited_enter (st : tarjan_state) (v : String) :
  index st !! v = None → v ∈ vertices g →
  size (vertices g ∖ dom (index (enter v st)))
  < size (vertices g ∖ dom (index st)).
Proof.
  intros Hv Hvert. apply subset_size. simpl. rewrite dom_insert_L.
  apply not_elem_of_dom in Hv. split; [set_solver|].
  intros Hsub. assert (v ∈ vertices g ∖ dom (index st)) as Hin by set_solver.
  apply Hsub in Hin. set_solver.
Qed.

(** One neighbour of [v]. *)
Lemma visit_neighbor_spec (rec : String → tarjan_state → option tarjan_state)
  (n : nat) (st0 st : tarjan_state) (v w : String) :
  strongconnect_spec g rec n → w ∈ vertices g →
  neighbor_loop_inv g st0 v n st →
  ∃ st', visit_neighbor rec v st w = Some st' ∧ neighbor_loop_inv g st0 v n st'.
Proof.
  intros Hrec Hwvert Hloop.
  pose proof Hloop as (Hinv & Hsub & [T HT] & Hsize).
  assert (index st !! v = Some (index_counter st0)) as Hiv.
  { eapply lookup_weaken; [|exact Hsub]. simpl. apply lookup_insert_eq. }
  assert (v ∈ stack st) as Hvst.
  { rewrite HT. apply elem_of_app. right. by left. }
  assert (index_counter st0 < index_counter st) as Hcount
    by apply (inv_bound _ _ Hinv v _ Hiv).
  unfold visit_neighbor. destruct (index st !! w) as [iw|] eqn:Hw.
  - destruct (decide (w ∈ on_stack st)) as [Hon|]; [|by exists st].
    clear Hloop.
    destruct (inv_low _ _ Hinv v Hvst) as (u & lv & iv & Hu & Hlv & Hiu & Hiv' & Hle).
    rewrite Hiv in Hiv'. injection Hiv' as <-.
    rewrite Hlv. simpl. eexists. split; [done|].
    split; [|split; [done|split; [by exists T|done]]].
    destruct (Nat.min_spec lv iw) as [[_ ->]|[Hge ->]].
    + apply (set_lowlink_inv st v u); try done.
      intros iv. rewrite Hiv. intros [= <-]. done.
    + apply (set_lowlink_inv st v w); try done.
      * by apply (inv_on _ _ Hinv).
      * intros iv. rewrite Hiv. intros [= <-]. lia.
  - destruct (Hrec w st Hinv Hw Hwvert Hsize)
      as (st' & -> & Hinv' & Hsub' & Hiw' & Hcase). simpl.
    assert (index st' !! v = Some (index_counter st0)) as Hiv'
      by (eapply lookup_weaken; [exact Hiv|exact Hsub']).
    assert (∃ T', stack st' = T' ++ v :: stack st0) as [T' HT'].
    { destruct Hcase as [[-> _]|(T1 & l & -> & _)].
      - by exists T.
      - exists (T1 ++ w :: T). rewrite HT. by rewrite <- app_assoc. }
    assert (v ∈ stack st') as Hvst'.
    { rewrite HT'. apply elem_of_app. right. by left. }
    destruct (inv_low _ _ Hinv' v Hvst')
      as (u & lv & iv & Hu & Hlv & Hiu & Hiv'' & Hle).
    rewrite Hiv' in Hiv''. injection Hiv'' as <-.
    assert (is_Some (lowlink st' !! w)) as [lw Hlw].
    { apply (inv_dom _ _ Hinv'). eauto. }
    rewrite Hlv, Hlw. simpl. eexists. split; [done|].
    split; [|split; [by etrans|split; [by exists T'|]]].
    2:{ simpl. etrans; [by apply unvisited_shrinks|done]. }
    destruct (Nat.min_spec lv lw) as [[_ ->]|[Hge ->]].
    + apply (set_lowlink_inv st' v u); try done.
      intros iv. rewrite Hiv'. intros [= <-]. done.
    + destruct Hcase as [[_ Hpop]|(T1 & l & Hst & Hl & _)].
      * rewrite Hlw in Hpop. injection Hpop as ->. lia.
      * assert (w ∈ stack st') as Hwst.
        { rewrite Hst. apply elem_of_app. right. by left. }
        destruct (inv_low _ _ Hinv' w Hwst)
          as (uw & lw' & iw & Huw & Hlw' & Hiuw & _ & _).
        rewrite Hlw in Hlw'. injection Hlw' as <-.
        apply (set_lowlink_inv st' v uw); try done.
        intros iv. rewrite Hiv'. intros [= <-]. lia.
Qed.

(** The whole [for w in self.graph.get_neighbors(v)] loop. *)
Lemma neighbor_loop_spec (rec : String → tarjan_state → option tarjan_state)
  (n : nat) (st0 : tarjan_state) (v : String) (ws : list String)
  (st : tarjan_state) :
  strongconnect_spec g rec n → (∀ w, w ∈ ws → w ∈ vertices g) →
  neighbor_loop_inv g st0 v n st →
  ∃ st', for_each (visit_neighbor rec v) ws st = Some st'
         ∧ neighbor_loop_inv g st0 v n st'.
Proof.
  intros Hrec. revert st. induction ws as [|w ws IH]; intros st Hws Hloop; simpl.
  - by exists st.
  - destruct (visit_neighbor_spec rec n st0 st v w Hrec) as (st' & -> & Hloop');
      [apply Hws; by left|done|].
    apply IH; [|done]. intros w' Hw'. apply Hws. by right.
Qed.

Hypothesis Hclosed : graph_closed g.

(** [_strongconnect] meets its contract when the recursion bound is at
    least the number of unnumbered vertices. *)
Lemma strongconnect_meets_spec (fuel : nat) :
  strongconnect_spec g (strongconnect fuel g) fuel.
Proof.
  induction fuel as [|fuel IH]; intros v st Hinv Hv Hvert Hsize.
  - pose proof (unvisited_enter st v Hv Hvert). lia.
  - simpl.
    destruct (neighbor_loop_spec (strongconnect fuel g) fuel st v
                (get_neighbors g v) (enter v st) IH)
      as (st2 & -> & Hinv2 & Hsub2 & [T HT] & _).
    { intros w Hw. by apply (Hclosed v). }
    { split; [by apply enter_inv|]. split; [done|]. split; [by exists []|].
      pose proof (unvisited_enter st v Hv Hvert). lia. }
    simpl.
    assert (index st2 !! v = Some (index_counter st)) as Hiv.
    { eapply lookup_weaken; [|exact Hsub2]. simpl. apply lookup_insert_eq. }
    destruct (close_component_spec st2 v T (stack st) _ Hinv2 HT Hiv)
      as (st3 & -> & Hinv3 & Hidx & Hcase).
    exists st3. split; [done|]. split; [done|]. rewrite Hidx.
    split; [etrans; [by apply enter_index_subseteq|done]|]. split; [done|].
    destruct Hcase as [?|(? & l & ? & ?)]; [by left|right; by exists T, l].
Qed.

(** The [for vertex in self.graph.vertices] loop of [find_sccs]. *)
Lemma vertex_loop_spec (fuel : nat) (order : list String) (st : tarjan_state) :
  size (vertices g) ≤ fuel → (∀ v, v ∈ order → v ∈ vertices g) →
  tarjan_inv g st → stack st = [] →
  ∃ st', for_each (fun st vertex =>
                     match index st !! vertex with
                     | None => strongconnect fuel g vertex st
                     | Some _ => Some st
                     end) order st = Some st'
    ∧ tarjan_inv g st' ∧ stack st' = [] ∧ index st ⊆ index st'
    ∧ ∀ v, v ∈ order → is_Some (index st' !! v).
Proof.
  intros Hfuel. revert st.
  induction order as [|v order IH]; intros st Horder Hinv Hstack; simpl.
  - exists st. do 4 (split; [done|]). by intros w ?%elem_of_nil.
  - assert (∃ st1, match index st !! v with
                   | None => strongconnect fuel g v st
                   | Some _ => Some st
                   end = Some st1
              ∧ tarjan_inv g st1 ∧ stack st1 = [] ∧ index st ⊆ index st1
              ∧ is_Some (index st1 !! v)) as (st1 & -> & Hinv1 & Hst1 & Hsub1 & Hv1).
    { destruct (index st !! v) as [iv|] eqn:Hv; [by exists st; eauto|].
      destruct (strongconnect_meets_spec fuel v st Hinv Hv)
        as (st1 & -> & Hinv1 & Hsub1 & Hiv1 & Hcase).
      { apply Horder. by left. }
      { etrans; [|exact Hfuel]. apply subseteq_size. set_solver. }
      exists st1. split; [done|]. split; [done|].
      split; [|split; [done|by eauto]].
      destruct Hcase as [[-> _]|(T & l & HT & Hl & Hne)]; [done|].
      rewrite Hstack in HT.
      assert (v ∈ stack st1) as Hvst.
      { rewrite HT. apply elem_of_app. right. by left. }
      destruct (inv_low _ _ Hinv1 v Hvst)
        as (u & l' & iv & Hu & Hl' & Hiu & Hiv & Hle).
      rewrite Hl in Hl'. injection Hl' as <-.
      rewrite Hiv1 in Hiv. injection Hiv as <-.
      rewrite HT in Hu. apply elem_of_app in Hu as [Hu|Hu%list_elem_of_singleton].
      - pose proof (inv_sorted _ _ Hinv1) as Hsorted. rewrite HT in Hsorted.
        destruct (StronglySorted_app_1_elem_of _ _ _ u v Hsorted Hu)
          as (iu' & iv' & Hiu' & Hiv' & Hlt); [by left|].
        rewrite Hiu in Hiu'. rewrite Hiv1 in Hiv'.
        injection Hiu' as <-. injection Hiv' as <-. lia.
      - subst u. rewrite Hiv1 in Hiu. congruence. }
    destruct (IH st1) as (st' & -> & Hinv' & Hst' & Hsub' & Hall); try done.
    { intros w Hw. apply Horder. by right. }
    exists st'. split; [done|]. split; [done|]. split; [done|].
    split; [by etrans|].
    intros w [->|Hw]%elem_of_cons; [|by apply Hall].
    destruct Hv1 as [iv Hiv]. exists iv. by eapply lookup_weaken.
Qed.

Lemma identify_attractors_nodes (comps : list SCC) :
  partitions g comps → partitions g (identify_attractors g comps).
Proof.
  intros (Hne & Hdisj & Hcover). unfold identify_attractors. split; [|split].
  - intros c (c0 & -> & Hc0)%list_elem_of_fmap. simpl. by apply Hne.
  - intros i j c1 c2 Hij H1 H2.
    apply list_lookup_fmap_Some in H1 as (c1' & -> & H1).
    apply list_lookup_fmap_Some in H2 as (c2' & -> & H2).
    simpl. by apply (Hdisj i j).
  - intros v. rewrite Hcover. split.
    + intros (c & Hc & Hv).
      exists (mkSCC (nodes c) (attractor_test g (nodes c))). split; [|done].
      apply list_elem_of_fmap. by exists c.
    + intros (c & (c0 & -> & Hc0)%list_elem_of_fmap & Hv). by exists c0.
Qed.

(** [find_sccs] for any iteration order of the vertex set and any
    sufficient recursion bound. *)
Lemma find_sccs_from_partitions (fuel : nat) (order : list String) :
  size (vertices g) ≤ fuel → (∀ v, v ∈ order ↔ v ∈ vertices g) →
  ∃ comps, find_sccs_from fuel g order = Some comps ∧ partitions g comps.
Proof.
  intros Hfuel Horder. unfold find_sccs_from.
  destruct (vertex_loop_spec fuel order tarjan_init Hfuel)
    as (st & -> & Hinv & Hstack & _ & Hall); [by intros v ?%Horder| |done|].
  { apply tarjan_init_inv. }
  simpl. eexists. split; [done|]. apply identify_attractors_nodes.
  split; [apply (inv_ne _ _ Hinv)|]. split; [apply (inv_disj _ _ Hinv)|].
  intros v. split.
  - intros Hv%Horder%Hall. apply (inv_cover _ _ Hinv) in Hv as [Hv|Hv]; [|done].
    rewrite Hstack in Hv. by apply elem_of_nil in Hv.
  - intros Hc. apply (inv_vert _ _ Hinv), (inv_cover _ _ Hinv). by right.
Qed.

End tarjan.

(** The graph operations keep every edge inside the vertex set. *)
Section graph_closed.

Lemma empty_graph_closed : graph_closed empty_graph.
Proof.
  intros v w. unfold get_neighbors; simpl. rewrite lookup_empty; simpl.
  by intros ?%elem_of_nil.
Qed.

Lemma add_vertex_neighbors (g : Graph) (v a : String) :
  get_neighbors (add_vertex v g) a = get_neighbors g a.
Proof.
  unfold get_neighbors, add_vertex; simpl.
  destruct (edges g !! v) eqn:E; [done|].
  rewrite lookup_insert. destruct (decide (v = a)) as [<-|]; [|done].
  by rewrite E.
Qed.

Lemma add_vertex_closed (g : Graph) (v : String) :
  graph_closed g → graph_closed (add_vertex v g).
Proof.
  intros Hg a b. rewrite add_vertex_neighbors. intros Hb%Hg.
  unfold add_vertex; simpl. set_solver.
Qed.

Lemma add_edge_closed (g : Graph) (u v : String) :
  graph_closed g → graph_closed (add_edge u v g).
Proof.
  intros Hg. unfold add_edge.
  pose proof (add_vertex_closed _ v (add_vertex_closed _ u Hg)) as Hg'.
  set (g' := add_vertex v (add_vertex u g)) in *.
  assert (v ∈ vertices g') as Hv by (unfold g', add_vertex; simpl; set_solver).
  destruct (edges g' !! u) as [nbrs|] eqn:E; [|done].
  destruct (decide (v ∈ nbrs)); [done|].
  intros a b. unfold get_neighbors; simpl. rewrite lookup_insert.
  destruct (decide (u = a)) as [<-|Hne]; simpl.
  - intros [Hb| ->%list_elem_of_singleton]%elem_of_app; [|done].
    apply (Hg' u). unfold get_neighbors. by rewrite E.
  - apply (Hg' a).
Qed.

Lemma graph_built_closed (g : Graph) : graph_built g → graph_closed g.
Proof.
  induction 1; auto using empty_graph_closed, add_vertex_closed, add_edge_closed.
Qed.

End graph_closed.

(** C7.  On a graph whose edges end at vertices (every graph built with
    [add_vertex] and [add_edge] is one), [find_sccs] returns, for every iteration order of
    the vertex set and every sufficient recursion bound, components that are
    non-empty, pairwise disjoint, and whose union is the vertex set: every
    vertex lies in exactly one of them. *)
Theorem find_sccs_partitions (g : Graph) :
  graph_closed g →
  (∃ comps, find_sccs g = Some comps ∧ partitions g comps)
  ∧ (∀ fuel order, size (vertices g) ≤ fuel →
       (∀ v, v ∈ order ↔ v ∈ vertices g) →
       ∃ comps, find_sccs_from fuel g order = Some comps ∧ partitions g comps)
  ∧ (∀ comps v, partitions g comps → v ∈ vertices g →
       ∃ i c, comps !! i = Some c ∧ v ∈ nodes c
              ∧ ∀ j c', comps !! j = Some c' → v ∈ nodes c' → j = i).
Proof.
  intros Hclosed. split; [|split].
  - apply find_sccs_from_partitions; [done|lia|]. intros v. apply elem_of_elements.
  - intros fuel order. by apply find_sccs_from_partitions.
  - intros comps v (_ & Hdisj & Hcover) Hv.
    apply Hcover in Hv as (c & [i Hi]%list_elem_of_lookup_1 & Hvc).
    exists i, c. split; [done|]. split; [done|].
    intros j c' Hj Hvc'. destruct (decide (j = i)) as [|Hne]; [done|].
    pose proof (Hdisj j i c' c Hne Hj Hi). set_solver.
Qed.

Lemma find_sccs_partitions_witness :
  let g := add_edge (from_str "0") (from_str "00")
             (add_edge (from_str "00") (from_str "0|")
                (add_edge (from_str "0|") (from_str "00") empty_graph)) in
  graph_closed g ∧ ∃ comps, find_sccs g = Some comps ∧ partitions g comps.
Proof.
  intros g.
  assert (graph_closed g) as Hclosed
    by (apply graph_built_closed; repeat constructor).
  split; [exact Hclosed|]. exact (proj1 (find_sccs_partitions g Hclosed)).
Defined.

(** * Further properties *)

(** ** apply_rule and all_applications *)

Section applications.

Lemma find_positions_bound (s p : String) (i : nat) :
  i ∈ find_positions s p → i + len p ≤ len s.
Proof. intros Hi. by apply find_positions_elem in Hi as [? _]. Qed.

Lemma find_positions_slice (s p : String) (i : nat) :
  i ∈ find_positions s p → slice (symbols s) i (len p) = symbols p.
Proof.
  unfold find_positions. by intros [? _]%list_elem_of_filter.
Qed.

Lemma apply_rule_len (s : String) (rule : Rule) (pos : nat) :
  pos + len (left rule) ≤ len s →
  len (apply_rule s rule pos) + len (left rule) = len s + len (right rule).
Proof.
  unfold apply_rule, len; simpl. intros Hle.
  rewrite !length_app, length_take, length_drop. lia.
Qed.

Lemma all_applications_elem (rules : list Rule) (s t : String) (rule : Rule)
  (pos : nat) :
  (t, rule, pos) ∈ all_applications rules s ↔
  rule ∈ rules ∧ pos ∈ find_positions s (left rule) ∧ t = apply_rule s rule pos.
Proof.
  unfold all_applications.
  rewrite list_elem_of_In, in_flat_map. split.
  - intros (rule' & Hr & Hin). apply in_map_iff in Hin as (pos' & [= <- <- <-] & Hp).
    by rewrite !list_elem_of_In.
  - intros (Hr & Hp & ->). exists rule. rewrite <- list_elem_of_In. split; [done|].
    apply in_map_iff. exists pos. by rewrite <- list_elem_of_In.
Qed.

Lemma all_applications_fst (rules : list Rule) (s t : String) :
  t ∈ map (fun a => a.1.1) (all_applications rules s) ↔ rewrites rules s t.
Proof.
  rewrite list_elem_of_In, in_map_iff. split.
  - intros ([[t' rule] pos] & <- & Hin%list_elem_of_In).
    apply all_applications_elem in Hin. by exists rule, pos.
  - intros (rule & pos & Hr & Hp & ->). exists (apply_rule s rule pos, rule, pos).
    split; [done|]. apply list_elem_of_In. by apply all_applications_elem.
Qed.

Lemma apply_rule_match (s : String) (rule : Rule) (pos : nat) :
  pos + len (left rule) ≤ len s →
  pos ∈ find_positions (apply_rule s rule pos) (right rule).
Proof.
  intros Hle.
  assert (length (take pos (symbols s)) = pos) as Htake.
  { rewrite length_take. unfold len in Hle. lia. }
  apply find_positions_elem. split.
  - pose proof (apply_rule_len s rule pos Hle). lia.
  - intros j Hj. unfold apply_rule; simpl.
    rewrite lookup_app_r by lia. rewrite Htake.
    replace (pos + j - pos) with j by lia.
    by rewrite lookup_app_l.
Qed.

Lemma apply_rule_take (s : String) (rule : Rule) (pos : nat) :
  pos ≤ len s →
  take pos (symbols (apply_rule s rule pos)) = take pos (symbols s).
Proof.
  intros Hle.
  assert (length (take pos (symbols s)) = pos) as Htake.
  { rewrite length_take. unfold len in Hle. lia. }
  unfold apply_rule; simpl. rewrite take_app_le by lia.
  rewrite take_ge; [done|lia].
Qed.

Lemma apply_rule_drop (s : String) (rule : Rule) (pos : nat) :
  pos ≤ len s →
  drop (pos + len (right rule)) (symbols (apply_rule s rule pos))
  = drop (pos + len (left rule)) (symbols s).
Proof.
  intros Hle.
  assert (length (take pos (symbols s)) = pos) as Htake.
  { rewrite length_take. unfold len in Hle. lia. }
  unfold apply_rule; simpl. rewrite drop_app_ge by lia. rewrite Htake.
  replace (pos + len (right rule) - pos) with (len (right rule)) by lia.
  rewrite drop_app_ge by (unfold len; lia).
  replace (len (right rule) - length (symbols (right rule))) with 0
    by (unfold len; lia).
  done.
Qed.

End applications.

(** X1.  Applying a rule at a position where its left side fits changes the
    length by [len right - len left]; this holds at every position that
    [find_positions] returns, and then the right side sits at that position
    of the result. *)
Theorem apply_rule_splices (s : String) (rule : Rule) (pos : nat) :
  pos ∈ find_positions s (left rule) →
  len (apply_rule s rule pos) + len (left rule) = len s + len (right rule)
  ∧ pos ∈ find_positions (apply_rule s rule pos) (right rule)
  ∧ take pos (symbols (apply_rule s rule pos)) = take pos (symbols s)
  ∧ drop (pos + len (right rule)) (symbols (apply_rule s rule pos))
    = drop (pos + len (left rule)) (symbols s).
Proof.
  intros Hpos. pose proof (find_positions_bound _ _ _ Hpos) as Hle.
  split; [by apply apply_rule_len|].
  split; [by apply apply_rule_match|].
  split; [apply apply_rule_take|apply apply_rule_drop]; lia.
Qed.

Lemma apply_rule_splices_witness :
  let s := from_str "00|00" in
  let rule := mkRule (from_str "00") (from_str "0") in
  3 ∈ find_positions s (left rule) ∧ len (apply_rule s rule 3) + 2 = 5 + 1.
Proof.
  intros s rule.
  assert (3 ∈ find_positions s (left rule)) as Hpos by (vm_compute; set_solver).
  split; [exact Hpos|]. exact (proj1 (apply_rule_splices s rule 3 Hpos)).
Defined.

(** X2.  A rewriting step is undone by the swapped rule at the same
    position: after applying [left -> right] at a match position, the rule
    [right -> left] matches there and gives the original string back. *)
Theorem apply_rule_inverse (s : String) (rule : Rule) (pos : nat) :
  pos ∈ find_positions s (left rule) →
  let inverse := mkRule (right rule) (left rule) in
  pos ∈ find_positions (apply_rule s rule pos) (left inverse)
  ∧ apply_rule (apply_rule s rule pos) inverse pos = s.
Proof.
  intros Hpos inverse.
  pose proof (find_positions_bound _ _ _ Hpos) as Hle.
  pose proof (apply_rule_take s rule pos ltac:(lia)) as Htake.
  pose proof (apply_rule_drop s rule pos ltac:(lia)) as Hdrop.
  split; [by apply apply_rule_match|].
  pose proof (find_positions_slice _ _ _ Hpos) as Hslice.
  assert (symbols s = take pos (symbols s) ++ symbols (left rule)
                      ++ drop (pos + len (left rule)) (symbols s)) as Hsplit.
  { rewrite <- Hslice. unfold slice.
    rewrite <- (take_drop pos (symbols s)) at 1. f_equal.
    rewrite <- (take_drop (len (left rule)) (drop pos (symbols s))) at 1.
    by rewrite drop_drop. }
  unfold apply_rule at 1. cbv zeta.
  change (right inverse) with (left rule). change (left inverse) with (right rule).
  rewrite Htake, Hdrop. destruct s as [syms]. simpl in *. by rewrite <- Hsplit.
Qed.

Lemma apply_rule_inverse_witness :
  let s := from_str "00|00" in
  let rule := mkRule (from_str "00") (from_str "0|") in
  0 ∈ find_positions s (left rule)
  ∧ apply_rule (apply_rule s rule 0) (mkRule (right rule) (left rule)) 0 = s.
Proof.
  intros s rule.
  assert (0 ∈ find_positions s (left rule)) as Hpos by (vm_compute; set_solver).
  split; [exact Hpos|]. exact (proj2 (apply_rule_inverse s rule 0 Hpos)).
Defined.

(** X3.  [all_applications] lists exactly the triples (result, rule,
    position) of the rules of the engine at their match positions, one per
    match, rule order first; it is empty exactly on the normal forms. *)
Theorem all_applications_exact (rules : list Rule) (s : String) :
  (∀ t rule pos, (t, rule, pos) ∈ all_applications rules s ↔
     rule ∈ rules ∧ pos ∈ find_positions s (left rule)
     ∧ t = apply_rule s rule pos)
  ∧ length (all_applications rules s)
    = sum_list_with (fun rule => length (find_positions s (left rule))) rules
  ∧ (∀ rules', all_applications (rules ++ rules') s
               = all_applications rules s ++ all_applications rules' s)
  ∧ (all_applications rules s = [] ↔ ∀ t, ¬ rewrites rules s t).
Proof.
  split; [intros; apply all_applications_elem|]. split; [|split].
  - unfold all_applications. induction rules as [|rule rules IH]; simpl; [done|].
    by rewrite length_app, length_map, IH.
  - intros rules'. unfold all_applications. apply flat_map_app.
  - split.
    + intros Hnil t Ht. apply all_applications_fst in Ht.
      rewrite Hnil in Ht. by apply elem_of_nil in Ht.
    + intros Hnf. destruct (all_applications rules s) as [|[[t rule] pos] rest] eqn:E;
        [done|].
      destruct (Hnf t). apply all_applications_fst. rewrite E. simpl. by left.
Qed.

(** ** bounded_reach: what the levels contain *)

Section reach_levels.

Context (rules : list Rule) (start : String) (depth : Z) (width : option Z).

Lemma cut_width_subseteq {A} (w : option Z) (l : list A) (x : A) :
  x ∈ cut_width w l → x ∈ l.
Proof.
  unfold cut_width, slice_to. destruct w as [w|]; [|done].
  destruct (decide (w < Z.of_nat (length l))%Z); [|done].
  destruct (decide (0 <= w)%Z); intros [i [Hi _]]%elem_of_take;
    by eapply list_elem_of_lookup_2.
Qed.

Lemma expanded_successors_rewrites (s t : String) :
  t ∈ expanded_successors rules width s → rewrites rules s t.
Proof.
  unfold expanded_successors. intros (a & -> & Ha)%list_elem_of_fmap.
  apply cut_width_subseteq in Ha. apply all_applications_fst.
  apply list_elem_of_fmap. by exists a.
Qed.

Lemma expanded_successors_all (s t : String) :
  rewrites rules s t → t ∈ expanded_successors rules None s.
Proof. intros H. by apply all_applications_fst. Qed.

(** The effect of the inner [for] loop on the three variables. *)
Lemma reach_fold_facts (level : Z) (xs : list String) (st0 : reach_state) :
  let st' := foldl (reach_visit level) st0 xs in
  (∀ j M, levels st0 !! j = Some M → ∃ M', levels st' !! j = Some M' ∧ M ⊆ M')
  ∧ (∀ j M' x, levels st' !! j = Some M' → x ∈ M' →
       (∃ M, levels st0 !! j = Some M ∧ x ∈ M)
       ∨ (j = (level + 1)%Z ∧ x ∈ xs ∧ (x, (level + 1)%Z) ∈ queue st'))
  ∧ (∃ new, queue st' = queue st0 ++ new
            ∧ ∀ e, e ∈ new → e.2 = (level + 1)%Z ∧ e.1 ∈ xs
                ∧ ∃ M', levels st' !! (level + 1)%Z = Some M' ∧ e.1 ∈ M')
  ∧ visited st0 ⊆ visited st'
  ∧ (∀ x, x ∈ xs → x ∈ visited st')
  ∧ (∀ x, x ∈ visited st' →
       x ∈ visited st0 ∨ ∃ M', levels st' !! (level + 1)%Z = Some M' ∧ x ∈ M')
  ∧ (∀ j, is_Some (levels st' !! j) →
       is_Some (levels st0 !! j) ∨ j = (level + 1)%Z).
Proof.
  induction xs as [|x xs IH] using rev_ind; simpl.
  - split; [by eauto|]. split; [by eauto|].
    split; [exists []; split; [by rewrite app_nil_r|by intros e ?%elem_of_nil]|].
    split; [done|]. split; [by intros x ?%elem_of_nil|]. split; by eauto.
  - rewrite foldl_app; simpl.
    destruct IH as (Hmono & Horigin & (new & Hq & Hnew) & Hvis & Hxs & Hvl & Hkey).
    set (st1 := foldl (reach_visit level) st0 xs) in *.
    rewrite reach_visit_eq. destruct (decide (x ∈ visited st1)) as [Hin|Hnin].
    + split; [done|]. split; [|split; [|split; [done|split; [|split; done]]]].
      * intros j M' y Hl Hy. destruct (Horigin j M' y Hl Hy) as [?|(? & ? & ?)];
          [by left|right]. split; [done|]. split; [|done]. apply elem_of_app. by left.
      * exists new. split; [done|]. intros e He. destruct (Hnew e He) as (? & ? & ?).
        split; [done|]. split; [|done]. apply elem_of_app. by left.
      * intros y [Hy| ->%list_elem_of_singleton]%elem_of_app; [by apply Hxs|done].
    + simpl. split; [|split; [|split; [|split; [|split; [|split]]]]].
      * intros j M Hl. destruct (Hmono j M Hl) as (M1 & Hl1 & Hsub).
        rewrite lookup_insert. destruct (decide ((level + 1)%Z = j)) as [<-|].
        -- eexists. split; [done|]. rewrite Hl1. simpl. set_solver.
        -- by exists M1.
      * intros j M' y. rewrite lookup_insert.
        destruct (decide ((level + 1)%Z = j)) as [<-|Hne].
        -- intros [= <-] [Hy| ->%elem_of_singleton]%elem_of_union.
           ++ destruct (levels st1 !! (level + 1)%Z) as [M1|] eqn:E1; simpl in Hy;
                [|set_solver].
              destruct (Horigin _ _ y E1 Hy) as [?|(_ & ? & ?)]; [by left|right].
              split; [done|]. split; apply elem_of_app; by left.
           ++ right. split; [done|]. split; apply elem_of_app; right; by left.
        -- intros Hl Hy. destruct (Horigin j M' y Hl Hy) as [?|(? & ? & ?)];
             [by left|right]. split; [done|]. split; apply elem_of_app; by left.
      * exists (new ++ [(x, (level + 1)%Z)]). split; [by rewrite Hq, app_assoc|].
        rewrite lookup_insert_eq.
        intros e [He| ->%list_elem_of_singleton]%elem_of_app.
        -- destruct (Hnew e He) as (? & ? & M1 & Hl1 & ?). split; [done|].
           split; [apply elem_of_app; by left|].
           eexists. split; [done|]. rewrite Hl1. simpl. set_solver.
        -- split; [done|]. split; [apply elem_of_app; right; by left|].
           eexists. split; [done|]. simpl. set_solver.
      * set_solver.
      * intros y [Hy| ->%list_elem_of_singleton]%elem_of_app.
        -- apply Hxs in Hy. set_solver.
        -- set_solver.
      * intros y [Hy| ->%elem_of_singleton]%elem_of_union.
        -- destruct (Hvl y Hy) as [?|(M1 & Hl1 & Hy1)]; [by left|right].
           rewrite lookup_insert_eq, Hl1. eexists. split; [done|]. simpl. set_solver.
        -- right. rewrite lookup_insert_eq. eexists. split; [done|]. set_solver.
      * intros j. rewrite lookup_insert.
        destruct (decide ((level + 1)%Z = j)) as [<-|]; [by right|]. apply Hkey.
Qed.

Lemma sorted_constant_level (c : Z) (q : list (String * Z)) :
  (∀ e, e ∈ q → e.2 = c) → StronglySorted (fun a b => (a.2 <= b.2)%Z) q.
Proof.
  induction q as [|e q IH]; intros Hall; constructor.
  - apply IH. intros e' He'. apply Hall. by right.
  - apply Forall_forall. intros e' He'.
    rewrite (Hall e) by (by left). rewrite (Hall e') by (by right). lia.
Qed.

(** One iteration of the [while] loop keeps both invariants. *)
Lemma reach_iteration (st : reach_state) (current : String) (level : Z)
  (rest : list (String * Z)) :
  queue st = (current, level) :: rest →
  reach_sound rules start depth st ∧ reach_complete rules depth width st →
  let st' := reach_body rules depth width current level
               (mkReach (levels st) (visited st) rest) in
  reach_sound rules start depth st' ∧ reach_complete rules depth width st'.
Proof.
  intros Hqueue [(H0 & Hlev & Hq) (Hsorted & Hkeys & Hvis & Hexp)] st'.
  rewrite Hqueue in Hsorted, Hkeys, Hq, Hexp.
  destruct (Hq current level) as (Mc & HMc & Hcur); [by left|].
  destruct (Hlev _ _ _ HMc Hcur) as (Hlvl0 & _ & Hreach).
  apply StronglySorted_cons in Hsorted as [Hhead Hsorted].
  rewrite Forall_forall in Hhead.
  assert (∀ k, is_Some (levels st !! k) → (k <= level + 1)%Z) as Hkeys0.
  { intros k Hk. apply (Hkeys k current level Hk). by left. }
  unfold st', reach_body. destruct (decide (depth <= level)%Z) as [Hdeep|Hshallow].
  - split; [split; [done|split; [done|]]|split; [done|split; [|split; [done|]]]];
      simpl.
    + intros s l Hin. apply Hq. by right.
    + intros k s l Hk Hin. apply (Hkeys k s l Hk). by right.
    + intros s l M Hl Hs Hld.
      destruct (Hexp s l M Hl Hs Hld) as [[[= -> ->]|Hin]%elem_of_cons|Hdone];
        [lia|by left|by right].
  - fold (expanded_successors rules width current).
    set (st0 := mkReach (levels st) (visited st) rest).
    destruct (reach_fold_facts level (expanded_successors rules width current) st0)
      as (Hmono & Horigin & (new & Hqnew & Hnew) & Hvmono & Hxs & Hvl & Hkey).
    set (stf := foldl (reach_visit level) st0
                  (expanded_successors rules width current)) in *.
    simpl in Hmono, Horigin, Hqnew, Hvmono, Hvl, Hkey.
    assert (∀ k, is_Some (levels stf !! k) → (k <= level + 1)%Z) as Hkeysf.
    { intros k [Hk| ->]%Hkey; [by apply Hkeys0|lia]. }
    assert (∀ s l, (s, l) ∈ queue stf → (level <= l)%Z) as Hqlow.
    { intros s l. rewrite Hqnew.
      intros [Hin|Hin]%elem_of_app; [apply (Hhead _ Hin)|].
      destruct (Hnew _ Hin) as (Hl & _). simpl in Hl. lia. }
    split; [split; [|split]|split; [|split; [|split]]].
    + destruct (Hmono _ _ H0) as (M' & HM' & Hsub). rewrite HM'. f_equal.
      apply set_eq. intros x. split; [|by intros ?; apply Hsub].
      intros Hx. destruct (Horigin _ _ x HM' Hx) as [(M & HM & HxM)|(? & _)]; [|lia].
      rewrite H0 in HM. by injection HM as <-.
    + intros i M x Hl Hx.
      destruct (Horigin _ _ x Hl Hx) as [(M0 & HM0 & HxM)|(-> & Hsucc & _)].
      * by apply (Hlev i M0).
      * split; [lia|]. split; [lia|].
        replace (Z.to_nat (level + 1)) with (S (Z.to_nat level)) by lia.
        econstructor; [exact Hreach|]. by apply expanded_successors_rewrites.
    + intros s l. rewrite Hqnew. intros [Hin|Hin]%elem_of_app.
      * destruct (Hq s l) as (M & HM & Hs); [by right|].
        destruct (Hmono _ _ HM) as (M' & HM' & Hsub). exists M'. split; [done|].
        by apply Hsub.
      * destruct (Hnew _ Hin) as (Hl & _ & M' & HM' & Hs). simpl in *. subst l.
        by exists M'.
    + rewrite Hqnew. apply StronglySorted_app. split; [|split; [done|]].
      * intros a b Ha Hb. destruct (Hnew _ Hb) as (-> & _).
        destruct a as [s l]. simpl.
        destruct (Hq s l) as (M & HM & _); [by right|].
        apply Hkeys0. by eauto.
      * apply (sorted_constant_level (level + 1)%Z). intros e He.
        by destruct (Hnew _ He).
    + intros k s l Hk Hin. pose proof (Hkeysf k Hk). pose proof (Hqlow s l Hin). lia.
    + intros x [Hx|Hx]%Hvl; [|by eauto].
      destruct (Hvis x Hx) as (j & M & HM & HxM).
      destruct (Hmono _ _ HM) as (M' & HM' & Hsub). exists j, M'. split; [done|].
      by apply Hsub.
    + intros s l M' Hl Hs Hld.
      destruct (Horigin _ _ s Hl Hs) as [(M & HM & HsM)|(-> & _ & Hin)]; [|by left].
      destruct (Hexp s l M HM HsM Hld) as [[[= -> ->]|Hin]%elem_of_cons|Hdone].
      * right. intros t Ht. apply Hxs in Ht.
        assert (∃ j M1, levels stf !! j = Some M1 ∧ t ∈ M1) as (j & M1 & HM1 & Ht1).
        { apply Hvl in Ht as [Ht|Ht]; [|by eauto].
          destruct (Hvis t Ht) as (j & M0 & HM0 & Ht0).
          destruct (Hmono _ _ HM0) as (M1 & HM1 & Hsub). exists j, M1.
          split; [done|]. by apply Hsub. }
        exists j, M1. split; [apply Hkeysf; by eauto|done].
      * left. rewrite Hqnew. apply elem_of_app. by left.
      * right. intros t Ht. destruct (Hdone t Ht) as (j & M0 & Hj & HM0 & Ht0).
        destruct (Hmono _ _ HM0) as (M1 & HM1 & Hsub). exists j, M1.
        split; [done|]. split; [done|]. by apply Hsub.
Qed.

Lemma reach_loop_invariants (fuel : nat) (st : reach_state) :
  reach_sound rules start depth st ∧ reach_complete rules depth width st →
  let st' := reach_loop fuel rules depth width st in
  reach_sound rules start depth st' ∧ reach_complete rules depth width st'.
Proof.
  revert st. induction fuel as [|fuel IH]; intros st Hinv; simpl; [done|].
  destruct (queue st) as [|[current level] rest] eqn:Hq; [done|].
  apply IH. by apply reach_iteration.
Qed.

Lemma reach_init_invariants :
  reach_sound rules start depth (reach_init start)
  ∧ reach_complete rules depth width (reach_init start).
Proof.
  split; [split; [|split]|split; [|split; [|split]]]; simpl.
  - apply lookup_singleton_eq.
  - intros i M x [<- <-]%lookup_singleton_Some ->%elem_of_singleton.
    split; [done|]. split; [lia|]. constructor.
  - intros s l [= -> ->]%list_elem_of_singleton. exists {[ start ]}.
    split; [apply lookup_singleton_eq|set_solver].
  - repeat constructor.
  - intros k s l [M [<- _]%lookup_singleton_Some] [= -> ->]%list_elem_of_singleton.
    lia.
  - intros x Hx. exists 0%Z, {[ start ]}. split; [apply lookup_singleton_eq|done].
  - intros s l M [<- <-]%lookup_singleton_Some ->%elem_of_singleton _. left.
    by left.
Qed.

End reach_levels.

Lemma bounded_reach_invariants (rules : list Rule) (start : String) (depth : Z)
  (width : option Z) :
  reach_sound rules start depth (bounded_reach_state rules start depth width)
  ∧ reach_complete rules depth width (bounded_reach_state rules start depth width).
Proof. apply reach_loop_invariants, reach_init_invariants. Qed.

(** X4.  In the result of [bounded_reach], level 0 is [{start}], the levels
    are numbered from 0 to [depth] at most, and every string of level [i]
    is obtained from the start by exactly [i] rewriting steps; with a depth
    of zero or less the result is [{0: {start}}]. *)
Theorem bounded_reach_sound (rules : list Rule) (start : String) (depth : Z)
  (width : option Z) :
  bounded_reach rules start depth width !! 0%Z = Some {[ start ]}
  ∧ (∀ i M x, bounded_reach rules start depth width !! i = Some M → x ∈ M →
       (0 <= i)%Z ∧ (i <= Z.max depth 0)%Z
       ∧ rewrites_in rules (Z.to_nat i) start x)
  ∧ ((depth <= 0)%Z →
     bounded_reach rules start depth width = {[ 0%Z := {[ start ]} ]}).
Proof.
  destruct (bounded_reach_invariants rules start depth width)
    as [(H0 & Hlev & _) _].
  destruct (bounded_reach_inv rules start depth width) as [Hne _].
  split; [done|]. split; [done|]. intros Hdepth. apply map_eq. intros i.
  destruct (decide (i = 0%Z)) as [->|Hi].
  - by rewrite lookup_singleton_eq.
  - rewrite lookup_singleton_ne by done.
    destruct (bounded_reach rules start depth width !! i) as [M|] eqn:E; [|done].
    change (levels (bounded_reach_state rules start depth width) !! i = Some M) in E.
    destruct (Hne _ _ E) as [Hnonempty _].
    apply set_choose_L in Hnonempty as [x Hx].
    destruct (Hlev _ _ _ E Hx) as (? & ? & _). lia.
Qed.

Lemma bounded_reach_sound_witness :
  let rules := [mkRule (from_str "00") (from_str "0|");
                mkRule (from_str "0|") (from_str "00")] in
  rewrites_in rules 1 (from_str "00") (from_str "0|").
Proof.
  intros rules.
  apply (proj1 (proj2 (bounded_reach_sound rules (from_str "00") 2%Z (Some 10%Z)))
           1%Z {[ from_str "0|" ]} (from_str "0|")); [by vm_compute|set_solver].
Defined.

(** X5.  [bounded_reach] is a breadth-first search.  A successor that the
    search looks at (one of the first [width] applications) of a string of
    level [i < depth] is in a level no later than [i + 1].  Without a width
    bound, every string that [n <= depth] rewriting steps produce is in a
    level no later than [n], so the level of a string is the length of its
    shortest derivation. *)
Theorem bounded_reach_complete (rules : list Rule) (start : String) (depth : Z) :
  (∀ width i M s t,
     bounded_reach rules start depth width !! i = Some M → s ∈ M →
     (i < depth)%Z → t ∈ expanded_successors rules width s →
     ∃ j M', (j <= i + 1)%Z
             ∧ bounded_reach rules start depth width !! j = Some M' ∧ t ∈ M')
  ∧ (∀ n x, rewrites_in rules n start x → (Z.of_nat n <= depth)%Z →
       ∃ j M, (j <= Z.of_nat n)%Z
              ∧ bounded_reach rules start depth None !! j = Some M ∧ x ∈ M)
  ∧ (∀ j M x n, bounded_reach rules start depth None !! j = Some M → x ∈ M →
       rewrites_in rules n start x → (j <= Z.of_nat n)%Z).
Proof.
  assert (∀ width i M s t,
     bounded_reach rules start depth width !! i = Some M → s ∈ M →
     (i < depth)%Z → t ∈ expanded_successors rules width s →
     ∃ j M', (j <= i + 1)%Z
             ∧ bounded_reach rules start depth width !! j = Some M' ∧ t ∈ M')
    as Hstep.
  { intros width i M s t Hl Hs Hi Ht.
    destruct (bounded_reach_invariants rules start depth width)
      as [_ (_ & _ & _ & Hexp)].
    destruct (Hexp s i M Hl Hs Hi) as [Hin|Hdone]; [|by apply Hdone].
    rewrite bounded_reach_terminates in Hin. by apply elem_of_nil in Hin. }
  assert (∀ n x, rewrites_in rules n start x → (Z.of_nat n <= depth)%Z →
       ∃ j M, (j <= Z.of_nat n)%Z
              ∧ bounded_reach rules start depth None !! j = Some M ∧ x ∈ M)
    as Hall.
  { intros n x Hreach. induction Hreach as [s|n s t u Hst IH Htu]; intros Hn.
    - exists 0%Z, {[ s ]}. split; [lia|]. split; [|set_solver].
      by destruct (bounded_reach_invariants rules s depth None) as [(H0 & _) _].
    - destruct (IH Hstep) as (j & M & Hj & HM & Ht); [lia|].
      destruct (Hstep None j M t u HM Ht) as (j' & M' & Hj' & HM' & Hu); [lia| |].
      { by apply expanded_successors_all. }
      exists j', M'. split; [lia|done]. }
  split; [exact Hstep|]. split; [exact Hall|].
  intros j M x n HM Hx Hreach.
  destruct (bounded_reach_invariants rules start depth None) as [(_ & Hlev & _) _].
  destruct (Hlev j M x HM Hx) as (Hj0 & Hjmax & _).
  destruct (decide (Z.of_nat n <= depth)%Z) as [Hn|Hn]; [|lia].
  destruct (Hall n x Hreach Hn) as (j' & M' & Hj' & HM' & Hx').
  destruct (decide (j = j')) as [->|Hne]; [done|].
  destruct (bounded_reach_inv rules start depth None) as [_ Hdis].
  pose proof (Hdis j j' M M' Hne HM HM'). set_solver.
Qed.

Lemma bounded_reach_complete_witness :
  let rules := [mkRule (from_str "00") (from_str "0|");
                mkRule (from_str "0|") (from_str "00")] in
  ∃ j M, (j <= 1)%Z
         ∧ bounded_reach rules (from_str "00") 2 None !! j = Some M
         ∧ from_str "0|" ∈ M.
Proof.
  intros rules.
  apply (proj1 (proj2 (bounded_reach_complete rules (from_str "00") 2%Z))
           1 (from_str "0|")); [|lia].
  econstructor; [constructor|].
  exists (mkRule (from_str "00") (from_str "0|")), 0.
  split; [by left|]. split; [vm_compute; set_solver|reflexivity].
Defined.

(** ** reachable *)

Section reachable.

Context (rules : list Rule) (start target : String) (depth : Z)
  (width : option Z).

Lemma is_chain_snoc (path : list String) (cur x : String) :
  is_chain rules path → last path = Some cur → rewrites rules cur x →
  is_chain rules (path ++ [x]).
Proof.
  induction path as [|s [|t rest] IH]; simpl.
  - done.
  - intros _ [= ->] Hstep. done.
  - intros [Hst Hchain] Hlast Hstep. split; [done|]. by apply IH.
Qed.

Lemma sum_list_with_map {A B} (f : B → nat) (g : A → B) (l : list A) :
  sum_list_with f (map g l) = sum_list_with (fun a => f (g a)) l.
Proof. induction l as [|a l IH]; simpl; [done|]. by rewrite IH. Qed.

Lemma head_snoc {A} (path : list A) (s x : A) :
  head path = Some s → head (path ++ [x]) = Some s.
Proof. by destruct path. Qed.

(** The path handed to the queue or returned for a successor. *)
Lemma extend_path (cur : String) (path : list String) (level : Z) (x : String) :
  head path = Some start → last path = Some cur → is_chain rules path →
  (0 <= level)%Z → Z.of_nat (length path) = (level + 1)%Z →
  rewrites rules cur x →
  head (path ++ [x]) = Some start ∧ last (path ++ [x]) = Some x
  ∧ is_chain rules (path ++ [x])
  ∧ (0 <= level + 1)%Z
  ∧ Z.of_nat (length (path ++ [x])) = (level + 1 + 1)%Z.
Proof.
  intros Hhead Hlast Hchain Hlevel Hlen Hstep.
  split; [by apply head_snoc|]. split; [apply last_snoc|].
  split; [by eapply is_chain_snoc|]. split; [lia|].
  rewrite length_app; simpl. lia.
Qed.

(** The inner [for] loop of [reachable]. *)
Lemma reachable_scan_spec (cur : String) (path : list String) (level : Z)
  (news : list String) (st : search_state) :
  head path = Some start → last path = Some cur → is_chain rules path →
  (0 <= level)%Z → Z.of_nat (length path) = (level + 1)%Z →
  (∀ x, x ∈ news → rewrites rules cur x) →
  search_inv rules start st →
  match reachable_scan target path level news st with
  | inl found =>
      head found = Some start ∧ last found = Some target
      ∧ is_chain rules found
      ∧ Z.of_nat (length found) = (level + 2)%Z
  | inr st' =>
      search_inv rules start st'
      ∧ search_measure rules depth width (s_queue st')
        ≤ search_measure rules depth width (s_queue st)
          + sum_list_with
              (fun x => tree_size rules width (Z.to_nat (depth - (level + 1))) x)
              news
  end.
Proof.
  intros Hhead Hlast Hchain Hlevel Hlen.
  revert st. induction news as [|x news IH]; intros st Hnews Hinv; simpl.
  - split; [done|lia].
  - assert (rewrites rules cur x) as Hx by (apply Hnews; by left).
    assert (∀ y, y ∈ news → rewrites rules cur y) as Hnews'
      by (intros y Hy; apply Hnews; by right).
    destruct (extend_path cur path level x) as (Hh & Hl & Hc & Hlv & Hn); try done.
    destruct (decide (x = target)) as [->|Hne].
    { split; [done|]. split; [done|]. split; [done|]. lia. }
    destruct (decide (x ∈ s_visited st)) as [Hin|Hnin].
    + specialize (IH st Hnews' Hinv).
      destruct (reachable_scan target path level news st); [done|].
      destruct IH as [? ?]. split; [done|]. lia.
    + set (st1 := mkSearch (s_visited st ∪ {[x]})
                    (s_queue st ++ [(x, path ++ [x], (level + 1)%Z)])).
      assert (search_inv rules start st1) as Hinv1.
      { intros c p l [Hin| [= -> -> ->]%list_elem_of_singleton]%elem_of_app.
        - by apply Hinv.
        - done. }
      specialize (IH st1 Hnews' Hinv1).
      destruct (reachable_scan target path level news st1); [done|].
      destruct IH as [? Hm]. split; [done|].
      unfold st1, search_measure in Hm; simpl in Hm.
      rewrite sum_list_with_app in Hm; simpl in Hm.
      unfold search_measure. lia.
Qed.

(** A returned path is a derivation from the start to the target with at
    most [depth] steps. *)
Lemma reachable_loop_sound (fuel calls : nat) (st : search_state)
  (res : reach_result) (path : list String) :
  search_inv rules start st →
  reachable_loop fuel rules target depth width calls st = Some res →
  returned res = Some path →
  head path = Some start ∧ last path = Some target ∧ is_chain rules path
  ∧ (Z.of_nat (length path) <= depth + 1)%Z.
Proof.
  revert calls st. induction fuel as [|fuel IH]; intros calls st Hinv; simpl; [done|].
  destruct (s_queue st) as [|[[cur p] level] rest] eqn:Hq.
  { by intros [= <-]. }
  assert (search_inv rules start (mkSearch (s_visited st) rest)) as Hinv'.
  { intros c p' l Hin. apply Hinv. rewrite Hq. by right. }
  destruct (Hinv cur p level) as (Hh & Hl & Hc & Hlv & Hn); [rewrite Hq; by left|].
  destruct (decide (depth <= level)%Z) as [|Hshallow]; [by apply IH|].
  pose proof (reachable_scan_spec cur p level
                (map (fun a => a.1.1) (cut_width width (all_applications rules cur)))
                (mkSearch (s_visited st) rest) Hh Hl Hc Hlv Hn) as Hscan.
  destruct (reachable_scan target p level _ _) as [found|st''].
  - intros [= <-] [= <-].
    destruct Hscan as (? & ? & ? & ?); [|done|].
    { intros x Hx. by apply (expanded_successors_rewrites rules width). }
    split; [done|]. split; [done|]. split; [done|]. lia.
  - destruct Hscan as [Hinv'' _]; [|done|].
    { intros x Hx. by apply (expanded_successors_rewrites rules width). }
    by apply IH.
Qed.

(** With enough iterations the loop returns. *)
Lemma reachable_loop_returns (fuel calls : nat) (st : search_state) :
  search_inv rules start st →
  search_measure rules depth width (s_queue st) < fuel →
  ∃ res, reachable_loop fuel rules target depth width calls st = Some res.
Proof.
  revert calls st. induction fuel as [|fuel IH]; intros calls st Hinv Hm; [lia|].
  simpl. destruct (s_queue st) as [|[[cur p] level] rest] eqn:Hq; [by eauto|].
  assert (search_inv rules start (mkSearch (s_visited st) rest)) as Hinv'.
  { intros c p' l Hin. apply Hinv. rewrite Hq. by right. }
  destruct (Hinv cur p level) as (Hh & Hl & Hc & Hlv & Hn); [rewrite Hq; by left|].
  unfold search_measure in Hm; simpl in Hm.
  fold (search_measure rules depth width rest) in Hm.
  destruct (decide (depth <= level)%Z) as [|Hshallow].
  - apply IH; [done|]. simpl.
    pose proof (tree_size_pos rules width (Z.to_nat (depth - level)) cur). lia.
  - pose proof (reachable_scan_spec cur p level
                  (map (fun a => a.1.1) (cut_width width (all_applications rules cur)))
                  (mkSearch (s_visited st) rest) Hh Hl Hc Hlv Hn) as Hscan.
    destruct (reachable_scan target p level _ _) as [found|st'']; [by eauto|].
    destruct Hscan as [Hinv'' Hm'']; [|done|].
    { intros x Hx. by apply (expanded_successors_rewrites rules width). }
    apply IH; [done|]. simpl in Hm''.
    replace (Z.to_nat (depth - level))
      with (S (Z.to_nat (depth - (level + 1)))) in Hm by lia.
    simpl in Hm. rewrite sum_list_with_map in Hm''. lia.
Qed.

(** More iterations than needed change nothing. *)
Lemma reachable_loop_stable (fuel extra calls : nat) (st : search_state)
  (res : reach_result) :
  reachable_loop fuel rules target depth width calls st = Some res →
  reachable_loop (fuel + extra) rules target depth width calls st = Some res.
Proof.
  revert calls st. induction fuel as [|fuel IH]; intros calls st; simpl; [done|].
  destruct (s_queue st) as [|[[cur p] level] rest]; [done|].
  destruct (decide (depth <= level)%Z); [by apply IH|].
  destruct (reachable_scan target p level _ _); [done|]. by apply IH.
Qed.

Lemma search_init_inv :
  search_inv rules start (mkSearch {[ start ]} [(start, [start], 0%Z)]).
Proof. intros c p l [= -> -> ->]%list_elem_of_singleton. simpl. done. Qed.

End reachable.

(** X6.  A path returned by [reachable] starts at [start], ends at
    [target], rewrites each string to the next, and has at most [depth]
    steps.  The search returns within the bound given by the exploration
    tree, and further iterations do not change what it returns.  With a
    depth of zero or less and a target other than the start it returns
    [None] without looking at any application. *)
Theorem reachable_sound (rules : list Rule) (start target : String) (depth : Z)
  (width : option Z) :
  (∀ fuel res path,
     reachable fuel rules start target depth width = Some res →
     returned res = Some path →
     head path = Some start ∧ last path = Some target ∧ is_chain rules path
     ∧ (Z.of_nat (length path) <= Z.max depth 0 + 1)%Z)
  ∧ (∀ fuel, tree_size rules width (Z.to_nat depth) start < fuel →
       ∃ res, reachable fuel rules start target depth width = Some res)
  ∧ (∀ fuel extra res,
       reachable fuel rules start target depth width = Some res →
       reachable (fuel + extra) rules start target depth width = Some res)
  ∧ (start ≠ target → (depth <= 0)%Z → ∀ fuel, 2 ≤ fuel →
       reachable fuel rules start target depth width = Some (mkResult None 0)).
Proof.
  unfold reachable. split; [|split; [|split]].
  - intros fuel res path. destruct (decide (start = target)) as [<-|Hne].
    + intros [= <-] [= <-]. simpl. repeat split; lia.
    + intros Hrun Hret.
      destruct (reachable_loop_sound rules start target depth width _ _ _ _ _
                  (search_init_inv rules start) Hrun Hret) as (? & ? & ? & ?).
      repeat split; try done. lia.
  - intros fuel Hfuel. destruct (decide (start = target)); [by eauto|].
    apply (reachable_loop_returns rules start); [apply search_init_inv|].
    unfold search_measure; simpl. replace (depth - 0)%Z with depth by lia. lia.
  - intros fuel extra res. destruct (decide (start = target)); [done|].
    apply reachable_loop_stable.
  - intros Hne Hdepth fuel Hfuel. rewrite decide_False by done.
    destruct fuel as [|[|fuel]]; [lia|lia|]. simpl.
    by rewrite decide_True by lia.
Qed.

Lemma reachable_sound_witness :
  let rules := [mkRule (from_str "0|0") (from_str "00")] in
  let res := mkResult (Some [from_str "0|0"; from_str "00"]) 1 in
  reachable 5 rules (from_str "0|0") (from_str "00") 5 None = Some res
  ∧ is_chain rules [from_str "0|0"; from_str "00"].
Proof.
  intros rules res.
  assert (reachable 5 rules (from_str "0|0") (from_str "00") 5 None = Some res)
    as Hrun by (by vm_compute).
  split; [exact Hrun|].
  exact (proj1 (proj2 (proj2 (proj1 (reachable_sound rules (from_str "0|0")
                                       (from_str "00") 5%Z None)
                                _ _ _ Hrun eq_refl)))).
Defined.

(** ** omega_limit *)

Section omega_limit.

Context (rules : list Rule) (start : String).

Lemma list_index_spec (x : String) (l : list String) :
  x ∈ l → ∃ i, list_index x l = Some i ∧ l !! i = Some x.
Proof.
  induction l as [|y l IH]; [by intros ?%elem_of_nil|]. simpl.
  destruct (decide (y = x)) as [->|Hne]; [by exists 0|].
  intros [?|Hin]%elem_of_cons; [congruence|].
  destruct (IH Hin) as (i & -> & Hi). by exists (S i).
Qed.

Lemma last_window_elem {A} (l : list A) (window : nat) (x : A) :
  x ∈ last_window l window → x ∈ l.
Proof.
  unfold last_window. destruct (decide (window = 0)); [done|].
  intros (i & Hi)%list_elem_of_lookup_1. rewrite lookup_drop in Hi.
  by eapply list_elem_of_lookup_2.
Qed.

Lemma omega_loop_0 (visited : list String) (current : String) :
  omega_loop 0 rules visited current
  = Some (list_to_set (last_window visited (100 `min` length visited))).
Proof. reflexivity. Qed.

Lemma omega_loop_S (steps : nat) (visited : list String) (current : String) :
  omega_loop (S steps) rules visited current
  = match all_applications rules current with
    | [] => Some {[ current ]}
    | (next, _, _) :: _ =>
        if decide (next ∈ visited ++ [current]) then
          cycle_start ← list_index next (visited ++ [current]);
          Some (list_to_set (drop cycle_start (visited ++ [current])))
        else omega_loop steps rules (visited ++ [current]) next
    end.
Proof. reflexivity. Qed.

Lemma last_window_nonempty {A} (l : list A) :
  l ≠ [] → last_window l (100 `min` length l) ≠ [].
Proof.
  intros Hne Hnil. apply (f_equal length) in Hnil. unfold last_window in Hnil.
  destruct (decide (100 `min` length l = 0)).
  - destruct l; [done|]. simpl in *. lia.
  - rewrite length_drop in Hnil. simpl in Hnil.
    destruct l; [done|]. simpl in *. lia.
Qed.

Lemma omega_loop_spec (steps : nat) (visited : list String) (current : String) :
  (∀ x, x ∈ visited → rtc (first_step rules) start x) →
  rtc (first_step rules) start current →
  ∃ R, omega_loop steps rules visited current = Some R
       ∧ (∀ x, x ∈ R → rtc (first_step rules) start x)
       ∧ (0 < steps ∨ visited ≠ [] → R ≠ ∅).
Proof.
  revert visited current. induction steps as [|steps IH];
    intros visited current Hvis Hcur.
  - rewrite omega_loop_0. eexists. split; [done|]. split.
    + intros x Hx%elem_of_list_to_set. apply last_window_elem in Hx. by apply Hvis.
    + intros [?|Hne]; [lia|]. apply last_window_nonempty in Hne.
      destruct (last_window visited _) as [|y ?]; [done|]. set_solver.
  - rewrite omega_loop_S.
    assert (∀ x, x ∈ visited ++ [current] → rtc (first_step rules) start x)
      as Hvis'.
    { intros x [?| ->%list_elem_of_singleton]%elem_of_app; auto. }
    destruct (all_applications rules current) as [|[[next rule] pos] rest] eqn:E.
    + eexists. split; [done|]. split; [|set_solver].
      by intros x ->%elem_of_singleton.
    + destruct (decide (next ∈ visited ++ [current])) as [Hin|Hnin].
      * destruct (list_index_spec next _ Hin) as (i & -> & Hi). simpl.
        eexists. split; [done|]. split.
        -- intros x Hx%elem_of_list_to_set. apply Hvis'.
           apply list_elem_of_lookup_1 in Hx as [j Hj]. rewrite lookup_drop in Hj.
           by eapply list_elem_of_lookup_2.
        -- intros _ Hempty.
           assert (next ∈ (list_to_set (drop i (visited ++ [current]))
                           : gset String)) as Hn.
           { apply elem_of_list_to_set. apply list_elem_of_lookup.
             exists 0. rewrite lookup_drop. by rewrite Nat.add_0_r. }
           rewrite Hempty in Hn. set_solver.
      * destruct (IH (visited ++ [current]) next Hvis') as (R & -> & HR & Hne).
        { eapply rtc_r; [exact Hcur|]. by exists rule, pos, rest. }
        exists R. split; [done|]. split; [done|]. intros _. apply Hne. right.
        by destruct visited.
Qed.

End omega_limit.

(** X7.  [omega_limit] never raises.  Every string it returns lies on the
    trajectory that always takes the first application from [start].  With
    at least one step allowed the result is not empty, and it is [{start}]
    when no rule applies to [start]; with no step allowed it is empty. *)
Theorem omega_limit_trajectory (rules : list Rule) (start : String)
  (max_steps : Z) :
  ∃ R, omega_limit rules start max_steps = Some R
       ∧ (∀ x, x ∈ R → rtc (first_step rules) start x)
       ∧ ((0 < max_steps)%Z → R ≠ ∅)
       ∧ ((0 < max_steps)%Z → all_applications rules start = [] →
          R = {[ start ]})
       ∧ ((max_steps <= 0)%Z → R = ∅).
Proof.
  unfold omega_limit.
  destruct (omega_loop_spec rules start (Z.to_nat max_steps) [] start)
    as (R & HR & Htraj & Hne); [by intros x ?%elem_of_nil|done|].
  exists R. split; [done|]. split; [done|]. split; [|split].
  - intros Hpos. apply Hne. left. lia.
  - intros Hpos Hnf. destruct (Z.to_nat max_steps) as [|n] eqn:En; [lia|].
    rewrite omega_loop_S, Hnf in HR. by injection HR as <-.
  - intros Hzero. replace (Z.to_nat max_steps) with 0 in HR by lia.
    rewrite omega_loop_0 in HR. by injection HR as <-.
Qed.

Lemma omega_limit_trajectory_witness :
  let rules := [mkRule (from_str "00") (from_str "0")] in
  ∃ R, omega_limit rules (from_str "0") 10 = Some R ∧ R = {[ from_str "0" ]}.
Proof.
  intros rules.
  destruct (omega_limit_trajectory rules (from_str "0") 10)
    as (R & HR & _ & _ & Hnf & _).
  exists R. split; [exact HR|]. apply Hnf; [lia|reflexivity].
Defined.

(** ** OverlapDetector *)

Section overlaps.

Lemma overlap_scan_spec (s1 s2 : string) (n : nat) :
  match overlap_scan s1 s2 n with
  | Some o =>
      pattern1 o = s1 ∧ pattern2 o = s2
      ∧ 1 ≤ overlap_length o ≤ n
      ∧ str_suffix (overlap_length o) s1 = str_prefix (overlap_length o) s2
      ∧ overlap_string o = str_suffix (overlap_length o) s1
      ∧ ∀ l, overlap_length o < l ≤ n → str_suffix l s1 ≠ str_prefix l s2
  | None => ∀ l, 1 ≤ l ≤ n → str_suffix l s1 ≠ str_prefix l s2
  end.
Proof.
  induction n as [|n IH]; simpl.
  - intros l Hl. lia.
  - destruct (decide (str_suffix (S n) s1 = str_prefix (S n) s2)) as [Heq|Hne].
    + simpl. repeat split; try done; try lia.
    + destruct (overlap_scan s1 s2 n) as [o|].
      * destruct IH as (? & ? & ? & ? & ? & Hmax). repeat split; try done; try lia.
        intros l Hl. destruct (decide (l = S n)) as [->|]; [done|]. apply Hmax. lia.
      * intros l Hl. destruct (decide (l = S n)) as [->|]; [done|]. apply IH. lia.
Qed.

Lemma locality_loop_true (overlaps : list Overlap) (m : Z) :
  locality_loop overlaps m = true ↔
  ∀ o, o ∈ overlaps → (Z.of_nat (overlap_length o) <= m)%Z.
Proof.
  induction overlaps as [|o rest IH]; simpl.
  - split; [|done]. by intros _ o ?%elem_of_nil.
  - destruct (decide (m < Z.of_nat (overlap_length o))%Z) as [Hlt|Hge].
    + split; [done|]. intros Hall. specialize (Hall o). ospecialize (Hall _); [by left|].
      lia.
    + rewrite IH. split.
      * intros Hall o' [->|Hin]%elem_of_cons; [lia|by apply Hall].
      * intros Hall o' Hin. apply Hall. by right.
Qed.

Lemma max_overlap_length_le (overlaps : list Overlap) (m : nat) :
  max_overlap_length overlaps ≤ m ↔ ∀ o, o ∈ overlaps → overlap_length o ≤ m.
Proof.
  induction overlaps as [|o rest IH]; simpl.
  - split; [|lia]. by intros _ o ?%elem_of_nil.
  - split.
    + intros Hmax o' [->|Hin]%elem_of_cons; [lia|]. apply IH; [lia|done].
    + intros Hall. assert (overlap_length o ≤ m) by (apply Hall; by left).
      assert (max_overlap_length rest ≤ m); [|lia].
      apply IH. intros o' Hin. apply Hall. by right.
Qed.

Lemma get_max_overlap_eq (rules : list Rule) :
  get_max_overlap rules
  = max_overlap_length
      (find_all_overlaps (map (fun rule => to_str (left rule)) rules) 1).
Proof. unfold get_max_overlap. by destruct (find_all_overlaps _ _). Qed.

End overlaps.

(** X8.  [find_suffix_prefix_overlap] returns the longest overlap: the
    length it reports is between 1 and the shorter of the two lengths, the
    suffix of [s1] of that length is the prefix of [s2], and no longer
    length has this property; it returns [None] exactly when no length from
    1 on has it. *)
Theorem find_suffix_prefix_overlap_longest (s1 s2 : string) :
  let bound := String.length s1 `min` String.length s2 in
  match find_suffix_prefix_overlap s1 s2 with
  | Some o =>
      pattern1 o = s1 ∧ pattern2 o = s2
      ∧ 1 ≤ overlap_length o ≤ bound
      ∧ str_suffix (overlap_length o) s1 = str_prefix (overlap_length o) s2
      ∧ overlap_string o = str_suffix (overlap_length o) s1
      ∧ ∀ l, overlap_length o < l ≤ bound → str_suffix l s1 ≠ str_prefix l s2
  | None => ∀ l, 1 ≤ l ≤ bound → str_suffix l s1 ≠ str_prefix l s2
  end.
Proof. apply overlap_scan_spec. Qed.

Lemma find_suffix_prefix_overlap_longest_witness :
  ∃ o, find_suffix_prefix_overlap "0|0" "|00" = Some o ∧ overlap_length o = 2
       ∧ str_suffix 3 "0|0" ≠ str_prefix 3 "|00".
Proof.
  pose proof (find_suffix_prefix_overlap_longest "0|0" "|00") as H.
  destruct (find_suffix_prefix_overlap "0|0" "|00") as [o|] eqn:E; [|discriminate E].
  exists o. split; [done|].
  assert (overlap_length o = 2) as Hlen by (by injection E as <-).
  split; [done|]. destruct H as (_ & _ & _ & _ & _ & Hmax). apply Hmax.
  rewrite Hlen. simpl. lia.
Defined.

(** X9.  For a non-negative bound, [check_m_locality(rules, m)] holds
    exactly when [get_max_overlap(rules)] is at most [m]; in particular the
    rules are always local for their own maximal overlap. *)
Theorem check_m_locality_max_overlap (rules : list Rule) (m : Z) :
  (0 <= m)%Z →
  (check_m_locality rules m = true ↔ (Z.of_nat (get_max_overlap rules) <= m)%Z)
  ∧ check_m_locality rules (Z.of_nat (get_max_overlap rules)) = true.
Proof.
  intros Hm. rewrite get_max_overlap_eq. unfold check_m_locality.
  set (overlaps := find_all_overlaps _ 1). split.
  - rewrite locality_loop_true. split.
    + intros Hall. assert (max_overlap_length overlaps ≤ Z.to_nat m); [|lia].
      apply max_overlap_length_le. intros o Ho. specialize (Hall o Ho). lia.
    + intros Hmax o Ho.
      assert (overlap_length o ≤ max_overlap_length overlaps); [|lia].
      by apply (max_overlap_length_le overlaps).
  - apply locality_loop_true. intros o Ho.
    assert (overlap_length o ≤ max_overlap_length overlaps); [|lia].
    by apply (max_overlap_length_le overlaps).
Qed.

Lemma check_m_locality_max_overlap_witness :
  let rules := [mkRule (from_str "00") (from_str "0|");
                mkRule (from_str "0|") (from_str "00")] in
  (0 <= 1)%Z ∧ get_max_overlap rules = 1 ∧ check_m_locality rules 1 = true.
Proof.
  intros rules. split; [lia|]. split; [reflexivity|].
  apply (proj1 (check_m_locality_max_overlap rules 1 ltac:(lia))).
  vm_compute. discriminate.
Defined.

(** ** MacroDictionary *)

Section dictionary.

Lemma substitute_fst_forall (P : Symbol → Prop) (macro : Macro)
  (syms : list Symbol) :
  Forall P (symbols (definition macro)) →
  Forall (fun sym => sym ≠ symbol macro → P sym) syms →
  Forall P (substitute macro syms).1.
Proof.
  intros Hdef. induction 1 as [|sym rest Hsym _ IH]; simpl; [done|].
  destruct (substitute macro rest) as [new_symbols changed]. simpl in *.
  destruct (decide (sym = symbol macro)); simpl.
  - by apply Forall_app.
  - constructor; auto.
Qed.

(** One pass over macros whose definitions avoid the symbols of [avoid]
    removes the symbols of the macros it went through. *)
Lemma expand_pass_removes (avoid : list Macro) (ms done : list Macro)
  (current : String) (changed : bool) :
  (∀ m, m ∈ ms → m ∈ avoid) →
  (∀ m, m ∈ done → m ∈ avoid) →
  (∀ m m', m ∈ avoid → m' ∈ avoid →
     Forall (fun sym => sym ≠ symbol m') (symbols (definition m))) →
  (∀ m, m ∈ done → Forall (fun sym => sym ≠ symbol m) (symbols current)) →
  ∀ m, m ∈ done ++ ms →
    Forall (fun sym => sym ≠ symbol m)
           (symbols (expand_pass ms current changed).1).
Proof.
  revert done current changed.
  induction ms as [|macro rest IH]; intros done current changed Hms Hdone Hdefs Hcur.
  - simpl. intros m Hm. rewrite app_nil_r in Hm. by apply Hcur.
  - simpl. destruct (substitute macro (symbols current)) as [new_symbols hit] eqn:E.
    intros m Hm.
    apply (IH (done ++ [macro])).
    + intros m' Hm'. apply Hms. by right.
    + intros m' [?| ->%list_elem_of_singleton]%elem_of_app; [by apply Hdone|].
      apply Hms. by left.
    + done.
    + intros m' Hm'. simpl.
      replace new_symbols with (substitute macro (symbols current)).1
        by (by rewrite E).
      assert (macro ∈ avoid) as Hmacro by (apply Hms; by left).
      apply elem_of_app in Hm' as [Hm'| ->%list_elem_of_singleton].
      * apply substitute_fst_forall; [apply Hdefs; auto|].
        eapply Forall_impl; [apply (Hcur m' Hm')|]. auto.
      * apply substitute_fst_forall; [by apply Hdefs|].
        apply Forall_forall. auto.
    + by rewrite <- app_assoc.
Qed.

Lemma macro_free_swap (d : MacroDictionary) (s : String) :
  macro_free d s ↔
  ∀ m, m ∈ macros d → Forall (fun sym => sym ≠ symbol m) (symbols s).
Proof.
  unfold macro_free. rewrite Forall_forall. split.
  - intros H m Hm. apply Forall_forall. intros sym Hsym.
    specialize (H sym Hsym). rewrite Forall_forall in H. by apply H.
  - intros H sym Hsym. apply Forall_forall. intros m Hm.
    specialize (H m Hm). rewrite Forall_forall in H. by apply H.
Qed.

End dictionary.

(** X10.  [get_macro] after [add_macro]: a macro that was already found for
    a symbol is still the one found, so a macro added under a symbol that
    is taken is never returned; otherwise the added macro is found under
    its own symbol and nothing is found under another one.  What is found
    is a macro of the dictionary with the symbol asked for. *)
Theorem get_macro_add_macro (d : MacroDictionary) (macro : Macro) (sym : Symbol) :
  get_macro (add_macro macro d) sym
  = match get_macro d sym with
    | Some old => Some old
    | None => if decide (symbol macro = sym) then Some macro else None
    end
  ∧ ∀ found, get_macro d sym = Some found →
      found ∈ macros d ∧ symbol found = sym.
Proof.
  unfold get_macro, add_macro; simpl. split.
  - rewrite filter_app. destruct (filter _ (macros d)) as [|old rest]; [|done].
    simpl. rewrite filter_cons. by destruct (decide (symbol macro = sym)).
  - intros found Hfound.
    assert (found ∈ filter (fun m => symbol m = sym) (macros d)) as Hin.
    { destruct (filter _ (macros d)) as [|x rest]; [done|].
      injection Hfound as ->. by left. }
    apply list_elem_of_filter in Hin as [? ?]. done.
Qed.

(** X11.  When no definition of the dictionary mentions a macro symbol,
    [expand] returns a string without macro symbols: it is the result of
    one pass over the macros, and expanding it again changes nothing. *)
Theorem expand_eliminates_macros (d : MacroDictionary) (s : String) :
  (∀ m, m ∈ macros d → macro_free d (definition m)) →
  macro_free d (expand d s)
  ∧ expand d s = (expand_pass (macros d) s false).1
  ∧ expand d (expand d s) = expand d s.
Proof.
  intros Hdefs.
  assert (macro_free d (expand_pass (macros d) s false).1) as Hfree.
  { apply macro_free_swap. intros m Hm.
    apply (expand_pass_removes (macros d) (macros d) [] s false); try done.
    - by intros m' ?%elem_of_nil.
    - intros m1 m2 H1 H2. by apply (macro_free_swap d (definition m1)); auto.
    - by intros m' ?%elem_of_nil. }
  assert (expand d s = (expand_pass (macros d) s false).1) as Heq.
  { unfold expand, max_iterations. simpl.
    destruct (expand_pass (macros d) s false) as [current changed] eqn:E.
    simpl in *. destruct changed; [|done].
    by rewrite expand_pass_absent. }
  rewrite Heq. split; [done|]. split; [done|].
  unfold expand, max_iterations. simpl. by rewrite expand_pass_absent.
Qed.

Lemma expand_eliminates_macros_witness :
  let macro := mkMacro (mkSymbol "A") (from_str "00") [] true in
  let d := add_macro macro empty_dictionary in
  let s := mkString [mkSymbol "A"; mkSymbol "|"; mkSymbol "A"] in
  macro_free d (expand d s) ∧ expand d s = from_str "00|00".
Proof.
  intros macro d s. split; [|reflexivity].
  apply (expand_eliminates_macros d s).
  intros m ->%list_elem_of_singleton. unfold macro_free; simpl.
  repeat constructor; discriminate.
Defined.

(** ** Strings and blocks: the two String classes *)

Section strings.

Lemma concat_singletons (chars : list ascii) :
  String.concat "" (map (fun c => String.String c EmptyString) chars)
  = String.string_of_list_ascii chars.
Proof.
  induction chars as [|c rest IH]; [done|].
  destruct rest as [|c' rest]; [done|].
  change (String.concat "" (map _ (c :: c' :: rest)))
    with (String.String c
            (String.concat "" (map (fun c => String.String c EmptyString) (c' :: rest)))).
  by rewrite IH.
Qed.

Lemma single_char_value (sym : Symbol) :
  String.length (value sym) = 1 →
  ∃ c, sym = mkSymbol (String.String c EmptyString).
Proof.
  destruct sym as [[|c [|c' v]]]; simpl; try done. intros _. by exists c.
Qed.

Lemma list_ascii_app (a b : string) :
  String.list_ascii_of_string (a +:+ b)
  = String.list_ascii_of_string a ++ String.list_ascii_of_string b.
Proof. induction a as [|c a IH]; simpl; [done|]. by rewrite IH. Qed.

Lemma list_ascii_repeat (n : nat) :
  String.list_ascii_of_string (str_repeat "0" n) = replicate n "0"%char.
Proof.
  induction n as [|n IH]; [done|].
  change (str_repeat "0" (S n)) with (String.String "0"%char (str_repeat "0" n)).
  simpl. by rewrite IH.
Qed.

Lemma block_chars_one (b : nat) : block_chars [b] = replicate b "0"%char.
Proof. apply list_ascii_repeat. Qed.

Lemma block_chars_more (b b' : nat) (bs : list nat) :
  block_chars (b :: b' :: bs)
  = replicate b "0"%char ++ "|"%char :: block_chars (b' :: bs).
Proof.
  unfold block_chars.
  change (str_join "|" (map _ (b :: b' :: bs)))
    with (str_repeat "0" b +:+ "|" +:+
          str_join "|" (map (fun b => str_repeat "0" b) (b' :: bs))).
  by rewrite !list_ascii_app, list_ascii_repeat.
Qed.

Lemma blocks_loop_zeros (n : nat) (rest : list ascii) (acc : list nat) (cur : nat) :
  CoreTypes.blocks_loop (replicate n "0"%char ++ rest) acc cur
  = CoreTypes.blocks_loop rest acc (cur + n).
Proof.
  revert cur. induction n as [|n IH]; intros cur; simpl.
  - by rewrite Nat.add_0_r.
  - rewrite IH. f_equal. lia.
Qed.

Lemma blocks_loop_block_chars (bs : list nat) (b : nat) (acc : list nat) (cur : nat) :
  CoreTypes.blocks_loop (block_chars (b :: bs)) acc cur
  = (acc ++ removelast (cur + b :: bs), List.last (cur + b :: bs) 0).
Proof.
  revert b acc cur. induction bs as [|b' bs IH]; intros b acc cur.
  - rewrite block_chars_one. rewrite <- (app_nil_r (replicate b _)).
    rewrite blocks_loop_zeros. simpl. by rewrite app_nil_r.
  - rewrite block_chars_more, blocks_loop_zeros.
    change (CoreTypes.blocks_loop ("|"%char :: block_chars (b' :: bs)) acc (cur + b))
      with (CoreTypes.blocks_loop (block_chars (b' :: bs)) (acc ++ [cur + b]) 0).
    rewrite IH. simpl. by rewrite <- app_assoc.
Qed.

Lemma block_chars_last (bs : list nat) (b : nat) :
  List.last (b :: bs) 0 = 0 →
  block_chars (b :: bs) = [] ∨ last (block_chars (b :: bs)) = Some "|"%char.
Proof.
  revert b. induction bs as [|b' bs IH]; intros b Hlast.
  - simpl in Hlast. subst b. by left.
  - right. rewrite block_chars_more.
    destruct (IH b' Hlast) as [->|Hl].
    + by rewrite last_app.
    + rewrite last_app, last_cons, Hl. done.
Qed.

Lemma get_blocks_loop_some (syms : list Symbol) (blocks : list nat) (count : nat)
  (bs : list nat) :
  get_blocks_loop syms blocks count = Some bs →
  over_base (mkString syms)
  ∧ (Forall (fun b => 0 < b) blocks → Forall (fun b => 0 < b) bs).
Proof.
  unfold over_base; simpl. revert blocks count.
  induction syms as [|sym rest IH]; intros blocks count; simpl.
  - intros [= <-]. split; [done|]. intros Hpos.
    destruct (decide (0 < count)); [|done]. apply Forall_app. split; [done|].
    by constructor.
  - destruct (decide (value sym = "0")) as [E0|N0].
    + intros [Hb Hpos]%IH. split; [|done]. constructor; auto.
    + destruct (decide (value sym = "|")) as [E1|N1]; [|done].
      destruct (decide (0 < count)).
      * intros [Hb Hpos]%IH. split; [constructor; auto|].
        intros Hblocks. apply Hpos, Forall_app. split; [done|]. by constructor.
      * intros [Hb Hpos]%IH. split; [constructor; auto|done].
Qed.

Lemma loops_agree (chars : list ascii) (acc : list nat) (cur : nat) :
  chars_over_base chars →
  get_blocks_loop (map (fun c => mkSymbol (String.String c EmptyString)) chars)
    (filter (fun b => 0 < b) acc) cur
  = Some (filter (fun b => 0 < b)
            ((CoreTypes.blocks_loop chars acc cur).1
             ++ [(CoreTypes.blocks_loop chars acc cur).2])).
Proof.
  revert acc cur. induction chars as [|c rest IH]; intros acc cur Hb; simpl.
  - rewrite filter_app, filter_cons, filter_nil.
    destruct (decide (0 < cur)); [done|]. by rewrite app_nil_r.
  - inversion Hb as [|? ? Hc Hrest]; subst.
    destruct (decide (c = "0"%char)) as [->|N0].
    + rewrite decide_True by done. by apply IH.
    + destruct Hc as [?| ->]; [done|].
      rewrite decide_False by done. rewrite decide_True by done.
      rewrite (decide_True (P := "|"%char = "|"%char)) by done.
      rewrite <- IH by done. rewrite filter_app, filter_cons, filter_nil.
      destruct (decide (0 < cur)); [done|].
      rewrite app_nil_r. f_equal. lia.
Qed.

End strings.

(** X12.  [str(String.from_str(s))] is [s] and [from_str] makes one symbol
    per character; the other way round, [from_str(str(t))] is [t] as soon as
    every symbol of [t] is one character long. *)
Theorem from_str_to_str (s : string) :
  to_str (from_str s) = s
  ∧ len (from_str s) = String.length s
  ∧ ∀ t, Forall (fun sym => String.length (value sym) = 1) (symbols t) →
         from_str (to_str t) = t.
Proof.
  split; [|split].
  - unfold to_str, from_str; simpl. rewrite map_map; simpl.
    rewrite concat_singletons. apply String.string_of_list_ascii_of_string.
  - unfold len, from_str; simpl. rewrite length_map.
    induction s as [|c s IH]; simpl; [done|]. by rewrite IH.
  - intros [syms] Hone; simpl in *. unfold to_str, from_str; simpl. f_equal.
    assert (∃ chars, syms = map (fun c => mkSymbol (String.String c EmptyString)) chars)
      as [chars ->].
    { induction Hone as [|sym rest Hsym _ [chars ->]]; [by exists []|].
      apply single_char_value in Hsym as [c ->]. by exists (c :: chars). }
    rewrite map_map; simpl. rewrite concat_singletons.
    by rewrite String.list_ascii_of_string_of_list_ascii.
Qed.

Lemma from_str_to_str_witness :
  let t := mkString [mkSymbol "0"; mkSymbol "|"; mkSymbol "0"] in
  to_str t = "0|0" ∧ from_str (to_str t) = t.
Proof.
  intros t. split; [reflexivity|].
  apply (proj2 (proj2 (from_str_to_str ""))).
  repeat constructor.
Defined.

(** X13.  Reading the blocks of [String.from_blocks(blocks)] back with
    [get_blocks] gives [blocks] when its last block is not empty, and
    [blocks] without its last entry when that entry is 0: the round trip
    holds exactly for the empty list and the lists that end in a non-empty
    block. *)
Theorem from_blocks_get_blocks (blocks : list nat) :
  let read := (CoreTypes.get_blocks (from_blocks blocks "|")).1 in
  read = (if decide (0 < List.last blocks 0) then blocks else removelast blocks)
  ∧ (read = blocks ↔ blocks = [] ∨ 0 < List.last blocks 0).
Proof.
  simpl.
  assert (CoreTypes.compute_blocks
            (str_join "|" (map (fun b => str_repeat "0" b) blocks))
          = if decide (0 < List.last blocks 0) then blocks else removelast blocks)
    as Hread.
  { destruct blocks as [|b bs]; [done|].
    unfold CoreTypes.compute_blocks. fold (block_chars (b :: bs)).
    rewrite blocks_loop_block_chars. change (0 + b) with b.
    rewrite app_nil_l. lazy beta iota.
    destruct (decide (0 < List.last (b :: bs) 0)) as [Hpos|Hzero].
    - rewrite decide_True by (by left).
      symmetry. by apply app_removelast_last.
    - rewrite decide_False; [done|]. intros [?|[Hne Hl]]; [done|].
      destruct (block_chars_last bs b) as [?|?]; [lia|done|done]. }
  unfold CoreTypes.get_blocks, from_blocks, CoreTypes.new; simpl.
  split; [done|]. rewrite Hread.
  destruct (decide (0 < List.last blocks 0)) as [Hpos|Hzero].
  - split; [by right|done].
  - destruct blocks as [|b bs]; [by split; [left|]|]. split.
    + intros Heq. apply (f_equal length) in Heq.
      pose proof (app_removelast_last (l := b :: bs) 0 ltac:(done)) as Hsplit.
      apply (f_equal length) in Hsplit. rewrite length_app in Hsplit.
      simpl in *. lia.
    + intros [?|?]; done.
Qed.

(** X14.  [String.get_blocks] of the engine raises exactly on the strings
    with a symbol other than ['0'] and ['|']; when it returns, no block of
    the result is empty. *)
Theorem get_blocks_raises (s : String) :
  (get_blocks s = None ↔ ¬ over_base s)
  ∧ ∀ bs, get_blocks s = Some bs → Forall (fun b => 0 < b) bs.
Proof.
  destruct s as [syms]. unfold get_blocks; simpl. split.
  - split.
    + intros Hnone Hb.
      destruct (get_blocks_loop_base syms [] 0 Hb) as (bs & Hsome & _). congruence.
    + intros Hnot. destruct (get_blocks_loop syms [] 0) as [bs|] eqn:E; [|done].
      by apply get_blocks_loop_some in E as [? _].
  - intros bs Hsome. apply get_blocks_loop_some in Hsome as [_ Hpos]. by apply Hpos.
Qed.

Lemma get_blocks_raises_witness :
  get_blocks (from_str "0|x") = None
  ∧ Forall (fun b => 0 < b) [2; 1].
Proof.
  split.
  - apply (proj1 (get_blocks_raises (from_str "0|x"))).
    unfold over_base; simpl. intros H.
    inversion H as [|? ? _ Ha]; inversion Ha as [|? ? _ Hb];
      inversion Hb as [|? ? [?|?] _]; discriminate.
  - apply (proj2 (get_blocks_raises (from_str "||00||0|")) [2; 1]). reflexivity.
Defined.

(** X15.  On a base-alphabet text the two [get_blocks] agree up to empty
    blocks: the engine's [String.from_str(content).get_blocks()] is the
    list of the non-zero entries of [String(content).get_blocks()] of
    core/types.py, in the same order. *)
Theorem get_blocks_engine_vs_types (content : string) :
  chars_over_base (String.list_ascii_of_string content) →
  get_blocks (from_str content)
  = Some (filter (fun b => 0 < b)
            (CoreTypes.get_blocks (CoreTypes.new content)).1).
Proof.
  intros Hb. unfold get_blocks, from_str; simpl.
  pose proof (loops_agree (String.list_ascii_of_string content) [] 0 Hb) as Hloop.
  rewrite filter_nil in Hloop. rewrite Hloop. f_equal.
  unfold CoreTypes.compute_blocks.
  destruct (CoreTypes.blocks_loop _ [] 0) as [bs c]; simpl.
  destruct (decide (0 < c ∨ _)) as [?|Hno]; [done|].
  rewrite filter_app, filter_cons, filter_nil.
  destruct (decide (0 < c)) as [?|?]; [|by rewrite app_nil_r].
  destruct Hno. by left.
Qed.

Lemma get_blocks_engine_vs_types_witness :
  (CoreTypes.get_blocks (CoreTypes.new "0||00|")).1 = [1; 0; 2]
  ∧ get_blocks (from_str "0||00|") = Some [1; 2].
Proof.
  split; [reflexivity|].
  apply (get_blocks_engine_vs_types "0||00|").
  unfold chars_over_base; simpl. repeat constructor; by (left + right).
Defined.

(** ** Graph: what [add_vertex] and [add_edge] keep *)

Section graph_operations.

Lemma add_vertex_lookup (g : Graph) (v : String) :
  is_Some (edges (add_vertex v g) !! v).
Proof.
  unfold add_vertex; simpl. destruct (edges g !! v) eqn:E; [by rewrite E|].
  by rewrite lookup_insert_eq.
Qed.

Lemma add_vertex_lookup_other (g : Graph) (v a : String) :
  is_Some (edges g !! a) → is_Some (edges (add_vertex v g) !! a).
Proof.
  unfold add_vertex; simpl. destruct (edges g !! v) eqn:E; [done|].
  intros Ha. rewrite lookup_insert_ne; [done|]. intros ->. rewrite E in Ha.
  by destruct Ha.
Qed.

Lemma add_edge_vertices (g : Graph) (u v : String) :
  vertices (add_edge u v g) = vertices g ∪ {[u]} ∪ {[v]}.
Proof.
  unfold add_edge. destruct (edges _ !! u) as [nbrs|]; [|done].
  by destruct (decide (v ∈ nbrs)).
Qed.

Lemma add_edge_neighbors (g : Graph) (u v a b : String) :
  b ∈ get_neighbors (add_edge u v g) a ↔
  b ∈ get_neighbors g a ∨ (a = u ∧ b = v).
Proof.
  unfold add_edge.
  pose proof (add_vertex_lookup_other (add_vertex u g) v u (add_vertex_lookup g u))
    as [nbrs E].
  assert (∀ x, get_neighbors (add_vertex v (add_vertex u g)) x = get_neighbors g x)
    as Hsame by (intros x; by rewrite !add_vertex_neighbors).
  set (g' := add_vertex v (add_vertex u g)) in *. clearbody g'. rewrite E.
  assert (get_neighbors g u = nbrs) as Hu.
  { rewrite <- Hsame. unfold get_neighbors. by rewrite E. }
  destruct (decide (v ∈ nbrs)) as [Hin|Hnot].
  - rewrite Hsame. split; [by left|]. intros [?|[-> ->]]; [done|]. by rewrite Hu.
  - unfold get_neighbors at 1; simpl. rewrite lookup_insert.
    destruct (decide (u = a)) as [<-|Hne]; simpl.
    + rewrite elem_of_app, list_elem_of_singleton, Hu. naive_solver.
    + change (b ∈ get_neighbors g' a ↔ b ∈ get_neighbors g a ∨ a = u ∧ b = v).
      rewrite Hsame. naive_solver.
Qed.

Lemma add_vertex_dom (g : Graph) (v : String) :
  dom (edges g) = vertices g →
  dom (edges (add_vertex v g)) = vertices (add_vertex v g).
Proof.
  intros Hdom. unfold add_vertex; simpl. destruct (edges g !! v) eqn:E.
  - assert (v ∈ dom (edges g)) by (apply elem_of_dom; by rewrite E). set_solver.
  - rewrite dom_insert_L. set_solver.
Qed.

Lemma add_edge_dom (g : Graph) (u v : String) :
  dom (edges g) = vertices g →
  dom (edges (add_edge u v g)) = vertices (add_edge u v g).
Proof.
  intros Hdom. unfold add_edge.
  pose proof (add_vertex_dom _ v (add_vertex_dom _ u Hdom)) as Hdom'.
  set (g' := add_vertex v (add_vertex u g)) in *.
  destruct (edges g' !! u) as [nbrs|] eqn:E; [|done].
  destruct (decide (v ∈ nbrs)); [done|]. simpl. rewrite dom_insert_L.
  assert (u ∈ dom (edges g')) by (apply elem_of_dom; by rewrite E). set_solver.
Qed.

Lemma add_edge_nodup (g : Graph) (u v : String) :
  (∀ a, NoDup (get_neighbors g a)) →
  ∀ a, NoDup (get_neighbors (add_edge u v g) a).
Proof.
  intros Hg. unfold add_edge.
  assert (∀ x, NoDup (get_neighbors (add_vertex v (add_vertex u g)) x)) as Hg'
    by (intros x; by rewrite !add_vertex_neighbors).
  set (g' := add_vertex v (add_vertex u g)) in *.
  destruct (edges g' !! u) as [nbrs|] eqn:E; [|done].
  destruct (decide (v ∈ nbrs)); [done|].
  intros a. unfold get_neighbors; simpl. rewrite lookup_insert.
  destruct (decide (u = a)) as [<-|Hne]; simpl.
  - apply NoDup_app. split; [|split].
    + specialize (Hg' u). unfold get_neighbors in Hg'. by rewrite E in Hg'.
    + by intros x Hx ->%list_elem_of_singleton.
    + apply NoDup_singleton.
  - apply (Hg' a).
Qed.

End graph_operations.

(** X16.  Every graph built from the empty one with [add_vertex] and
    [add_edge] has an adjacency entry for exactly its vertices, lists no
    neighbour twice, and has all its edges between its vertices. *)
Theorem graph_built_invariants (g : Graph) :
  graph_built g →
  dom (edges g) = vertices g
  ∧ (∀ v, NoDup (get_neighbors g v))
  ∧ (∀ v w, w ∈ get_neighbors g v → v ∈ vertices g ∧ w ∈ vertices g).
Proof.
  intros Hbuilt.
  assert (dom (edges g) = vertices g) as Hdom.
  { induction Hbuilt; [done|by apply add_vertex_dom|by apply add_edge_dom]. }
  split; [done|]. split.
  - clear Hdom. induction Hbuilt as [|v g _ IH|u v g _ IH].
    + intros v. unfold get_neighbors; simpl. rewrite lookup_empty. apply NoDup_nil_2.
    + intros a. rewrite add_vertex_neighbors. apply IH.
    + by apply add_edge_nodup.
  - intros v w Hw. split; [|by apply (graph_built_closed g Hbuilt v)].
    rewrite <- Hdom. apply elem_of_dom. unfold get_neighbors in Hw.
    destruct (edges g !! v); [done|]. by apply elem_of_nil in Hw.
Qed.

Lemma graph_built_invariants_witness :
  let g := add_edge (from_str "0") (from_str "|")
             (add_edge (from_str "0") (from_str "|")
                (add_vertex (from_str "00") empty_graph)) in
  get_neighbors g (from_str "0") = [from_str "|"]
  ∧ dom (edges g) = vertices g.
Proof.
  intros g. split; [reflexivity|].
  apply (graph_built_invariants g). repeat constructor.
Defined.

(** X17.  [add_edge(u, v)] adds the edge and nothing else: the neighbours
    afterwards are the old ones and [v] under [u], the vertices are the old
    ones with [u] and [v]; adding the same edge again changes nothing. *)
Theorem add_edge_adds_one_edge (g : Graph) (u v : String) :
  (∀ a b, b ∈ get_neighbors (add_edge u v g) a ↔
          b ∈ get_neighbors g a ∨ (a = u ∧ b = v))
  ∧ vertices (add_edge u v g) = vertices g ∪ {[u]} ∪ {[v]}
  ∧ add_edge u v (add_edge u v g) = add_edge u v g.
Proof.
  split; [intros a b; apply add_edge_neighbors|].
  split; [apply add_edge_vertices|].
  set (g1 := add_edge u v g).
  assert (v ∈ get_neighbors g1 u) as Hv by (apply add_edge_neighbors; by right).
  assert (vertices g1 = vertices g ∪ {[u]} ∪ {[v]}) as Hvs
    by apply add_edge_vertices.
  assert (is_Some (edges g1 !! u)) as [nu Eu].
  { unfold get_neighbors in Hv. destruct (edges g1 !! u); [done|].
    by apply elem_of_nil in Hv. }
  assert (is_Some (edges g1 !! v)) as [nv Ev].
  { unfold g1, add_edge.
    pose proof (add_vertex_lookup (add_vertex u g) v) as Hlook.
    set (g' := add_vertex v (add_vertex u g)) in *.
    destruct (edges g' !! u) as [nbrs|]; [|done].
    destruct (decide (v ∈ nbrs)); [done|]. simpl.
    rewrite lookup_insert. destruct (decide (u = v)); [done|]. done. }
  clearbody g1. destruct g1 as [vs es]; simpl in *.
  unfold add_edge, add_vertex; simpl. rewrite Eu; simpl. rewrite Ev; simpl.
  rewrite Eu. unfold get_neighbors in Hv; simpl in Hv. rewrite Eu in Hv.
  rewrite decide_True by done. f_equal. set_solver.
Qed.

(** ** GraphBuilder *)

Section graph_builder.

Context (rules : list Rule).

Lemma generate_rec_elem (n : nat) (alphabet : list Symbol) (current : list Symbol)
  (strings : gset String) (x : String) :
  x ∈ generate_rec n alphabet current strings ↔
  x ∈ strings
  ∨ ∃ ext, symbols x = current ++ ext ∧ length ext ≤ n
           ∧ Forall (fun sym => sym ∈ alphabet) ext.
Proof.
  revert current strings. induction n as [|n IH]; intros current strings.
  - simpl. rewrite elem_of_union, elem_of_singleton. split.
    + intros [?| ->]; [by left|]. right. exists []. simpl.
      by rewrite app_nil_r.
    + intros [?|(ext & Hx & Hlen & _)]; [by left|]. right.
      destruct ext; [|simpl in Hlen; lia]. rewrite app_nil_r in Hx.
      destruct x; simpl in *. by subst.
  - simpl.
    assert (∀ l acc,
      x ∈ foldl (fun acc symbol =>
                   generate_rec n alphabet (current ++ [symbol]) acc) acc l ↔
      x ∈ acc ∨ ∃ sym ext, sym ∈ l ∧ symbols x = current ++ sym :: ext
                           ∧ length ext ≤ n
                           ∧ Forall (fun sym => sym ∈ alphabet) ext) as Hfold.
    { induction l as [|sym l IHl]; intros acc; simpl.
      - split; [by left|]. intros [?|(? & ? & ?%elem_of_nil & _)]; done.
      - rewrite IHl, IH. split.
        + intros [[?|(ext & Hx & Hlen & Hall)]|(sym' & ext & Hin & Hrest)].
          * by left.
          * right. exists sym, ext. rewrite <- app_assoc in Hx.
            split; [by left|done].
          * right. exists sym', ext. split; [by right|done].
        + intros [?|(sym' & ext & [->|Hin]%elem_of_cons & Hx & Hrest)].
          * by left; left.
          * left; right. exists ext. by rewrite <- app_assoc.
          * right. by exists sym', ext. }
    rewrite Hfold, elem_of_union, elem_of_singleton. split.
    + intros [[?| ->]|(sym & ext & Hin & Hx & Hlen & Hall)].
      * by left.
      * right. exists []. simpl. rewrite app_nil_r.
        split; [done|]. split; [lia|done].
      * right. exists (sym :: ext). split; [done|]. split; [simpl; lia|].
        by constructor.
    + intros [?|(ext & Hx & Hlen & Hall)]; [by left; left|].
      destruct ext as [|sym ext].
      * left; right. rewrite app_nil_r in Hx. destruct x; simpl in *. by subst.
      * right. inversion Hall; subst. exists sym, ext.
        simpl in Hlen. split; [done|]. split; [done|]. split; [lia|done].
Qed.

Lemma add_vertices_spec (l : list String) (g : Graph) :
  vertices (foldl (fun graph v => add_vertex v graph) g l)
  = vertices g ∪ list_to_set l
  ∧ (∀ a, get_neighbors (foldl (fun graph v => add_vertex v graph) g l) a
          = get_neighbors g a)
  ∧ (graph_built g → graph_built (foldl (fun graph v => add_vertex v graph) g l)).
Proof.
  revert g. induction l as [|v l IH]; intros g; simpl.
  - split; [set_solver|done].
  - destruct (IH (add_vertex v g)) as (Hv & Hn & Hb). split; [|split].
    + rewrite Hv. unfold add_vertex; simpl. set_solver.
    + intros a. by rewrite Hn, add_vertex_neighbors.
    + intros Hg. apply Hb. by constructor.
Qed.

Lemma add_successors_spec (max_length : Z) (g : Graph) (u : String) :
  let g' := add_successors rules max_length g u in
  (∀ a b, b ∈ get_neighbors g' a ↔
     b ∈ get_neighbors g a
     ∨ (a = u ∧ rewrites rules u b ∧ (Z.of_nat (len b) <= max_length)%Z))
  ∧ (∀ x, x ∈ vertices g' ↔
       x ∈ vertices g
       ∨ ∃ b, rewrites rules u b ∧ (Z.of_nat (len b) <= max_length)%Z
              ∧ (x = u ∨ x = b))
  ∧ (graph_built g → graph_built g').
Proof.
  unfold add_successors.
  assert (∀ b, rewrites rules u b ↔
    ∃ a, a ∈ all_applications rules u ∧ a.1.1 = b) as Hrw.
  { intros b. rewrite <- all_applications_fst, list_elem_of_fmap. naive_solver. }
  setoid_rewrite Hrw. clear Hrw.
  generalize (all_applications rules u). intros l. revert g.
  induction l as [|app l IH]; intros g; cbv zeta; simpl.
  - split; [|split; [|done]].
    + intros a b. split; [by left|].
      intros [?|(_ & (? & ?%elem_of_nil & _) & _)]; done.
    + intros x. split; [by left|].
      intros [?|(? & (? & ?%elem_of_nil & _) & _)]; done.
  - cbv zeta in IH.
    destruct (decide (Z.of_nat (len app.1.1) <= max_length)%Z) as [Hle|Hgt].
    + destruct (IH (add_edge u app.1.1 g)) as (Hn & Hv & Hb). split; [|split].
      * intros a b. rewrite Hn, add_edge_neighbors. split.
        -- intros [[?|[-> ->]]|(-> & (a' & Ha' & <-) & Hlen)].
           ++ by left.
           ++ right. split; [done|]. split; [|done]. exists app. split; [by left|done].
           ++ right. split; [done|]. split; [|done]. exists a'. split; [by right|done].
        -- intros [?|(-> & (a' & [->|Ha']%elem_of_cons & <-) & Hlen)].
           ++ by left; left.
           ++ by left; right.
           ++ right. split; [done|]. split; [|done]. by exists a'.
      * intros x. rewrite Hv, add_edge_vertices, !elem_of_union, !elem_of_singleton.
        split.
        -- intros [[[?| ->]| ->]|(b & (a' & Ha' & <-) & Hlen & Hx)].
           ++ by left.
           ++ right. exists app.1.1. split; [|by auto].
              exists app. split; [by left|done].
           ++ right. exists app.1.1. split; [|by auto].
              exists app. split; [by left|done].
           ++ right. exists a'.1.1. split; [|done]. exists a'. split; [by right|done].
        -- intros [?|(b & (a' & [->|Ha']%elem_of_cons & <-) & Hlen & Hx)].
           ++ by left; left; left.
           ++ left. destruct Hx as [->| ->]; auto.
           ++ right. exists a'.1.1. split; [|done]. by exists a'.
      * intros Hg. apply Hb. by constructor.
    + destruct (IH g) as (Hn & Hv & Hb). split; [|split; [|done]].
      * intros a b. rewrite Hn. split.
        -- intros [?|(-> & (a' & Ha' & <-) & Hlen)]; [by left|].
           right. split; [done|]. split; [|done]. exists a'. split; [by right|done].
        -- intros [?|(-> & (a' & [->|Ha']%elem_of_cons & <-) & Hlen)].
           ++ by left.
           ++ done.
           ++ right. split; [done|]. split; [|done]. by exists a'.
      * intros x. rewrite Hv. split.
        -- intros [?|(b & (a' & Ha' & <-) & Hlen & Hx)]; [by left|].
           right. exists a'.1.1. split; [|done]. exists a'. split; [by right|done].
        -- intros [?|(b & (a' & [->|Ha']%elem_of_cons & <-) & Hlen & Hx)].
           ++ by left.
           ++ done.
           ++ right. exists a'.1.1. split; [|done]. by exists a'.
Qed.

Lemma add_all_successors_spec (max_length : Z) (vs : list String) (g : Graph) :
  let g' := foldl (add_successors rules max_length) g vs in
  (∀ a b, b ∈ get_neighbors g' a ↔
     b ∈ get_neighbors g a
     ∨ (a ∈ vs ∧ rewrites rules a b ∧ (Z.of_nat (len b) <= max_length)%Z))
  ∧ (∀ x, x ∈ vertices g' ↔
       x ∈ vertices g
       ∨ ∃ u b, u ∈ vs ∧ rewrites rules u b ∧ (Z.of_nat (len b) <= max_length)%Z
                ∧ (x = u ∨ x = b))
  ∧ (graph_built g → graph_built g').
Proof.
  revert g. induction vs as [|u vs IH]; intros g; cbv zeta; simpl.
  - split; [|split; [|done]].
    + intros a b. split; [by left|]. intros [?|(?%elem_of_nil & _)]; done.
    + intros x. split; [by left|].
      intros [?|(? & ? & ?%elem_of_nil & _)]; done.
  - cbv zeta in IH.
    destruct (IH (add_successors rules max_length g u)) as (Hn & Hv & Hb).
    destruct (add_successors_spec max_length g u) as (Hn1 & Hv1 & Hb1).
    split; [|split].
    + intros a b. rewrite Hn, Hn1. split.
      * intros [[?|(-> & ? & ?)]|(Ha & ? & ?)]; [by left| |].
        -- right. split; [by left|done].
        -- right. split; [by right|done].
      * intros [?|([->|Ha]%elem_of_cons & ? & ?)].
        -- by left; left.
        -- by left; right.
        -- by right.
    + intros x. rewrite Hv, Hv1. split.
      * intros [[?|(b & ? & ? & ?)]|(u' & b & ? & ? & ? & ?)]; [by left| |].
        -- right. exists u, b. split; [by left|done].
        -- right. exists u', b. split; [by right|done].
      * intros [?|(u' & b & [->|Hu]%elem_of_cons & ? & ? & ?)].
        -- by left; left.
        -- left; right. by exists b.
        -- right. by exists u', b.
    + intros Hg. by apply Hb, Hb1.
Qed.

End graph_builder.

(** X18.  [generate_strings(max_length)] is the set of the strings over the
    alphabet of length at most [max_length], together with the empty
    string, which is added even for a negative bound. *)
Theorem generate_strings_exact (alphabet : gset Symbol) (max_length : Z)
  (s : String) :
  s ∈ generate_strings alphabet max_length ↔
  s = mkString []
  ∨ ((Z.of_nat (len s) <= max_length)%Z
     ∧ Forall (fun sym => sym ∈ alphabet) (symbols s)).
Proof.
  unfold generate_strings.
  destruct (decide (0 <= max_length)%Z) as [Hpos|Hneg].
  - rewrite generate_rec_elem, elem_of_singleton. simpl. unfold len. split.
    + intros [?|(ext & -> & Hlen & Hall)]; [by left|]. right. split; [lia|].
      eapply Forall_impl; [exact Hall|]. intros sym. apply elem_of_elements.
    + intros [?|[Hlen Hall]]; [by left|]. right. exists (symbols s).
      split; [done|]. split; [lia|].
      eapply Forall_impl; [exact Hall|]. intros sym. apply elem_of_elements.
  - rewrite elem_of_singleton. split; [by left|].
    intros [?|[Hlen _]]; [done|lia].
Qed.

(** X19.  The graph of [build_graph(max_length)]: its edges are the
    rewriting steps from a generated string to a string of length at most
    [max_length]; its vertices are the generated strings and the targets of
    these edges; it is a graph made by [add_vertex] and [add_edge], and
    [find_sccs] on it returns a partition of its vertices. *)
Theorem build_graph_edges (rules : list Rule) (alphabet : gset Symbol)
  (max_length : Z) :
  let G := build_graph rules alphabet max_length in
  (∀ u v, v ∈ get_neighbors G u ↔
     u ∈ generate_strings alphabet max_length ∧ rewrites rules u v
     ∧ (Z.of_nat (len v) <= max_length)%Z)
  ∧ (∀ x, x ∈ vertices G ↔
       x ∈ generate_strings alphabet max_length ∨ ∃ u, x ∈ get_neighbors G u)
  ∧ graph_built G
  ∧ ∃ comps, find_sccs G = Some comps ∧ partitions G comps.
Proof.
  intros G. unfold build_graph in G.
  set (vs := elements (generate_strings alphabet max_length)) in *.
  set (g0 := foldl (fun graph v => add_vertex v graph) empty_graph vs) in *.
  destruct (add_vertices_spec vs empty_graph) as (Hv0 & Hn0 & Hb0).
  fold g0 in Hv0, Hn0, Hb0.
  destruct (add_all_successors_spec rules max_length vs g0) as (Hn & Hv & Hb).
  fold G in Hn, Hv, Hb.
  assert (∀ x, x ∈ vs ↔ x ∈ generate_strings alphabet max_length) as Hvs
    by (intros x; apply elem_of_elements).
  assert (∀ a b, b ∈ get_neighbors G a ↔
     a ∈ generate_strings alphabet max_length ∧ rewrites rules a b
     ∧ (Z.of_nat (len b) <= max_length)%Z) as Hedges.
  { intros a b. rewrite Hn, Hn0, <- Hvs. unfold get_neighbors; simpl.
    rewrite lookup_empty; simpl. split; [|by right].
    intros [?%elem_of_nil|?]; done. }
  assert (graph_built G) as Hbuilt by (apply Hb, Hb0; constructor).
  split; [done|]. split; [|split; [done|]].
  - intros x. rewrite Hv, Hv0. simpl. rewrite elem_of_union, elem_of_list_to_set.
    rewrite Hvs. split.
    + intros [[?%elem_of_empty|?]|(u & b & Hu & Hrw & Hlen & [->| ->])];
        [done|by left| |].
      * left. by apply Hvs.
      * right. exists u. apply Hedges. by rewrite <- Hvs.
    + intros [?|[u (Hu & Hrw & Hlen)%Hedges]]; [by left; right|].
      right. exists u, x. rewrite Hvs. auto.
  - apply find_sccs_from_partitions.
    + by apply graph_built_closed.
    + lia.
    + intros v. apply elem_of_elements.
Qed.

(** ** Attractors and basins *)

Section attractors.

Context (g : Graph).

Lemma attractor_test_true (component : gset String) :
  attractor_test g component = true ↔
  ∀ u v, u ∈ component → v ∈ get_neighbors g u → v ∈ component.
Proof.
  unfold attractor_test. rewrite forallb_forall. split.
  - intros Hall u v Hu Hv.
    specialize (Hall u). rewrite <- list_elem_of_In, elem_of_elements in Hall.
    specialize (Hall Hu). rewrite forallb_forall in Hall.
    specialize (Hall v). rewrite <- list_elem_of_In in Hall.
    by apply bool_decide_eq_true in Hall.
  - intros Hall u Hu%list_elem_of_In%elem_of_elements.
    apply forallb_forall. intros v Hv%list_elem_of_In.
    apply bool_decide_eq_true. by apply (Hall u).
Qed.

Lemma add_reverse_elem (vertex : String) (nbrs : list String)
  (rev : gmap String (list String)) (u v : String) :
  u ∈ default [] (foldl (add_reverse vertex) rev nbrs !! v) ↔
  u ∈ default [] (rev !! v) ∨ (u = vertex ∧ v ∈ nbrs).
Proof.
  revert rev. induction nbrs as [|n nbrs IH]; intros rev; simpl.
  - split; [by left|]. intros [?|[_ ?%elem_of_nil]]; done.
  - rewrite IH. unfold add_reverse. rewrite lookup_insert.
    destruct (decide (n = v)) as [->|Hne]; simpl.
    + rewrite elem_of_app, list_elem_of_singleton. split.
      * intros [[?| ->]|[-> ?]]; [by left| |].
        -- right. split; [done|by left].
        -- right. split; [done|by right].
      * intros [?|[-> [?|?]%elem_of_cons]]; [by left; left|by left; right|].
        by right.
    + split.
      * intros [?|[-> ?]]; [by left|]. right. split; [done|by right].
      * intros [?|[-> [?|?]%elem_of_cons]]; [by left|congruence|by right].
Qed.

Lemma reverse_edges_elem (u v : String) :
  u ∈ default [] (reverse_edges g !! v) ↔ edge g u v.
Proof.
  unfold reverse_edges, edge. rewrite <- (elem_of_elements (vertices g)).
  assert (∀ l rev,
    u ∈ default [] (foldl (fun rev vertex =>
                             foldl (add_reverse vertex) rev (get_neighbors g vertex))
                          rev l !! v) ↔
    u ∈ default [] (rev !! v) ∨ (u ∈ l ∧ v ∈ get_neighbors g u)) as Hfold.
  { induction l as [|x l IH]; intros rev; simpl.
    - split; [by left|]. intros [?|[?%elem_of_nil _]]; done.
    - rewrite IH, add_reverse_elem. split.
      + intros [[?|[-> ?]]|[? ?]]; [by left| |].
        * right. split; [by left|done].
        * right. split; [by right|done].
      + intros [?|[[->|?]%elem_of_cons ?]]; [by left; left|by left; right|].
        by right. }
  rewrite Hfold, lookup_empty. simpl. split; [|by right].
  intros [?%elem_of_nil|?]; done.
Qed.

Context (attractor : SCC).

Lemma basin_visit_fold (preds : list String) (st : basin_state) :
  (∀ p, p ∈ preds → p ∈ vertices g) →
  ∃ new,
    b_queue (foldl basin_visit st preds) = b_queue st ++ new
    ∧ b_visited (foldl basin_visit st preds) = b_visited st ∪ list_to_set new
    ∧ basin (foldl basin_visit st preds) = basin st ∪ list_to_set new
    ∧ (∀ x, x ∈ new → x ∈ preds)
    ∧ (∀ p, p ∈ preds → p ∈ b_visited (foldl basin_visit st preds))
    ∧ length new + size (vertices g ∖ b_visited (foldl basin_visit st preds))
      = size (vertices g ∖ b_visited st).
Proof.
  revert st. induction preds as [|p preds IH]; intros st Hvert; simpl.
  - exists []. rewrite app_nil_r. simpl.
    repeat split; try done; try set_solver.
  - destruct (IH (basin_visit st p)) as (new & Hq & Hv & Hb & Hnew & Hall & Hsize).
    { intros x Hx. apply Hvert. by right. }
    destruct (decide (p ∈ b_visited st)) as [Hin|Hnot].
    + assert (basin_visit st p = st) as E
        by (unfold basin_visit; by rewrite decide_True).
      rewrite E in *.
      exists new. split; [done|]. split; [done|]. split; [done|].
      split; [intros x Hx; right; by apply Hnew|]. split; [|done].
      intros x [->|Hx]%elem_of_cons; [|by apply Hall].
      rewrite Hv. set_solver.
    + assert (basin_visit st p
              = mkBasin (basin st ∪ {[p]}) (b_visited st ∪ {[p]})
                        (b_queue st ++ [p])) as E
        by (unfold basin_visit; by rewrite decide_False).
      rewrite E in *. simpl in *.
      exists (p :: new). split; [by rewrite Hq, <- app_assoc|].
      split; [rewrite Hv; set_solver|]. split; [rewrite Hb; set_solver|].
      split; [intros x [->|Hx]%elem_of_cons; [by left|right; by apply Hnew]|].
      split.
      * intros x [->|Hx]%elem_of_cons; [|by apply Hall]. rewrite Hv. set_solver.
      * assert (p ∈ vertices g) as Hp by (apply Hvert; by left).
        assert (vertices g ∖ b_visited st
                = {[p]} ∪ vertices g ∖ (b_visited st ∪ {[p]})) as Hsplit.
        { apply set_eq. intros x. destruct (decide (x = p)); set_solver. }
        rewrite Hsplit.
        pose proof (size_union (C := gset String) {[p]}
                      (vertices g ∖ (b_visited st ∪ {[p]}))) as Hunion.
        rewrite Hunion by set_solver.
        rewrite size_singleton. simpl. lia.
Qed.

Lemma basin_loop_spec (fuel : nat) (st : basin_state) :
  basin_inv g attractor st → basin_measure g st ≤ fuel →
  basin_inv g attractor (basin_loop fuel (reverse_edges g) st)
  ∧ b_queue (basin_loop fuel (reverse_edges g) st) = [].
Proof.
  revert st. induction fuel as [|fuel IH]; intros st Hinv Hfuel; simpl.
  - split; [done|]. unfold basin_measure in Hfuel.
    destruct (b_queue st); [done|simpl in Hfuel; lia].
  - destruct (b_queue st) as [|current rest] eqn:Eq; [done|].
    destruct Hinv as (Hb & Hnodes & Hqueue & Hsound & Hclosed).
    set (preds := default [] (reverse_edges g !! current)).
    assert (∀ p, p ∈ preds ↔ edge g p current) as Hpreds
      by (intros p; apply reverse_edges_elem).
    destruct (basin_visit_fold preds (mkBasin (basin st) (b_visited st) rest))
      as (new & Hq & Hv & Hbasin & Hnew & Hall & Hsize).
    { intros p [? _]%Hpreds. done. }
    simpl in Hq, Hv, Hbasin, Hsize.
    set (st1 := foldl basin_visit (mkBasin (basin st) (b_visited st) rest) preds)
      in *.
    assert (current ∈ b_visited st) as Hcur by (apply Hqueue; rewrite Eq; by left).
    apply IH.
    + split; [by rewrite Hv, Hbasin, Hb|]. split; [rewrite Hv; set_solver|].
      split; [|split].
      * intros x. rewrite Hq, Hv, elem_of_app, elem_of_union, elem_of_list_to_set.
        intros [Hx|Hx]; [left; apply Hqueue; rewrite Eq; by right|by right].
      * intros x. rewrite Hv, elem_of_union, elem_of_list_to_set.
        intros [Hx|Hx%Hnew%Hpreds]; [by apply Hsound|].
        destruct (Hsound current Hcur) as (y & Hy & Hpath).
        exists y. split; [done|]. by eapply rtc_l.
      * intros y. rewrite Hv, Hq, elem_of_union, elem_of_list_to_set.
        intros [Hy|Hy]; [|left; apply elem_of_app; by right].
        destruct (Hclosed y Hy) as [Hin|Hdone].
        -- rewrite Eq in Hin. apply elem_of_cons in Hin as [->|Hin].
           ++ right. intros u Hu%Hpreds. rewrite <- Hv. by apply Hall.
           ++ left. apply elem_of_app. by left.
        -- right. intros u Hu. apply elem_of_union. left. by apply Hdone.
    + unfold basin_measure in *. rewrite Eq in Hfuel. rewrite Hq, length_app.
      simpl in Hfuel. lia.
Qed.

Lemma basin_init_inv :
  let st := mkBasin (nodes attractor) (nodes attractor)
                    (elements (nodes attractor)) in
  basin_inv g attractor st
  ∧ basin_measure g st ≤ size (nodes attractor) + size (vertices g).
Proof.
  split.
  - split; [done|]. split; [done|]. simpl. split; [|split].
    + intros x. apply elem_of_elements.
    + intros x Hx. exists x. split; [done|]. apply rtc_refl.
    + intros y Hy. left. by apply elem_of_elements.
  - unfold basin_measure; simpl.
    assert (size (vertices g ∖ nodes attractor) ≤ size (vertices g))
      by (apply subseteq_size; set_solver).
    assert (length (elements (nodes attractor)) = size (nodes attractor)) by done.
    lia.
Qed.

Lemma find_basin_state_spec :
  basin_inv g attractor (find_basin_state g attractor)
  ∧ b_queue (find_basin_state g attractor) = [].
Proof.
  destruct basin_init_inv as [Hinit Hfuel].
  apply (basin_loop_spec _ _ Hinit Hfuel).
Qed.

Lemma find_basin_elem (x : String) :
  x ∈ find_basin g attractor ↔ ∃ y, y ∈ nodes attractor ∧ rtc (edge g) x y.
Proof.
  destruct find_basin_state_spec
    as [(Hb & Hnodes & Hqueue & Hsound & Hclosed) Hempty].
  unfold find_basin. rewrite Hb. split; [apply Hsound|].
  intros (y & Hy & Hpath). induction Hpath as [x|x w y Hstep _ IH].
  - by apply Hnodes.
  - specialize (IH Hy). destruct (Hclosed w IH) as [Hin|Hdone].
    + rewrite Hempty in Hin. by apply elem_of_nil in Hin.
    + by apply Hdone.
Qed.

End attractors.

Section classification.

Context (g : Graph).

Lemma first_basin_spec (attrs : list SCC) (v : String) :
  match first_basin g attrs v with
  | Some a =>
      ∃ i, attrs !! i = Some a
           ∧ (∃ y, y ∈ nodes a ∧ rtc (edge g) v y)
           ∧ ∀ j a', j < i → attrs !! j = Some a' →
               ¬ ∃ y, y ∈ nodes a' ∧ rtc (edge g) v y
  | None => ∀ a, a ∈ attrs → ¬ ∃ y, y ∈ nodes a ∧ rtc (edge g) v y
  end.
Proof.
  induction attrs as [|a attrs IH]; simpl.
  - by intros a ?%elem_of_nil.
  - destruct (decide (v ∈ find_basin g a)) as [Hin|Hnot].
    + exists 0. split; [done|]. split; [by apply find_basin_elem|].
      intros j a' Hj. lia.
    + rewrite find_basin_elem in Hnot.
      destruct (first_basin g attrs v) as [b|].
      * destruct IH as (i & Hi & Hreach & Hbefore). exists (S i).
        split; [done|]. split; [done|].
        intros [|j] a' Hj Hlook; simpl in Hlook.
        -- by injection Hlook as <-.
        -- apply (Hbefore j a'); [lia|done].
      * intros a' [->|Ha']%elem_of_cons; [done|by apply IH].
Qed.

Lemma classify_lookup (sccs : list SCC) (v : String) :
  (v ∈ vertices g →
   classify_vertices g sccs !! v = Some (first_basin g (attractors sccs) v))
  ∧ (v ∉ vertices g → classify_vertices g sccs !! v = None).
Proof.
  unfold classify_vertices. rewrite <- (elem_of_elements (vertices g)).
  assert (∀ l (m : gmap String (option SCC)),
    foldl (fun classification vertex =>
             <[vertex := first_basin g (attractors sccs) vertex]> classification)
          m l !! v
    = if decide (v ∈ l) then Some (first_basin g (attractors sccs) v)
      else m !! v) as Hfold.
  { induction l as [|x l IH]; intros m; cbn [foldl].
    - by destruct (decide (v ∈ [])) as [?%elem_of_nil|].
    - rewrite IH. destruct (decide (v ∈ l)) as [Hl|Hl].
      + rewrite (decide_True (P := v ∈ x :: l)); [done|by right].
      + destruct (decide (x = v)) as [->|Hne].
        * rewrite lookup_insert_eq.
          rewrite (decide_True (P := v ∈ v :: l)); [done|by left].
        * rewrite lookup_insert_ne by done.
          rewrite (decide_False (P := v ∈ x :: l)); [done|].
          intros [?|?]%elem_of_cons; congruence. }
  rewrite Hfold. split; intros Hv.
  - by rewrite decide_True.
  - by rewrite decide_False.
Qed.

End classification.

(** X20.  In the result of [find_sccs] a component is marked as an
    attractor exactly when no edge leaves it; a marked component is closed
    under the edges of the graph, so every vertex reached from one of its
    nodes is one of its nodes. *)
Theorem find_sccs_attractor_flag (g : Graph) (comps : list SCC) (c : SCC) :
  find_sccs g = Some comps → c ∈ comps →
  (is_attractor c = true ↔
     ∀ u v, u ∈ nodes c → v ∈ get_neighbors g u → v ∈ nodes c)
  ∧ (is_attractor c = true →
     ∀ u v, u ∈ nodes c → rtc (fun a b => b ∈ get_neighbors g a) u v →
            v ∈ nodes c).
Proof.
  unfold find_sccs, find_sccs_from. intros Hsome Hc.
  destruct (for_each _ _ tarjan_init) as [st|]; [|done]. simpl in Hsome.
  injection Hsome as <-.
  apply list_elem_of_fmap in Hc as (c0 & -> & _). simpl.
  rewrite attractor_test_true. split; [done|].
  intros Hclosed u v Hu Hpath. induction Hpath as [|u w v Hstep _ IH]; [done|].
  apply IH. by apply (Hclosed u).
Qed.

Lemma find_sccs_attractor_flag_witness :
  let g := add_edge (from_str "00") (from_str "0")
             (add_edge (from_str "0") (from_str "0") empty_graph) in
  ∃ comps, find_sccs g = Some comps
    ∧ mkSCC {[from_str "0"]} true ∈ comps
    ∧ ∀ u v, u ∈ ({[from_str "0"]} : gset String) →
             v ∈ get_neighbors g u → v ∈ ({[from_str "0"]} : gset String).
Proof.
  intros g.
  assert (find_sccs g = Some [mkSCC {[from_str "0"]} true;
                              mkSCC {[from_str "00"]} false]) as Hrun
    by (by vm_compute).
  exists [mkSCC {[from_str "0"]} true; mkSCC {[from_str "00"]} false].
  split; [done|]. split; [by left|].
  apply (proj1 (find_sccs_attractor_flag g _ (mkSCC {[from_str "0"]} true) Hrun
                  ltac:(by left))).
  reflexivity.
Defined.

(** X21.  [find_basin(attractor)] stops with an empty queue and returns
    exactly the vertices from which a path of edges of the graph leads to a
    node of the attractor, the nodes of the attractor among them. *)
Theorem find_basin_exact (g : Graph) (attractor : SCC) :
  b_queue (find_basin_state g attractor) = []
  ∧ nodes attractor ⊆ find_basin g attractor
  ∧ ∀ x, x ∈ find_basin g attractor ↔
         ∃ y, y ∈ nodes attractor ∧ rtc (edge g) x y.
Proof.
  destruct (find_basin_state_spec g attractor)
    as [(Hb & Hnodes & _) Hempty].
  split; [done|]. split; [unfold find_basin; by rewrite Hb|].
  apply find_basin_elem.
Qed.

(** X23.  [classify_vertices] has an entry for exactly the vertices of the
    graph.  A vertex is assigned the first of the components marked as
    attractors that it can reach along edges of the graph, and [None]
    exactly when it can reach none of them. *)
Theorem classify_vertices_first_attractor (g : Graph) (sccs : list SCC)
  (v : String) :
  (is_Some (classify_vertices g sccs !! v) ↔ v ∈ vertices g)
  ∧ (∀ a, classify_vertices g sccs !! v = Some (Some a) →
       ∃ i, attractors sccs !! i = Some a
            ∧ a ∈ sccs ∧ is_attractor a = true
            ∧ (∃ y, y ∈ nodes a ∧ rtc (edge g) v y)
            ∧ ∀ j a' y, j < i → attractors sccs !! j = Some a' →
                y ∈ nodes a' → ¬ rtc (edge g) v y)
  ∧ (classify_vertices g sccs !! v = Some None ↔
       v ∈ vertices g
       ∧ ∀ a y, a ∈ sccs → is_attractor a = true → y ∈ nodes a →
                ¬ rtc (edge g) v y).
Proof.
  destruct (classify_lookup g sccs v) as [Hin Hout].
  pose proof (first_basin_spec g (attractors sccs) v) as Hfirst.
  split; [|split].
  - split.
    + intros Hsome. destruct (decide (v ∈ vertices g)) as [|Hv]; [done|].
      rewrite (Hout Hv) in Hsome. by destruct Hsome.
    + intros Hv. rewrite (Hin Hv). done.
  - intros a Ha. destruct (decide (v ∈ vertices g)) as [Hv|Hv];
      [|by rewrite (Hout Hv) in Ha].
    rewrite (Hin Hv) in Ha. injection Ha as Ha. rewrite Ha in Hfirst.
    destruct Hfirst as (i & Hi & Hreach & Hbefore). exists i.
    split; [done|].
    assert (a ∈ attractors sccs) as Hmem by (by eapply list_elem_of_lookup_2).
    apply list_elem_of_filter in Hmem as [Hflag Hmem].
    split; [done|]. split; [done|]. split; [done|].
    intros j a' y Hj Hj' Hy Hpath. apply (Hbefore j a' Hj Hj'). by exists y.
  - split.
    + intros Hnone. destruct (decide (v ∈ vertices g)) as [Hv|Hv];
        [|by rewrite (Hout Hv) in Hnone].
      split; [done|]. rewrite (Hin Hv) in Hnone. injection Hnone as Hnone.
      rewrite Hnone in Hfirst. intros a y Ha Hflag Hy Hpath.
      apply (Hfirst a); [by apply list_elem_of_filter|]. by exists y.
    + intros [Hv Hnone]. rewrite (Hin Hv). f_equal.
      destruct (first_basin g (attractors sccs) v) as [a|]; [|done].
      destruct Hfirst as (i & Hi & (y & Hy & Hpath) & _).
      assert (a ∈ attractors sccs) as Hmem by (by eapply list_elem_of_lookup_2).
      apply list_elem_of_filter in Hmem as [Hflag Hmem].
      by destruct (Hnone a y).
Qed.

(** ** FrequencyAnalyzer *)

(** X22.  [extract_substrings(string, min_len, max_len)] lists exactly the
    strings of a length between [min_len] and [max_len] that occur in
    [string], that is, that [find_positions] finds there; it lists nothing
    when [min_len] exceeds [max_len] or the length of [string]. *)
Theorem extract_substrings_exact (s : String) (min_len max_len : nat) (t : String) :
  (t ∈ extract_substrings s min_len max_len ↔
     min_len ≤ len t ≤ max_len ∧ ∃ i, i ∈ find_positions s t)
  ∧ (max_len < min_len ∨ len s < min_len →
     extract_substrings s min_len max_len = []).
Proof.
  unfold extract_substrings. split.
  - rewrite list_elem_of_In, in_flat_map. split.
    + intros (n & Hn%list_elem_of_In%elem_of_seq & Hin).
      apply in_map_iff in Hin as (i & <- & Hi%list_elem_of_In%elem_of_seq).
      assert (len (mkString (slice (symbols s) i n)) = n) as Hlen.
      { unfold len, slice in *; simpl. rewrite length_take, length_drop. lia. }
      rewrite Hlen. split; [lia|]. exists i. unfold find_positions.
      apply list_elem_of_filter. rewrite Hlen. split; [done|].
      apply elem_of_seq. lia.
    + intros [Hlen (i & Hi)]. unfold find_positions in Hi.
      apply list_elem_of_filter in Hi as [Hslice Hi%elem_of_seq].
      exists (len t). split; [apply list_elem_of_In, elem_of_seq; lia|].
      apply in_map_iff. exists i. split.
      * destruct t; simpl in *. by f_equal.
      * apply list_elem_of_In, elem_of_seq. lia.
  - intros Hempty.
    assert (∀ n l, (∀ x, x ∈ l → len s < x) →
      flat_map (fun length =>
                  map (fun i => mkString (slice (symbols s) i length))
                      (seq 0 (len s + 1 - length))) l = n → n = []) as Hnil.
    { intros n l Hl <-. induction l as [|x l IH]; [done|]. simpl.
      assert (len s < x) as Hx by (apply Hl; by left).
      replace (len s + 1 - x) with 0 by lia. simpl. apply IH.
      intros y Hy. apply Hl. by right. }
    destruct Hempty as [Hlt|Hlt].
    + by replace (max_len + 1 - min_len) with 0 by lia.
    + eapply Hnil; [|done]. intros x Hx%elem_of_seq. lia.
Qed.

Lemma extract_substrings_exact_witness :
  extract_substrings (from_str "0|0") 2 5 = [from_str "0|"; from_str "|0"; from_str "0|0"]
  ∧ extract_substrings (from_str "0|0") 4 5 = [].
Proof.
  split; [reflexivity|].
  apply (proj2 (extract_substrings_exact (from_str "0|0") 4 5 (from_str ""))).
  right. vm_compute. lia.
Defined.

(** ** RuleSet of core/types.py *)

Section rule_sets.

Import CoreRules.

Lemma substring_chars (i m : nat) (s : string) :
  String.list_ascii_of_string (String.substring i m s)
  = take m (drop i (String.list_ascii_of_string s)).
Proof.
  revert i m. induction s as [|c s IH]; intros [|i] [|m]; simpl; try done;
    by rewrite IH.
Qed.

Lemma list_ascii_inj (a b : string) :
  String.list_ascii_of_string a = String.list_ascii_of_string b → a = b.
Proof.
  intros H. rewrite <- (String.string_of_list_ascii_of_string a).
  rewrite <- (String.string_of_list_ascii_of_string b). by rewrite H.
Qed.

Lemma string_length_chars (s : string) :
  length (String.list_ascii_of_string s) = String.length s.
Proof. induction s as [|c s IH]; simpl; [done|]. by rewrite IH. Qed.

Lemma from_str_len (s : string) : len (from_str s) = String.length s.
Proof. unfold len, from_str; simpl. by rewrite length_map, string_length_chars. Qed.

(** An occurrence in the text is a match of the engine's symbol strings. *)
Lemma substring_slice (text pattern : string) (i : nat) :
  String.substring i (String.length pattern) text = pattern ↔
  slice (symbols (from_str text)) i (String.length pattern)
  = symbols (from_str pattern).
Proof.
  unfold from_str, slice; simpl.
  rewrite <- fmap_drop, <- fmap_take. split.
  - intros H. rewrite <- substring_chars. by rewrite H.
  - intros H. apply list_ascii_inj. rewrite substring_chars.
    assert (Inj (=) (=) (fun c => mkSymbol (String.String c EmptyString)))
      as Hinj by (by intros a b [= ->]).
    by apply (list_fmap_eq_inj _ Hinj) in H.
Qed.

Lemma find_positions_text (text pattern : string) :
  find_positions (from_str text) (from_str pattern)
  = filter (fun i => String.substring i (String.length pattern) text = pattern)
           (seq 0 (String.length text + 1 - String.length pattern)).
Proof.
  unfold find_positions. rewrite !from_str_len.
  apply list_filter_iff. intros i. symmetry. apply substring_slice.
Qed.

Lemma filter_seq_tail (P : nat → Prop) `{!∀ i, Decision (P i)}
  (start k pos : nat) (rest : list nat) :
  filter P (seq start k) = pos :: rest →
  start ≤ pos < start + k
  ∧ rest = filter P (seq (pos + 1) (start + k - (pos + 1))).
Proof.
  revert start. induction k as [|k IH]; intros start; simpl; [done|].
  rewrite filter_cons. destruct (decide (P start)) as [Hp|Hp].
  - intros [= <- <-]. split; [lia|].
    replace (start + 1) with (S start) by lia.
    by replace (start + S k - S start) with k by lia.
  - intros [Hb ->]%IH. split; [lia|].
    by replace (S start + k) with (start + S k) by lia.
Qed.

Lemma find_loop_spec (fuel : nat) (text : string) (rule : Rule) (start : nat)
  (applicable : list (Rule * nat)) :
  let pattern := CoreTypes.content (left rule) in
  let bound := String.length text + 1 - String.length pattern in
  bound - start < fuel →
  find_loop fuel text rule start applicable
  = Some (applicable
          ++ map (fun pos => (rule, pos))
               (filter (fun i => String.substring i (String.length pattern) text
                                 = pattern)
                       (seq start (bound - start)))).
Proof.
  intros pattern bound. revert start applicable.
  induction fuel as [|fuel IH]; intros start applicable Hfuel; [lia|].
  simpl. unfold str_find. fold pattern. fold bound.
  destruct (filter _ (seq start (bound - start))) as [|pos rest] eqn:E; simpl.
  - by rewrite app_nil_r.
  - apply filter_seq_tail in E as [Hpos ->].
    rewrite IH by lia. rewrite <- app_assoc. simpl.
    by replace (start + (bound - start) - (pos + 1)) with (bound - (pos + 1))
      by lia.
Qed.

Lemma for_each_find (text : string) (l : list Rule)
  (applicable : list (Rule * nat)) :
  for_each (fun applicable rule =>
              find_loop (String.length text + 2) text rule 0 applicable)
           l applicable
  = Some (applicable
          ++ flat_map (fun rule =>
               map (fun pos => (rule, pos))
                 (find_positions (from_str text)
                    (from_str (CoreTypes.content (left rule))))) l).
Proof.
  revert applicable. induction l as [|rule l IH]; intros applicable; simpl.
  - by rewrite app_nil_r.
  - rewrite find_loop_spec by lia. rewrite IH, <- app_assoc. do 2 f_equal.
    rewrite find_positions_text. by rewrite Nat.sub_0_r.
Qed.

Lemma add_rule_by_left (rule : Rule) (rs : RuleSet) (key : string) :
  default [] (rules_by_left rs !! key)
  = filter (fun r => CoreTypes.content (left r) = key) (rules rs) →
  default [] (rules_by_left (add_rule rule rs) !! key)
  = filter (fun r => CoreTypes.content (left r) = key) (rules (add_rule rule rs)).
Proof.
  intros Hinv. unfold add_rule; simpl. rewrite filter_app, filter_cons, filter_nil.
  rewrite lookup_insert.
  destruct (decide (CoreTypes.content (left rule) = key)) as [->|Hne]; simpl.
  - by rewrite Hinv.
  - by rewrite app_nil_r.
Qed.

End rule_sets.

(** X24.  [RuleSet.find_applicable_rules] returns, rule by rule in the
    order of the rule set, the positions at which the left side occurs in
    the text, in increasing order: the positions that the engine's
    [find_positions] finds for the same text and pattern.  Adding a rule
    appends its positions. *)
Theorem find_applicable_rules_exact (rs : CoreRules.RuleSet)
  (string : CoreTypes.String) :
  let positions rule :=
    find_positions (from_str (CoreTypes.content string))
      (from_str (CoreTypes.content (CoreRules.left rule))) in
  CoreRules.find_applicable_rules rs string
  = Some (flat_map (fun rule => map (fun pos => (rule, pos)) (positions rule))
                   (CoreRules.rules rs))
  ∧ ∀ rule found,
      CoreRules.find_applicable_rules rs string = Some found →
      CoreRules.find_applicable_rules (CoreRules.add_rule rule rs) string
      = Some (found ++ map (fun pos => (rule, pos)) (positions rule)).
Proof.
  intros positions. unfold CoreRules.find_applicable_rules.
  rewrite for_each_find. simpl. split; [done|].
  intros rule found [= <-]. rewrite for_each_find. simpl. f_equal.
  rewrite flat_map_app. simpl. by rewrite app_nil_r.
Qed.

Lemma find_applicable_rules_exact_witness :
  let rule := CoreRules.mkRule (CoreTypes.new "00") (CoreTypes.new "0") "r" in
  let rs := CoreRules.add_rule rule CoreRules.empty in
  CoreRules.find_applicable_rules rs (CoreTypes.new "000|00")
  = Some [(rule, 0); (rule, 1); (rule, 4)].
Proof.
  intros rule rs.
  apply (proj2 (find_applicable_rules_exact CoreRules.empty (CoreTypes.new "000|00"))
           rule []).
  reflexivity.
Defined.

(** X25.  In a rule set made by [add_rule], the index [rules_by_left] lists
    under every left side the rules with that left side, in the order in
    which they were added, and [rules_by_id] maps an identifier to the last
    rule added under it, never under the empty identifier. *)
Theorem rule_set_indexes (rs : CoreRules.RuleSet) :
  CoreRules.built rs →
  (∀ key, default [] (CoreRules.rules_by_left rs !! key)
          = filter (fun r => CoreTypes.content (CoreRules.left r) = key)
                   (CoreRules.rules rs))
  ∧ (∀ id, CoreRules.rules_by_id rs !! id
           = if decide (id = "") then None
             else last (filter (fun r => CoreRules.rule_id r = id)
                               (CoreRules.rules rs))).
Proof.
  induction 1 as [|rule rs _ [IHleft IHid]].
  - split; [intros key|intros id]; simpl.
    + by rewrite lookup_empty.
    + rewrite lookup_empty. by destruct (decide (id = "")).
  - split; [intros key; by apply add_rule_by_left|].
    intros id. unfold CoreRules.add_rule; simpl.
    rewrite filter_app, filter_cons, filter_nil.
    destruct (decide (CoreRules.rule_id rule ≠ "")) as [Hid|Hid].
    + rewrite lookup_insert.
      destruct (decide (CoreRules.rule_id rule = id)) as [<-|Hne]; simpl.
      * rewrite decide_False by done. by rewrite last_snoc.
      * rewrite app_nil_r. apply IHid.
    + rewrite IHid. destruct (decide (id = "")) as [->|Hne]; [done|].
      rewrite decide_False; [by rewrite app_nil_r|]. intros Heq.
      apply Hid. congruence.
Qed.

Lemma rule_set_indexes_witness :
  let r1 := CoreRules.mkRule (CoreTypes.new "00") (CoreTypes.new "0") "a" in
  let r2 := CoreRules.mkRule (CoreTypes.new "00") (CoreTypes.new "|") "a" in
  let rs := CoreRules.add_rule r2 (CoreRules.add_rule r1 CoreRules.empty) in
  CoreRules.rules_by_left rs !! "00" = Some [r1; r2]
  ∧ CoreRules.rules_by_id rs !! "a" = Some r2.
Proof.
  intros r1 r2 rs. split; [reflexivity|].
  rewrite (proj2 (rule_set_indexes rs ltac:(repeat constructor)) "a").
  reflexivity.
Defined.
